(** * FlowControl: a rate-limited FIFO queue of asynchronous tasks

    Shallow embedding of [src/flow-control.js] (class [FlowControl]) and the
    properties its specification states about it.

    The class is single-threaded JavaScript driven by the event loop, so the
    embedding is a deterministic step function on a [world]:
    - the [FlowControl] object itself (the eight fields of the constructor);
    - the number of [setTimeout(..., 0)] callbacks waiting to fire;
    - the heap of caller-owned objects that are passed as task arguments
      (the settlement callback mutates them, so they are shared, not copied);
    - the promises returned by the callables ("awaitables"), the reactions
      registered on them, and the microtask queue of promise-reaction jobs;
    - a chronological trace of what an outside observer can see.

    [Date.now()] is an input: every event carries the values the clock returns
    at the points where the code reads it.  Numbers are exact: timestamps are
    integers (as [Date.now()] returns them) and the rate and the minimal
    interval are rationals, so [60000 / maxFlow] is not rounded. *)

From Stdlib Require Import ZArith QArith Qround Lia Lqa.
From stdpp Require Import base option list gmap strings fin_maps.

Local Open Scope Z_scope.

(** ** JavaScript values and caller-owned objects *)

Inductive value :=
  | VUndefined
  | VNull
  | VBool (b : bool)
  | VNum (n : Z)
  | VStr (s : string)
  | VObj (l : nat).

(** What a [throw] carries: an arbitrary value, or a [TypeError] raised by
    the runtime. *)
Inductive exn :=
  | Thrown (v : value)
  | TypeError (msg : string).

(** An own property with its [configurable] attribute ([delete] needs it). *)
Record prop := mkProp { p_value : value; p_configurable : bool }.

(** An object: its own properties, and whether the lookup of
    [hasOwnProperty] finds [Object.prototype.hasOwnProperty] (it does not on
    an object made by [Object.create(null)]). *)
Record object := mkObject {
  o_props : gmap string prop;
  o_hasOwnProperty : bool
}.

Definition truthy (v : value) : bool :=
  match v with
  | VUndefined | VNull => false
  | VBool b => b
  | VNum n => negb (n =? 0)
  | VStr s => negb (String.eqb s "")
  | VObj _ => true
  end.

(** ** Numbers: the rate and the interval *)

(** [60000 / 0] is [Infinity] in JavaScript. *)
Inductive number :=
  | Finite (q : Q)
  | PlusInfinity.

Definition Qlt_bool (x y : Q) : bool := negb (Qle_bool y x).

Definition js_div (a b : Q) : number :=
  if Qeq_bool b 0 then PlusInfinity else Finite (a / b).

(** [x < n] for an integer [x]. *)
Definition js_lt (x : Z) (n : number) : bool :=
  match n with
  | Finite q => Qlt_bool (inject_Z x) q
  | PlusInfinity => true
  end.

(** ** Callables, tasks and promise reactions *)

Inductive outcome :=
  | Resolved (v : value)
  | Rejected (r : value).

(** What the invocation [caller(...args)] does before it returns:
    it throws, it returns a promise (named by a number; the docstring of
    [call] asks for an async function or a function returning a Promise), or
    it returns something that has no [then] method. *)
Inductive sync_result :=
  | SThrow (e : exn)
  | SReturnPromise (a : nat)
  | SReturnOther (v : value).

(** A callable may also submit further work to the same queue while it runs
    ([reentry]: the calls [fc.call(c, ...args)] it makes, in order). *)
Inductive callable :=
  | Callable (reentry : list submission) (result : sync_result)
with submission :=
  | Submission (caller : callable) (args : list value).

Definition c_reentry (c : callable) : list submission :=
  match c with Callable l _ => l end.
Definition c_result (c : callable) : sync_result :=
  match c with Callable _ r => r end.

(** The closure built by [_createTask]: it captures the callable, its
    arguments and the [resolve]/[reject] pair of the promise that [call]
    returns (named by the promise's number). *)
Record task := mkTask {
  t_caller : callable;
  t_args : list value;
  t_promise : nat
}.

(** A dispatched task whose callable returned promise [r_await]:
    the context of the chain [.then(resolve).catch(reject).finally(...)]. *)
Record running := mkRunning {
  r_task : task;
  r_begin : Z;
  r_await : nat
}.

Definition r_promise (r : running) : nat := t_promise (r_task r).

(** Promise-reaction jobs of the chain, one per link. *)
Inductive job :=
  | JThen (r : running) (o : outcome)
  | JCatch (r : running) (o : outcome)
  | JFinally (r : running).

Definition job_running (j : job) : running :=
  match j with JThen r _ | JCatch r _ | JFinally r => r end.

(** ** The FlowControl object *)

Record FlowControl := mkFlowControl {
  _count : Z;
  _maxFlow : Q;
  _minInterval : number;
  _name : string;
  _lastExecuteTime : Z;
  _taskQueue : list task;
  _totalTime : Z;
  _total : Z
}.

(** [new FlowControl(maxFlow, name)]; a caller that leaves [maxFlow] out
    gets 0. *)
Definition FlowControl_constructor (maxFlow : Q) (name : string) : FlowControl :=
  {| _count := 0;
     _maxFlow := maxFlow;
     _minInterval := js_div (60 * 1000) maxFlow;
     _name := name;
     _lastExecuteTime := 0;
     _taskQueue := [];
     _totalTime := 0;
     _total := 0 |}.

Definition set_count (c : Z) (f : FlowControl) : FlowControl :=
  {| _count := c; _maxFlow := _maxFlow f; _minInterval := _minInterval f;
     _name := _name f; _lastExecuteTime := _lastExecuteTime f;
     _taskQueue := _taskQueue f; _totalTime := _totalTime f;
     _total := _total f |}.

Definition set_lastExecuteTime (t : Z) (f : FlowControl) : FlowControl :=
  {| _count := _count f; _maxFlow := _maxFlow f; _minInterval := _minInterval f;
     _name := _name f; _lastExecuteTime := t;
     _taskQueue := _taskQueue f; _totalTime := _totalTime f;
     _total := _total f |}.

Definition set_taskQueue (q : list task) (f : FlowControl) : FlowControl :=
  {| _count := _count f; _maxFlow := _maxFlow f; _minInterval := _minInterval f;
     _name := _name f; _lastExecuteTime := _lastExecuteTime f;
     _taskQueue := q; _totalTime := _totalTime f;
     _total := _total f |}.

Definition add_completed (elapsed : Z) (f : FlowControl) : FlowControl :=
  {| _count := _count f; _maxFlow := _maxFlow f; _minInterval := _minInterval f;
     _name := _name f; _lastExecuteTime := _lastExecuteTime f;
     _taskQueue := _taskQueue f; _totalTime := _totalTime f + elapsed;
     _total := _total f + 1 |}.

(** ** What an observer sees *)

Inductive level := Debug | Error.

Inductive message :=
  | MsgExecute (count : Z) (remaining : nat) (average : Q)
  | MsgFinish (count : Z) (remaining : nat) (args : list value) (elapsed : Z)
  | MsgError (e : exn).

(** The trace records, in order: [call] returning promise [p]; the task of
    promise [p] being taken from the queue and invoked, with the time stored
    in [_lastExecuteTime]; its callable returning promise [a]; the calls of
    the caller's [resolve] and [reject]; the start of the callback given to
    [.finally]; the calls of the logger; a rejection nobody handles. *)
Inductive obs :=
  | OSubmit (p : nat)
  | ODispatch (p : nat) (time : Z)
  | OReturned (p : nat) (a : nat)
  | OResolve (p : nat) (v : value)
  | OReject (p : nat) (r : value)
  | OFinally (p : nat)
  | OLog (l : level) (m : message)
  | OUnhandled (e : exn).

(** ** The world *)

Record world := mkWorld {
  w_fc : FlowControl;
  w_timers : nat;
  w_heap : gmap nat object;
  w_settled : gmap nat outcome;
  w_waiting : list running;
  w_microtasks : list job;
  w_next : nat;
  w_trace : list obs
}.

Definition set_fc (f : FlowControl) (w : world) : world :=
  {| w_fc := f; w_timers := w_timers w; w_heap := w_heap w;
     w_settled := w_settled w; w_waiting := w_waiting w;
     w_microtasks := w_microtasks w; w_next := w_next w;
     w_trace := w_trace w |}.

Definition set_timers (n : nat) (w : world) : world :=
  {| w_fc := w_fc w; w_timers := n; w_heap := w_heap w;
     w_settled := w_settled w; w_waiting := w_waiting w;
     w_microtasks := w_microtasks w; w_next := w_next w;
     w_trace := w_trace w |}.

Definition set_heap (h : gmap nat object) (w : world) : world :=
  {| w_fc := w_fc w; w_timers := w_timers w; w_heap := h;
     w_settled := w_settled w; w_waiting := w_waiting w;
     w_microtasks := w_microtasks w; w_next := w_next w;
     w_trace := w_trace w |}.

Definition set_settled (s : gmap nat outcome) (w : world) : world :=
  {| w_fc := w_fc w; w_timers := w_timers w; w_heap := w_heap w;
     w_settled := s; w_waiting := w_waiting w;
     w_microtasks := w_microtasks w; w_next := w_next w;
     w_trace := w_trace w |}.

Definition set_waiting (l : list running) (w : world) : world :=
  {| w_fc := w_fc w; w_timers := w_timers w; w_heap := w_heap w;
     w_settled := w_settled w; w_waiting := l;
     w_microtasks := w_microtasks w; w_next := w_next w;
     w_trace := w_trace w |}.

Definition set_microtasks (l : list job) (w : world) : world :=
  {| w_fc := w_fc w; w_timers := w_timers w; w_heap := w_heap w;
     w_settled := w_settled w; w_waiting := w_waiting w;
     w_microtasks := l; w_next := w_next w;
     w_trace := w_trace w |}.

Definition set_next (n : nat) (w : world) : world :=
  {| w_fc := w_fc w; w_timers := w_timers w; w_heap := w_heap w;
     w_settled := w_settled w; w_waiting := w_waiting w;
     w_microtasks := w_microtasks w; w_next := n;
     w_trace := w_trace w |}.

Definition emit (o : obs) (w : world) : world :=
  {| w_fc := w_fc w; w_timers := w_timers w; w_heap := w_heap w;
     w_settled := w_settled w; w_waiting := w_waiting w;
     w_microtasks := w_microtasks w; w_next := w_next w;
     w_trace := w_trace w ++ [o] |}.

(** [setTimeout(() => this._executeTask(), 0)] *)
Definition setTimeout (w : world) : world := set_timers (S (w_timers w)) w.

(** A reaction job is appended to the microtask queue. *)
Definition enqueue (j : job) (w : world) : world :=
  set_microtasks (w_microtasks w ++ [j]) w.

Definition init_world (maxFlow : Q) (name : string) (h : gmap nat object) : world :=
  {| w_fc := FlowControl_constructor maxFlow name;
     w_timers := 0;
     w_heap := h;
     w_settled := ∅;
     w_waiting := [];
     w_microtasks := [];
     w_next := 0;
     w_trace := [] |}.

(** ** The methods of the class *)

(** [_createTask(caller, args, resolve, reject)] *)
Definition _createTask (caller : callable) (args : list value) (p : nat) : task :=
  {| t_caller := caller; t_args := args; t_promise := p |}.

(** [call(caller, ...args)]: the executor of the new promise runs at once;
    it starts the driving loop when the queue is empty, then appends. *)
Definition call (caller : callable) (args : list value) (w : world) : nat * world :=
  let p := w_next w in
  let w := emit (OSubmit p) (set_next (S p) w) in
  let task := _createTask caller args p in
  let w := if (length (_taskQueue (w_fc w)) <=? 0)%nat then setTimeout w else w in
  (p, set_fc (set_taskQueue (_taskQueue (w_fc w) ++ [task]) (w_fc w)) w).

(** [_checkFlow()], with [now] the value of [Date.now()] should it be read. *)
Definition _checkFlow (now : Z) (f : FlowControl) : bool * FlowControl :=
  if Qlt_bool 0 (_maxFlow f) then
    if js_lt (now - _lastExecuteTime f) (_minInterval f) then (false, f)
    else (true, set_lastExecuteTime now f)
  else (true, f).

(** The calls to the queue that a callable makes while it runs. *)
Definition reenter (l : list submission) (w : world) : world :=
  foldl (fun w s => match s with Submission c a => snd (call c a w) end) w l.

(** [.then(resolve).catch(reject).finally(...)] on promise [a]: the first
    reaction is queued at once when [a] is already settled. *)
Definition register (r : running) (w : world) : world :=
  match w_settled w !! r_await r with
  | Some o => enqueue (JThen r o) w
  | None => set_waiting (w_waiting w ++ [r]) w
  end.

(** The closure returned by [_createTask], invoked: [task()].  The
    invocation [caller(...args)] first makes its own calls to the queue;
    [.then] on something that is no promise is a [TypeError]. *)
Definition run_task (t : task) (beginTime : Z) (w : world) : world * option exn :=
  let w := reenter (c_reentry (t_caller t)) w in
  match c_result (t_caller t) with
  | SThrow e => (w, Some e)
  | SReturnOther _ => (w, Some (TypeError "caller(...).then is not a function"))
  | SReturnPromise a =>
      let r := {| r_task := t; r_begin := beginTime; r_await := a |} in
      let w := register r (emit (OReturned (t_promise t) a) w) in
      (set_fc (set_count (_count (w_fc w) + 1) (w_fc w)) w, None)
  end.

Definition averageTime (f : FlowControl) : Q :=
  if 0 <? _total f
  then (inject_Z (_totalTime f) / inject_Z (_total f) / 1000)%Q
  else 0%Q.

(** The [try] block of [_executeTask]. *)
Definition try_executeTask (now_check now_execute now_begin : Z) (w : world)
  : world * option exn :=
  if (0 <? length (_taskQueue (w_fc w)))%nat then
    let (pass, f) := _checkFlow now_check (w_fc w) in
    let w := set_fc f w in
    if negb pass then (w, None)
    else
      let w := set_fc (set_lastExecuteTime now_execute (w_fc w)) w in
      match _taskQueue (w_fc w) with
      | [] => (w, Some (TypeError "task is not a function"))
      | task :: rest =>
          let w := set_fc (set_taskQueue rest (w_fc w)) w in
          let w := emit (ODispatch (t_promise task) now_execute) w in
          match run_task task now_begin w with
          | (w, Some e) => (w, Some e)
          | (w, None) =>
              (emit (OLog Debug (MsgExecute (_count (w_fc w))
                                   (length (_taskQueue (w_fc w)))
                                   (averageTime (w_fc w)))) w, None)
          end
      end
  else (w, None).

(** The [try] block with its [catch], which logs at error level. *)
Definition try_catch_executeTask (now_check now_execute now_begin : Z) (w : world)
  : world :=
  let (w, thrown) := try_executeTask now_check now_execute now_begin w in
  match thrown with
  | Some e => emit (OLog Error (MsgError e)) w
  | None => w
  end.

(** [_executeTask()]: the [try]/[catch], then the rescheduling test. *)
Definition _executeTask (now_check now_execute now_begin : Z) (w : world) : world :=
  let w := try_catch_executeTask now_check now_execute now_begin w in
  if (0 <? length (_taskQueue (w_fc w)))%nat then setTimeout w else w.

(** [if (arg && arg.hasOwnProperty("token")) delete arg.token]: a falsy
    argument is skipped; a primitive has no own [token]; on an object the
    call of [hasOwnProperty] throws when the lookup finds no such method,
    and [delete] throws when the property is not configurable (a class body
    is strict code). *)
Definition strip_token (h : gmap nat object) (arg : value)
  : gmap nat object * option exn :=
  if truthy arg then
    match arg with
    | VObj l =>
        match h !! l with
        | Some o =>
            if o_hasOwnProperty o then
              match o_props o !! "token" with
              | Some p =>
                  if p_configurable p
                  then (<[l := mkObject (delete "token" (o_props o)) (o_hasOwnProperty o)]> h, None)
                  else (h, Some (TypeError "Cannot delete property 'token'"))
              | None => (h, None)
              end
            else (h, Some (TypeError "arg.hasOwnProperty is not a function"))
        | None => (h, None)
        end
    | _ => (h, None)
    end
  else (h, None).

(** [args.map(arg => ...)]: left to right, up to the first exception. *)
Fixpoint strip_tokens (h : gmap nat object) (args : list value)
  : gmap nat object * option exn :=
  match args with
  | [] => (h, None)
  | arg :: rest =>
      match strip_token h arg with
      | (h, Some e) => (h, Some e)
      | (h, None) => strip_tokens h rest
      end
  end.

(** The callback given to [.finally] (the trace notes that it starts). *)
Definition finally_callback (now : Z) (r : running) (w : world) : world * option exn :=
  let w := emit (OFinally (r_promise r)) w in
  let w := set_fc (set_count (_count (w_fc w) - 1) (w_fc w)) w in
  match strip_tokens (w_heap w) (t_args (r_task r)) with
  | (h, Some e) => (set_heap h w, Some e)
  | (h, None) =>
      let w := set_heap h w in
      let executeime := now - r_begin r in
      let w := set_fc (add_completed executeime (w_fc w)) w in
      (emit (OLog Debug (MsgFinish (_count (w_fc w))
                           (length (_taskQueue (w_fc w)))
                           (t_args (r_task r)) executeime)) w, None)
  end.

(** ** The event loop *)

(** One promise-reaction job.  [resolve] returns [undefined], so after
    [.then(resolve)] the chain carries [undefined]; a rejection skips
    [.then] and is consumed by [.catch(reject)].  The promise that
    [.finally] returns is dropped, so an exception that leaves the callback
    is a rejection nobody handles: it is recorded, and what the host does
    next is not modelled (some hosts end the process there).  That every
    queued task gets dispatched is stated for runs without such a
    rejection. *)
Definition run_job (now : Z) (j : job) (w : world) : world :=
  match j with
  | JThen r (Resolved v) =>
      enqueue (JCatch r (Resolved VUndefined)) (emit (OResolve (r_promise r) v) w)
  | JThen r (Rejected e) =>
      enqueue (JCatch r (Rejected e)) w
  | JCatch r (Resolved _) =>
      enqueue (JFinally r) w
  | JCatch r (Rejected e) =>
      enqueue (JFinally r) (emit (OReject (r_promise r) e) w)
  | JFinally r =>
      match finally_callback now r w with
      | (w, Some e) => emit (OUnhandled e) w
      | (w, None) => w
      end
  end.

(** The environment settles promise [a]: the tasks chained on it get their
    first reaction queued, in the order they were chained. *)
Definition settle (a : nat) (o : outcome) (w : world) : world :=
  let woken := filter (fun r => r_await r = a) (w_waiting w) in
  let others := filter (fun r => r_await r <> a) (w_waiting w) in
  set_microtasks (w_microtasks w ++ ((fun r => JThen r o) <$> woken))
    (set_waiting others (set_settled (<[a := o]> (w_settled w)) w)).

(** What can happen: a caller invokes [fc.call(caller, ...args)]; a timer
    set by [setTimeout] fires and runs [_executeTask()], the clock reading
    [now_check] in [_checkFlow], [now_execute] when [_lastExecuteTime] is set
    and [now_begin] when the task starts; the promise [a] that a callable
    returned settles; the job at the head of the microtask queue runs, the
    clock reading [now] if the job is the callback given to [.finally]. *)
Inductive event :=
  | ECall (caller : callable) (args : list value)
  | ETimer (now_check now_execute now_begin : Z)
  | ESettle (a : nat) (o : outcome)
  | EMicrotask (now : Z).

(** A timer callback is a macrotask: it fires only when the microtask queue
    has drained.  An event that cannot happen in the state gives [None]. *)
Definition step (ev : event) (w : world) : option world :=
  match ev with
  | ECall c args => Some (snd (call c args w))
  | ETimer n1 n2 n3 =>
      match w_timers w, w_microtasks w with
      | S k, [] => Some (_executeTask n1 n2 n3 (set_timers k w))
      | _, _ => None
      end
  | ESettle a o =>
      match w_settled w !! a with
      | None => Some (settle a o w)
      | Some _ => None
      end
  | EMicrotask now =>
      match w_microtasks w with
      | j :: rest => Some (run_job now j (set_microtasks rest w))
      | [] => None
      end
  end.

Fixpoint run (evs : list event) (w : world) : option world :=
  match evs with
  | [] => Some w
  | ev :: rest =>
      match step ev w with
      | Some w' => run rest w'
      | None => None
      end
  end.

(** ** Reading the trace *)

Definition tr_submitted (tr : list obs) : list nat :=
  omap (fun o => match o with OSubmit p => Some p | _ => None end) tr.

Definition tr_dispatched (tr : list obs) : list nat :=
  omap (fun o => match o with ODispatch p _ => Some p | _ => None end) tr.

Definition tr_dispatch_times (tr : list obs) : list Z :=
  omap (fun o => match o with ODispatch _ t => Some t | _ => None end) tr.

Definition tr_returned (tr : list obs) : list (nat * nat) :=
  omap (fun o => match o with OReturned p a => Some (p, a) | _ => None end) tr.

Definition tr_finished (tr : list obs) : list nat :=
  omap (fun o => match o with OFinally p => Some p | _ => None end) tr.

Definition settlement_of (p : nat) (o : obs) : option outcome :=
  match o with
  | OResolve q v => if decide (q = p) then Some (Resolved v) else None
  | OReject q r => if decide (q = p) then Some (Rejected r) else None
  | _ => None
  end.

Definition tr_settlements (p : nat) (tr : list obs) : list outcome :=
  omap (settlement_of p) tr.

Definition tr_errors (tr : list obs) : list exn :=
  omap (fun o => match o with OLog Error (MsgError e) => Some e | _ => None end) tr.

(** Promises returned by [call], in submission order. *)
Definition submitted (w : world) : list nat := tr_submitted (w_trace w).
(** Promises whose task was dispatched, in dispatch order. *)
Definition dispatched (w : world) : list nat := tr_dispatched (w_trace w).
(** The times of the dispatches. *)
Definition dispatch_times (w : world) : list Z := tr_dispatch_times (w_trace w).
(** Dispatched tasks whose callable returned a promise, with that promise. *)
Definition returned (w : world) : list (nat * nat) := tr_returned (w_trace w).
(** Tasks whose settlement callback has run. *)
Definition finished (w : world) : list nat := tr_finished (w_trace w).
(** How promise [p] was settled, one entry per call of its [resolve] or
    [reject]. *)
Definition settlements (p : nat) (w : world) : list outcome :=
  tr_settlements p (w_trace w).
(** Exceptions the driving loop logged at error level. *)
Definition errors (w : world) : list exn := tr_errors (w_trace w).

(** Promises of the tasks waiting in the queue. *)
Definition pending (w : world) : list nat := t_promise <$> _taskQueue (w_fc w).

(** Promises of the tasks dispatched and not yet settled. *)
Definition job_promise (j : job) : nat := r_promise (job_running j).

Definition inflight (w : world) : list nat :=
  (r_promise <$> w_waiting w) ++ (job_promise <$> w_microtasks w).

(** ** Well-formed states

    What every state reached from a new queue satisfies, stated on the parts
    of the world it depends on: the next promise number, the queue, the
    reactions waiting on an unsettled promise, the microtask queue, the
    settled promises, [_count] and the trace. *)

Section WellFormed.
Variables (next : nat) (queue : list task) (waiting : list running)
          (microtasks : list job) (settled : gmap nat outcome)
          (count : Z) (tr : list obs).

Definition waiting_ok (r : running) : Prop :=
  (r_promise r, r_await r) ∈ tr_returned tr /\
  settled !! r_await r = None /\
  tr_settlements (r_promise r) tr = [].

Definition job_ok (j : job) : Prop :=
  (job_promise j, r_await (job_running j)) ∈ tr_returned tr /\
  match j with
  | JThen r o =>
      settled !! r_await r = Some o /\ tr_settlements (r_promise r) tr = []
  | JCatch r (Rejected e) =>
      settled !! r_await r = Some (Rejected e) /\
      tr_settlements (r_promise r) tr = []
  | JCatch r (Resolved _) =>
      exists v, settled !! r_await r = Some (Resolved v) /\
                tr_settlements (r_promise r) tr = [Resolved v]
  | JFinally r =>
      exists o, settled !! r_await r = Some o /\
                tr_settlements (r_promise r) tr = [o]
  end.

Record wf_parts : Prop := {
  wf_submitted : tr_submitted tr = seq 0 next;
  wf_fifo : tr_submitted tr = tr_dispatched tr ++ (t_promise <$> queue);
  wf_returned :
    (tr_returned tr).*1 ≡ₚ
    tr_finished tr ++ ((r_promise <$> waiting) ++ (job_promise <$> microtasks));
  wf_returned_dispatched :
    forall p, p ∈ (tr_returned tr).*1 -> p ∈ tr_dispatched tr;
  wf_returned_nodup : NoDup (tr_returned tr).*1;
  wf_count : count = Z.of_nat (length waiting + length microtasks);
  wf_unreturned :
    forall p, p ∉ (tr_returned tr).*1 -> tr_settlements p tr = [];
  wf_waiting : Forall waiting_ok waiting;
  wf_microtasks : Forall job_ok microtasks;
  wf_finished :
    forall p a, (p, a) ∈ tr_returned tr -> p ∈ tr_finished tr ->
      exists o, settled !! a = Some o /\ tr_settlements p tr = [o]
}.
End WellFormed.

Definition wf (w : world) : Prop :=
  wf_parts (w_next w) (_taskQueue (w_fc w)) (w_waiting w) (w_microtasks w)
           (w_settled w) (_count (w_fc w)) (w_trace w).

(** ** What one run of [_executeTask] amounts to

    The four ways through the method, named so that the proofs can follow
    them: nothing queued; the gate closed; the head task dispatched and its
    callable returning a promise; the head task dispatched and the
    invocation throwing. *)

(** The rescheduling test at the end of [_executeTask]. *)
Definition reschedule (w : world) : world :=
  if (0 <? length (_taskQueue (w_fc w)))%nat then setTimeout w else w.

(** [this._lastExecuteTime = Date.now(); let task = this._taskQueue.shift()] *)
Definition take_head (now_execute : Z) (t : task) (rest : list task) (w : world) : world :=
  emit (ODispatch (t_promise t) now_execute)
    (set_fc (set_taskQueue rest (set_lastExecuteTime now_execute (w_fc w))) w).

(** The chain on the returned promise [a], then [this._count++]. *)
Definition attach (t : task) (now_begin : Z) (a : nat) (w : world) : world :=
  let w := register {| r_task := t; r_begin := now_begin; r_await := a |}
             (emit (OReturned (t_promise t) a) w) in
  set_fc (set_count (_count (w_fc w) + 1) (w_fc w)) w.

Definition log_execute (w : world) : world :=
  emit (OLog Debug (MsgExecute (_count (w_fc w)) (length (_taskQueue (w_fc w)))
                      (averageTime (w_fc w)))) w.

(** The exception the invocation of a callable raises inside [task()]. *)
Definition thrown_by (c : callable) : option exn :=
  match c_result c with
  | SThrow e => Some e
  | SReturnOther _ => Some (TypeError "caller(...).then is not a function")
  | SReturnPromise _ => None
  end.

Inductive try_result (n1 n2 n3 : Z) (w : world) : world * option exn -> Prop :=
  | try_idle :
      _taskQueue (w_fc w) = [] ->
      try_result n1 n2 n3 w (w, None)
  | try_closed :
      _taskQueue (w_fc w) <> [] ->
      fst (_checkFlow n1 (w_fc w)) = false ->
      try_result n1 n2 n3 w (w, None)
  | try_promise t rest a :
      _taskQueue (w_fc w) = t :: rest ->
      fst (_checkFlow n1 (w_fc w)) = true ->
      c_result (t_caller t) = SReturnPromise a ->
      try_result n1 n2 n3 w
        (log_execute (attach t n3 a
           (reenter (c_reentry (t_caller t)) (take_head n2 t rest w))), None)
  | try_thrown t rest e :
      _taskQueue (w_fc w) = t :: rest ->
      fst (_checkFlow n1 (w_fc w)) = true ->
      thrown_by (t_caller t) = Some e ->
      try_result n1 n2 n3 w
        (reenter (c_reentry (t_caller t)) (take_head n2 t rest w), Some e).

Inductive tick_result (n1 n2 n3 : Z) (w : world) : world -> Prop :=
  | tick_idle :
      _taskQueue (w_fc w) = [] ->
      tick_result n1 n2 n3 w w
  | tick_closed :
      _taskQueue (w_fc w) <> [] ->
      fst (_checkFlow n1 (w_fc w)) = false ->
      tick_result n1 n2 n3 w (setTimeout w)
  | tick_promise t rest a :
      _taskQueue (w_fc w) = t :: rest ->
      fst (_checkFlow n1 (w_fc w)) = true ->
      c_result (t_caller t) = SReturnPromise a ->
      tick_result n1 n2 n3 w
        (reschedule (log_execute (attach t n3 a
           (reenter (c_reentry (t_caller t)) (take_head n2 t rest w)))))
  | tick_thrown t rest e :
      _taskQueue (w_fc w) = t :: rest ->
      fst (_checkFlow n1 (w_fc w)) = true ->
      thrown_by (t_caller t) = Some e ->
      tick_result n1 n2 n3 w
        (reschedule (emit (OLog Error (MsgError e))
           (reenter (c_reentry (t_caller t)) (take_head n2 t rest w)))).

(** ** Assumptions on the environment that some properties need *)

(** [Date.now()] does not go backwards between the gate check and the
    dispatch that follows it in the same run of [_executeTask]. *)
Definition clock_steady (evs : list event) : Prop :=
  Forall (fun ev => match ev with ETimer n1 n2 _ => n1 <= n2 | _ => True end) evs.

(** No callable submits to the queue while it is being invoked. *)
Definition no_reentry (evs : list event) : Prop :=
  Forall (fun ev => match ev with ECall c _ => c_reentry c = [] | _ => True end) evs.

(** ** Draining the microtask queue *)

(** The link of the chain that a job queues when it runs. *)
Definition successor (j : job) : list job :=
  match j with
  | JThen r (Resolved _) => [JCatch r (Resolved VUndefined)]
  | JThen r (Rejected e) => [JCatch r (Rejected e)]
  | JCatch r _ => [JFinally r]
  | JFinally _ => []
  end.

(** How many jobs a job stands for, itself included. *)
Definition job_weight (j : job) : nat :=
  match j with
  | JThen _ _ => 3
  | JCatch _ _ => 2
  | JFinally _ => 1
  end.

Definition chain_length (l : list job) : nat := sum_list_with job_weight l.

(** The events by which the event loop empties the microtask queue (all
    jobs reading the same clock value [now]). *)
Definition drain (now : Z) (w : world) : list event :=
  replicate (chain_length (w_microtasks w)) (EMicrotask now).

(** Without re-entrant submissions exactly one run is scheduled while tasks
    are queued and none otherwise; the queue holds no re-entrant callable. *)
Definition single_loop (w : world) : Prop :=
  Forall (fun t => c_reentry (t_caller t) = []) (_taskQueue (w_fc w)) /\
  w_timers w = match _taskQueue (w_fc w) with [] => 0%nat | _ => 1%nat end.

(** ** Spacing of the dispatches *)

(** Any two consecutive entries of [l] are at least [gap] apart. *)
Definition spaced (gap : Q) (l : list Z) : Prop :=
  forall i t t', l !! i = Some t -> l !! S i = Some t' ->
                 (gap <= inject_Z (t' - t))%Q.

(** What holds of a queue limited to [M > 0] per minute. *)
Definition paced (M : Q) (w : world) : Prop :=
  _maxFlow (w_fc w) = M /\
  _minInterval (w_fc w) = Finite (60000 / M) /\
  spaced (60000 / M) (dispatch_times w) /\
  (forall t, last (dispatch_times w) = Some t -> _lastExecuteTime (w_fc w) = t).

(** ** Tasks whose invocation threw *)

(** The task of promise [p] was dispatched and its callable returned no
    promise: nothing is chained that could settle [p]. *)
Definition abandoned (p : nat) (w : world) : Prop :=
  wf w /\ p ∈ dispatched w /\ p ∉ (returned w).*1.

(** ** What the queue does to the caller's objects *)

(** [o'] is [o], or [o] with its own property [token] deleted. *)
Definition token_stripped (o o' : object) : Prop :=
  o_hasOwnProperty o' = o_hasOwnProperty o /\
  (o_props o' = o_props o \/ o_props o' = delete "token" (o_props o)).

(** The same objects at the same addresses, each kept or stripped. *)
Definition heap_token_stripped (h h' : gmap nat object) : Prop :=
  forall l, match h !! l, h' !! l with
            | Some o, Some o' => token_stripped o o'
            | None, None => True
            | _, _ => False
            end.

(** ** Progress *)

(** What the driving loop needs to go on: a run is scheduled while a task
    is queued, and the interval is the one computed from the rate. *)
Definition live (w : world) : Prop :=
  (_taskQueue (w_fc w) <> [] -> (0 < w_timers w)%nat) /\
  _minInterval (w_fc w) = js_div (60 * 1000) (_maxFlow (w_fc w)).

(** ** The pass over the arguments in the settlement callback *)

(** [o] once [delete o.token] has run on it. *)
Definition without_token (o : object) : object :=
  mkObject (delete "token" (o_props o)) (o_hasOwnProperty o).

(** The test [arg.hasOwnProperty("token")] and the [delete] that follows it
    raise no exception on [o]. *)
Definition strippable (o : object) : Prop :=
  o_hasOwnProperty o = true /\
  forall p, o_props o !! "token" = Some p -> p_configurable p = true.

(** Every object among the arguments is [strippable]. *)
Definition args_strippable (h : gmap nat object) (args : list value) : Prop :=
  forall l o, VObj l ∈ args -> h !! l = Some o -> strippable o.

(** ** Sequences of submissions, and the books of the queue *)

(** The tasks that [call] builds for the submissions [l], the first of them
    getting promise number [p]. *)
Fixpoint tasks_of (l : list submission) (p : nat) : list task :=
  match l with
  | [] => []
  | Submission c a :: rest => _createTask c a p :: tasks_of rest (S p)
  end.

(** The calls [fc.call(c, ...args)], one after the other. *)
Definition submit_all (l : list submission) : list event :=
  (fun s => match s with Submission c a => ECall c a end) <$> l.

(** The rejections nobody handles, in the order they show in the trace. *)
Definition tr_unhandled (tr : list obs) : list exn :=
  omap (fun o => match o with OUnhandled e => Some e | _ => None end) tr.

(** Exceptions thrown by a settlement callback, which nothing handles. *)
Definition unhandled (w : world) : list exn := tr_unhandled (w_trace w).

(** The books of the queue: a dispatch either chains the settlement on the
    returned promise or is logged as an error; a settlement callback either
    counts the task as completed or throws. *)
Definition ledger (w : world) : Prop :=
  length (dispatched w) = (length (returned w) + length (errors w))%nat /\
  Z.of_nat (length (finished w)) =
  _total (w_fc w) + Z.of_nat (length (unhandled w)) /\
  0 <= _total (w_fc w).

(** ** Tasks that are running *)

(** The dispatched tasks whose callable returned a promise that has not
    settled yet: the tasks that are running. *)
Definition unsettled (w : world) : list (nat * nat) :=
  filter (fun pa => w_settled w !! pa.2 = None) (returned w).

(** ** A clock that never goes backwards *)

(** The last value the clock showed once event [ev] is over, [lo] being the
    last value it showed before. *)
Definition clock_after_event (lo : Z) (ev : event) : Z :=
  match ev with
  | ETimer _ _ now_begin => now_begin
  | EMicrotask now => now
  | _ => lo
  end.

(** The same, once the events [evs] are over. *)
Definition clock_after (lo : Z) (evs : list event) : Z :=
  foldl clock_after_event lo evs.

(** The values of [Date.now()] that the events carry never decrease, in
    the order in which the code would read them, starting from [lo]. *)
Fixpoint clock_monotone_from (lo : Z) (evs : list event) : Prop :=
  match evs with
  | [] => True
  | ev :: rest =>
      match ev with
      | ETimer n1 n2 n3 => lo <= n1 /\ n1 <= n2 /\ n2 <= n3
      | EMicrotask now => lo <= now
      | _ => True
      end /\
      clock_monotone_from (clock_after_event lo ev) rest
  end.

(** The clock starts at or after the epoch. *)
Definition clock_monotone (evs : list event) : Prop := clock_monotone_from 0 evs.

(** Every time the queue has stored lies at or before [lo]. *)
Definition timed (lo : Z) (w : world) : Prop :=
  _lastExecuteTime (w_fc w) <= lo /\
  Forall (fun r => r_begin r <= lo) (w_waiting w) /\
  Forall (fun j => r_begin (job_running j) <= lo) (w_microtasks w) /\
  0 <= _totalTime (w_fc w) /\ 0 <= _total (w_fc w).

(** ** What a task holds *)




(** ** Runs in which no settlement callback throws *)

(** Every object of the caller is [strippable]. *)
Definition heap_strippable (h : gmap nat object) : Prop :=
  forall l o, h !! l = Some o -> strippable o.

(** No settlement callback can throw, and none has thrown: no rejection
    has gone unhandled. *)
Definition calm (w : world) : Prop :=
  heap_strippable (w_heap w) /\ unhandled w = [].

(** ** Sample callers, arguments and runs, used to exercise the theorems *)

(** [() => somePromise], the promise being number [a]. *)
Definition returns_promise (a : nat) : callable := Callable [] (SReturnPromise a).

(** [() => { throw e }] *)
Definition throws (e : exn) : callable := Callable [] (SThrow e).

(** [() => { fc.call(c); return somePromise }] *)
Definition resubmits (c : callable) (a : nat) : callable :=
  Callable [Submission c []] (SReturnPromise a).

(** [{ token: "secret", id: 1 }] at address 0. *)
Definition heap_with_token : gmap nat object :=
  {[ 0%nat := mkObject {[ "token" := mkProp (VStr "secret") true;
                          "id" := mkProp (VNum 1) true ]} true ]}.

(** [Object.assign(Object.create(null), { id: 1 })] at address 0. *)
Definition heap_null_prototype : gmap nat object :=
  {[ 0%nat := mkObject {[ "id" := mkProp (VNum 1) true ]} false ]}.

(** [Object.freeze({ token: "secret" })] at address 0. *)
Definition heap_frozen_token : gmap nat object :=
  {[ 0%nat := mkObject {[ "token" := mkProp (VStr "secret") false ]} true ]}.

(** One task submitted with the object at address 0, dispatched at time
    1000, its promise resolved with 7, and the three reactions run at 1004. *)
Definition one_task_settles : list event :=
  [ECall (returns_promise 0) [VObj 0%nat]; ETimer 1000 1000 1000;
   ESettle 0 (Resolved (VNum 7));
   EMicrotask 1004; EMicrotask 1004; EMicrotask 1004].

(** Three tasks at 60 per minute; the gate is closed at 1500 and 2999. *)
Definition three_tasks_spaced : list event :=
  [ECall (returns_promise 0) []; ECall (returns_promise 1) [];
   ECall (returns_promise 2) [];
   ETimer 1000 1000 1000; ETimer 1500 1500 1500; ETimer 2000 2001 2001;
   ETimer 2999 2999 2999; ETimer 3001 3002 3003].

(** A task that throws, with a second task queued behind it. *)
Definition thrower_then_task : list event :=
  [ECall (throws (Thrown (VStr "boom"))) []; ECall (returns_promise 1) []].

(** A task that submits another task while it is the last one queued. *)
Definition resubmitting_task : list event :=
  [ECall (resubmits (returns_promise 1) 0) []; ETimer 5 5 5; ETimer 6 6 6].

(** [() => v], a function that returns something that is no promise. *)
Definition returns_value (v : value) : callable := Callable [] (SReturnOther v).

(** Two tasks dispatched at 1000 and 2000; the promise of the second one
    resolves and its three reactions run, the first one is still running. *)
Definition second_task_settles_first : list event :=
  [ECall (returns_promise 0) []; ECall (returns_promise 1) [];
   ETimer 1000 1000 1000; ETimer 2000 2000 2000;
   ESettle 1 (Resolved (VNum 7));
   EMicrotask 2004; EMicrotask 2004; EMicrotask 2004].

(** Three tasks at 2 per minute; the gate is closed at 129999 and 159999. *)
Definition three_tasks_two_per_minute : list event :=
  [ECall (returns_promise 0) []; ECall (returns_promise 1) [];
   ECall (returns_promise 2) [];
   ETimer 100000 100000 100000; ETimer 129999 129999 129999;
   ETimer 130000 130000 130001; ETimer 159999 159999 159999;
   ETimer 160000 160005 160005].

(** [n] times: a task is submitted whose callable returns promise 0, and
    the timer callback runs. *)
Definition submit_and_dispatch (n : nat) : list event :=
  mjoin (replicate n [ECall (returns_promise 0) []; ETimer 0 0 0]).

(** Two tasks submitted, the first one with the object at address 0. *)
Definition two_tasks_queued : list event :=
  [ECall (returns_promise 0) [VObj 0%nat]; ECall (returns_promise 1) []].

(** * Properties *)

(** ** The trace projections distribute over concatenation *)

Lemma tr_submitted_app t1 t2 : tr_submitted (t1 ++ t2) = tr_submitted t1 ++ tr_submitted t2.
Proof. apply omap_app. Qed.
Lemma tr_dispatched_app t1 t2 : tr_dispatched (t1 ++ t2) = tr_dispatched t1 ++ tr_dispatched t2.
Proof. apply omap_app. Qed.
Lemma tr_dispatch_times_app t1 t2 :
  tr_dispatch_times (t1 ++ t2) = tr_dispatch_times t1 ++ tr_dispatch_times t2.
Proof. apply omap_app. Qed.
Lemma tr_returned_app t1 t2 : tr_returned (t1 ++ t2) = tr_returned t1 ++ tr_returned t2.
Proof. apply omap_app. Qed.
Lemma tr_finished_app t1 t2 : tr_finished (t1 ++ t2) = tr_finished t1 ++ tr_finished t2.
Proof. apply omap_app. Qed.
Lemma tr_settlements_app p t1 t2 :
  tr_settlements p (t1 ++ t2) = tr_settlements p t1 ++ tr_settlements p t2.
Proof. apply omap_app. Qed.
Lemma tr_errors_app t1 t2 : tr_errors (t1 ++ t2) = tr_errors t1 ++ tr_errors t2.
Proof. apply omap_app. Qed.

Create Rewrite HintDb trace.
#[local] Hint Rewrite tr_submitted_app tr_dispatched_app tr_dispatch_times_app
  tr_returned_app tr_finished_app tr_settlements_app tr_errors_app
  @fmap_app @app_nil_r @length_app : trace.

Ltac trace_simpl := cbn in *; autorewrite with trace in *; cbn in *.

(** ** Well-formedness is kept by every operation *)

Lemma waiting_ok_ext settled tr more r :
  waiting_ok settled tr r ->
  tr_settlements (r_promise r) more = [] ->
  waiting_ok settled (tr ++ more) r.
Proof.
  intros (Hr & Hs & Hn) Hq. repeat split; trace_simpl.
  - apply elem_of_app; by left.
  - done.
  - by rewrite Hn, Hq.
Qed.

Lemma job_ok_ext settled tr more j :
  job_ok settled tr j ->
  tr_settlements (job_promise j) more = [] ->
  job_ok settled (tr ++ more) j.
Proof.
  intros [Hr Hj] Hq. split.
  - rewrite tr_returned_app. apply elem_of_app; by left.
  - unfold job_promise in Hq.
    destruct j as [r o|r [u|e]|r]; cbn in *; rewrite tr_settlements_app, Hq, app_nil_r;
      exact Hj.
Qed.

Lemma wf_parts_init : wf_parts 0 [] [] [] ∅ 0 [].
Proof.
  split; cbn; try done.
  - constructor.
  - intros p a H. by apply elem_of_nil in H.
Qed.

(** Appending observations that are neither submissions, dispatches,
    returns, settlements nor finished callbacks changes nothing. *)
Lemma wf_parts_quiet next queue waiting micro settled count tr more :
  tr_submitted more = [] -> tr_dispatched more = [] -> tr_returned more = [] ->
  tr_finished more = [] -> (forall p, tr_settlements p more = []) ->
  wf_parts next queue waiting micro settled count tr ->
  wf_parts next queue waiting micro settled count (tr ++ more).
Proof.
  intros H1 H2 H3 H4 H5 [].
  split; autorewrite with trace; rewrite ?H1, ?H2, ?H3, ?H4, ?H5, ?app_nil_r; try done.
  - intros p Hp. rewrite tr_settlements_app, H5, app_nil_r. auto.
  - eapply Forall_impl; [eassumption|]. intros r Hr. by apply waiting_ok_ext.
  - eapply Forall_impl; [eassumption|]. intros j Hj. by apply job_ok_ext.
  - intros p a Hp Hf. rewrite tr_settlements_app, H5, app_nil_r. auto.
Qed.

Lemma wf_parts_log next queue waiting micro settled count tr l m :
  wf_parts next queue waiting micro settled count tr ->
  wf_parts next queue waiting micro settled count (tr ++ [OLog l m]).
Proof. by apply wf_parts_quiet. Qed.

Lemma wf_parts_unhandled next queue waiting micro settled count tr e :
  wf_parts next queue waiting micro settled count tr ->
  wf_parts next queue waiting micro settled count (tr ++ [OUnhandled e]).
Proof. by apply wf_parts_quiet. Qed.

Lemma wf_parts_submit next queue waiting micro settled count tr c a :
  wf_parts next queue waiting micro settled count tr ->
  wf_parts (S next) (queue ++ [_createTask c a next]) waiting micro settled count
           (tr ++ [OSubmit next]).
Proof.
  intros [].
  split; autorewrite with trace; try done.
  - rewrite seq_S, wf_submitted0. done.
  - rewrite wf_fifo0 at 1. by rewrite app_assoc.
  - intros p Hp. rewrite tr_settlements_app, app_nil_r. auto.
  - eapply Forall_impl; [eassumption|]. intros r Hr. by apply waiting_ok_ext.
  - eapply Forall_impl; [eassumption|]. intros j Hj. by apply job_ok_ext.
  - intros p b Hp Hf. rewrite tr_settlements_app, app_nil_r. auto.
Qed.

(** Promise numbers in the queue are those not yet dispatched. *)
Lemma wf_parts_pending_fresh next queue waiting micro settled count tr p :
  wf_parts next queue waiting micro settled count tr ->
  p ∈ t_promise <$> queue -> p ∉ tr_dispatched tr.
Proof.
  intros [] Hp Hd.
  assert (Hn : NoDup (tr_dispatched tr ++ (t_promise <$> queue))).
  { rewrite <- wf_fifo0, wf_submitted0. apply NoDup_seq. }
  apply NoDup_app in Hn as (_ & Hn & _). by apply (Hn p).
Qed.

Lemma wf_parts_dispatch next t rest waiting micro settled count tr n :
  wf_parts next (t :: rest) waiting micro settled count tr ->
  wf_parts next rest waiting micro settled count (tr ++ [ODispatch (t_promise t) n]).
Proof.
  intros H. pose proof H as [].
  split; autorewrite with trace; try done.
  - rewrite wf_fifo0. cbn. by rewrite <- app_assoc.
  - intros p Hp. apply elem_of_app. left. auto.
  - intros p Hp. rewrite tr_settlements_app, app_nil_r. auto.
  - eapply Forall_impl; [eassumption|]. intros r Hr. by apply waiting_ok_ext.
  - eapply Forall_impl; [eassumption|]. intros j Hj. by apply job_ok_ext.
  - intros p b Hp Hf. rewrite tr_settlements_app, app_nil_r. auto.
Qed.

(** Consequences used below: nothing is in flight twice, and nothing in
    flight has finished. *)
Lemma wf_parts_nodup next queue waiting micro settled count tr :
  wf_parts next queue waiting micro settled count tr ->
  NoDup (tr_finished tr ++ ((r_promise <$> waiting) ++ (job_promise <$> micro))).
Proof. intros []. by rewrite <- wf_returned0. Qed.

Lemma NoDup_fst_functional {A B} (l : list (A * B)) x y1 y2 :
  NoDup l.*1 -> (x, y1) ∈ l -> (x, y2) ∈ l -> y1 = y2.
Proof.
  induction l as [|[a b] l IH]; intros Hn H1 H2.
  - by apply elem_of_nil in H1.
  - cbn in Hn. apply NoDup_cons in Hn as [Hnin Hn].
    apply elem_of_cons in H1 as [H1|H1]; apply elem_of_cons in H2 as [H2|H2].
    + congruence.
    + injection H1 as -> ->. exfalso. apply Hnin.
      apply list_elem_of_fmap. by exists (a, y2).
    + injection H2 as -> ->. exfalso. apply Hnin.
      apply list_elem_of_fmap. by exists (a, y1).
    + auto.
Qed.

Lemma returned_functional tr p a b :
  NoDup (tr_returned tr).*1 ->
  (p, a) ∈ tr_returned tr -> (p, b) ∈ tr_returned tr -> a = b.
Proof. apply NoDup_fst_functional. Qed.

(** The chain is attached to the promise the callable returned: the task
    starts to wait, or, the promise being settled already, its first
    reaction is queued. *)
Lemma wf_parts_register next queue waiting micro settled count tr r :
  wf_parts next queue waiting micro settled count tr ->
  r_promise r ∈ tr_dispatched tr ->
  r_promise r ∉ (tr_returned tr).*1 ->
  match settled !! r_await r with
  | None =>
      wf_parts next queue (waiting ++ [r]) micro settled (count + 1)
               (tr ++ [OReturned (r_promise r) (r_await r)])
  | Some o =>
      wf_parts next queue waiting (micro ++ [JThen r o]) settled (count + 1)
               (tr ++ [OReturned (r_promise r) (r_await r)])
  end.
Proof.
  intros H Hd Hnew. pose proof H as [].
  assert (Hquiet : forall p, tr_settlements p [OReturned (r_promise r) (r_await r)] = [])
    by done.
  assert (Hnone : tr_settlements (r_promise r) tr = []) by auto.
  assert (Hin : (r_promise r, r_await r) ∈
                tr_returned (tr ++ [OReturned (r_promise r) (r_await r)])).
  { rewrite tr_returned_app. apply elem_of_app. right. cbn. apply list_elem_of_singleton. done. }
  assert (Hold : forall p a, (p, a) ∈ tr_returned tr ++ [(r_promise r, r_await r)] ->
                   p ∈ tr_finished tr -> (p, a) ∈ tr_returned tr).
  { intros p a [Hp|Hp]%elem_of_app Hf; [done|].
    apply list_elem_of_singleton in Hp. injection Hp as -> ->.
    exfalso. apply Hnew. rewrite wf_returned0. apply elem_of_app. by left. }
  destruct (settled !! r_await r) as [o|] eqn:Hs.
  - split; autorewrite with trace; cbn [fmap list_fmap tr_returned tr_finished
        tr_submitted tr_dispatched omap list_omap fst]; rewrite ?app_nil_r; try done.
    + rewrite wf_returned0. cbn. solve_Permutation.
    + intros p [Hp|Hp]%elem_of_app; [auto|].
      apply list_elem_of_singleton in Hp. by subst.
    + apply NoDup_app. split; [done|]. split; [|apply NoDup_singleton].
      intros p Hp Hp'%list_elem_of_singleton. by subst.
    + cbn. lia.
    + intros p Hp. rewrite tr_settlements_app, Hquiet, app_nil_r.
      apply wf_unreturned0. intros Hp'. apply Hp, elem_of_app. by left.
    + eapply Forall_impl; [eassumption|]. intros r0 Hr. by apply waiting_ok_ext.
    + apply Forall_app. split.
      * eapply Forall_impl; [eassumption|]. intros j Hj. by apply job_ok_ext.
      * apply Forall_singleton. split; [exact Hin|]. cbn.
        by rewrite tr_settlements_app, Hnone.
    + intros p a Hp Hf. rewrite tr_settlements_app, Hquiet, app_nil_r. eauto.
  - split; autorewrite with trace; cbn [fmap list_fmap tr_returned tr_finished
        tr_submitted tr_dispatched omap list_omap fst]; rewrite ?app_nil_r; try done.
    + rewrite wf_returned0. cbn. solve_Permutation.
    + intros p [Hp|Hp]%elem_of_app; [auto|].
      apply list_elem_of_singleton in Hp. by subst.
    + apply NoDup_app. split; [done|]. split; [|apply NoDup_singleton].
      intros p Hp Hp'%list_elem_of_singleton. by subst.
    + cbn. lia.
    + intros p Hp. rewrite tr_settlements_app, Hquiet, app_nil_r.
      apply wf_unreturned0. intros Hp'. apply Hp, elem_of_app. by left.
    + apply Forall_app. split.
      * eapply Forall_impl; [eassumption|]. intros r0 Hr. by apply waiting_ok_ext.
      * apply Forall_singleton. split; [exact Hin|]. split; [done|].
        by rewrite tr_settlements_app, Hnone.
    + eapply Forall_impl; [eassumption|]. intros j Hj. by apply job_ok_ext.
    + intros p a Hp Hf. rewrite tr_settlements_app, Hquiet, app_nil_r. eauto.
Qed.

Lemma job_ok_settled_mono (settled settled' : gmap nat outcome) tr j :
  (forall a o, settled !! a = Some o -> settled' !! a = Some o) ->
  job_ok settled tr j -> job_ok settled' tr j.
Proof.
  intros Hm [Hr Hj]. split; [done|].
  destruct j as [r o|r [u|e]|r]; cbn in *.
  - destruct Hj; auto.
  - destruct Hj as (v & ? & ?); eauto.
  - destruct Hj; auto.
  - destruct Hj as (o & ? & ?); eauto.
Qed.

Lemma insert_fresh_mono (settled : gmap nat outcome) a o b o' :
  settled !! a = None -> settled !! b = Some o' -> <[a := o]> settled !! b = Some o'.
Proof.
  intros Ha Hb. rewrite lookup_insert_ne; [done|]. intros ->. congruence.
Qed.

(** The environment settles a promise that was pending. *)
Lemma wf_parts_settle next queue waiting micro settled count tr a o :
  wf_parts next queue waiting micro settled count tr ->
  settled !! a = None ->
  wf_parts next queue
           (filter (fun r => r_await r <> a) waiting)
           (micro ++ ((fun r => JThen r o) <$> filter (fun r => r_await r = a) waiting))
           (<[a := o]> settled) count tr.
Proof.
  intros H Ha. pose proof H as [].
  pose proof (filter_app_complement (fun r => r_await r = a) waiting) as Hsplit.
  assert (Hjobs : job_promise <$> ((fun r => JThen r o) <$>
                    filter (fun r => r_await r = a) waiting)
                  = r_promise <$> filter (fun r => r_await r = a) waiting).
  { rewrite <- list_fmap_compose. by apply list_fmap_ext. }
  split; try done.
  - rewrite wf_returned0, fmap_app, Hjobs.
    rewrite <- Hsplit at 1. rewrite fmap_app. solve_Permutation.
  - rewrite wf_count0. apply Permutation_length in Hsplit.
    rewrite length_app in Hsplit. rewrite length_app, length_fmap. lia.
  - apply Forall_forall. intros r [Hne Hr]%list_elem_of_filter.
    rewrite Forall_forall in wf_waiting0.
    destruct (wf_waiting0 r Hr) as (? & ? & ?).
    repeat split; try done. by rewrite lookup_insert_ne.
  - apply Forall_app. split.
    + eapply Forall_impl; [eassumption|]. intros j Hj.
      eapply job_ok_settled_mono; [|exact Hj]. intros b o'. by apply insert_fresh_mono.
    + apply Forall_fmap, Forall_forall. intros r [Heq Hr]%list_elem_of_filter.
      rewrite Forall_forall in wf_waiting0.
      destruct (wf_waiting0 r Hr) as (? & ? & ?).
      split; [done|]. cbn. split; [|done]. rewrite Heq. apply lookup_insert_eq.
  - intros p b Hp Hf. destruct (wf_finished0 p b Hp Hf) as (o' & ? & ?).
    exists o'. split; [|done]. by apply insert_fresh_mono.
Qed.

(** A reaction job runs and queues the next link of its chain. *)
Lemma wf_parts_advance next queue waiting j rest settled count tr j' more :
  wf_parts next queue waiting (j :: rest) settled count tr ->
  job_promise j' = job_promise j ->
  job_ok settled (tr ++ more) j' ->
  tr_submitted more = [] -> tr_dispatched more = [] -> tr_returned more = [] ->
  tr_finished more = [] ->
  (forall q, q <> job_promise j -> tr_settlements q more = []) ->
  wf_parts next queue waiting (rest ++ [j']) settled count (tr ++ more).
Proof.
  intros H Hp Hj' H1 H2 H3 H4 H5. pose proof H as [].
  pose proof (wf_parts_nodup _ _ _ _ _ _ _ H) as Hnd.
  apply NoDup_app in Hnd as (_ & Hfin & Hnd).
  apply NoDup_app in Hnd as (_ & Hwait & Hnd). cbn in Hnd.
  apply NoDup_cons in Hnd as [Hrest _].
  apply Forall_cons in wf_microtasks0 as [[Hjr _] Hmicro].
  assert (Hjin : job_promise j ∈ (tr_returned tr).*1).
  { apply list_elem_of_fmap. by exists (job_promise j, r_await (job_running j)). }
  split; autorewrite with trace; rewrite ?H1, ?H2, ?H3, ?H4, ?app_nil_r; try done.
  - rewrite wf_returned0. cbn. rewrite Hp. solve_Permutation.
  - rewrite wf_count0. cbn. lia.
  - intros q Hq. rewrite tr_settlements_app, H5, app_nil_r; [auto|]. by intros ->.
  - apply Forall_forall. intros r Hr. rewrite Forall_forall in wf_waiting0.
    apply waiting_ok_ext; [auto|]. apply H5. intros Heq.
    apply (Hwait (r_promise r)); [by apply list_elem_of_fmap_2|].
    rewrite Heq. cbn. left.
  - apply Forall_app. split; [|by apply Forall_singleton].
    apply Forall_forall. intros j0 Hj0. rewrite Forall_forall in Hmicro.
    apply job_ok_ext; [auto|]. apply H5. intros Heq.
    apply Hrest. rewrite <- Heq. by apply list_elem_of_fmap_2.
  - intros q a Hq Hf. rewrite tr_settlements_app, H5, app_nil_r; [auto|].
    intros ->. apply (Hfin _ Hf). apply elem_of_app. right. cbn. left.
Qed.

Lemma wf_parts_then next queue waiting r o rest settled count tr :
  wf_parts next queue waiting (JThen r o :: rest) settled count tr ->
  match o with
  | Resolved v =>
      wf_parts next queue waiting (rest ++ [JCatch r (Resolved VUndefined)]) settled
               count (tr ++ [OResolve (r_promise r) v])
  | Rejected e =>
      wf_parts next queue waiting (rest ++ [JCatch r (Rejected e)]) settled count tr
  end.
Proof.
  intros H. pose proof H as [].
  apply Forall_cons in wf_microtasks0 as [[Hjr [Hs Hn]] _]. cbn in Hjr, Hs, Hn.
  destruct o as [v|e].
  - eapply wf_parts_advance; [exact H|done| |done..|].
    + split; [rewrite tr_returned_app; apply elem_of_app; by left|].
      exists v. split; [done|]. rewrite tr_settlements_app, Hn. cbn.
      by rewrite decide_True.
    + intros q Hq. cbn. rewrite decide_False; [done|]. by intros <-.
  - rewrite <- (app_nil_r tr).
    eapply wf_parts_advance; [exact H|done| |done..].
    rewrite app_nil_r. by split.
Qed.

Lemma wf_parts_catch next queue waiting r o rest settled count tr :
  wf_parts next queue waiting (JCatch r o :: rest) settled count tr ->
  match o with
  | Resolved _ =>
      wf_parts next queue waiting (rest ++ [JFinally r]) settled count tr
  | Rejected e =>
      wf_parts next queue waiting (rest ++ [JFinally r]) settled
               count (tr ++ [OReject (r_promise r) e])
  end.
Proof.
  intros H. pose proof H as [].
  apply Forall_cons in wf_microtasks0 as [[Hjr Hj] _]. cbn in Hjr, Hj.
  destruct o as [u|e].
  - destruct Hj as (v & Hs & Hn). rewrite <- (app_nil_r tr).
    eapply wf_parts_advance; [exact H|done| |done..].
    rewrite app_nil_r. split; [done|]. by exists (Resolved v).
  - destruct Hj as [Hs Hn].
    eapply wf_parts_advance; [exact H|done| |done..|].
    + split; [rewrite tr_returned_app; apply elem_of_app; by left|].
      exists (Rejected e). split; [done|]. rewrite tr_settlements_app, Hn. cbn.
      by rewrite decide_True.
    + intros q Hq. cbn. rewrite decide_False; [done|]. by intros <-.
Qed.

(** The callback given to [.finally] starts: the task has finished. *)
Lemma wf_parts_finally next queue waiting r rest settled count tr :
  wf_parts next queue waiting (JFinally r :: rest) settled count tr ->
  wf_parts next queue waiting rest settled (count - 1) (tr ++ [OFinally (r_promise r)]).
Proof.
  intros H. pose proof H as [].
  pose proof (wf_parts_nodup _ _ _ _ _ _ _ H) as Hnd.
  apply Forall_cons in wf_microtasks0 as [[Hjr (o & Hs & Hn)] Hmicro]. cbn in Hjr, Hs, Hn.
  split; autorewrite with trace; try done.
  - rewrite wf_returned0. cbn. solve_Permutation.
  - rewrite wf_count0. cbn. lia.
  - intros q Hq. rewrite tr_settlements_app, app_nil_r. auto.
  - eapply Forall_impl; [eassumption|]. intros r0 Hr. by apply waiting_ok_ext.
  - eapply Forall_impl; [eassumption|]. intros j Hj. by apply job_ok_ext.
  - intros q a Hq [Hf|Hf]%elem_of_app; rewrite tr_settlements_app, app_nil_r; [auto|].
    cbn in Hf. apply list_elem_of_singleton in Hf as ->.
    exists o. split; [|done].
    by rewrite (returned_functional tr (r_promise r) a (r_await r)).
Qed.

(** ** The run of [_executeTask], case by case *)

Lemma set_fc_same w : set_fc (w_fc w) w = w.
Proof. by destruct w. Qed.

Lemma checkFlow_cases now f :
  _checkFlow now f = (false, f) \/
  _checkFlow now f = (true, f) \/
  _checkFlow now f = (true, set_lastExecuteTime now f).
Proof.
  unfold _checkFlow.
  destruct (Qlt_bool 0 (_maxFlow f)); [destruct (js_lt _ _)|]; auto.
Qed.

Lemma try_executeTask_result n1 n2 n3 w :
  try_result n1 n2 n3 w (try_executeTask n1 n2 n3 w).
Proof.
  unfold try_executeTask.
  destruct (_taskQueue (w_fc w)) as [|t rest] eqn:Hq.
  - cbn. by apply try_idle.
  - cbn [length Nat.ltb Nat.leb].
    destruct (_checkFlow n1 (w_fc w)) as [pass f] eqn:Hgate.
    assert (Hf : pass = false /\ f = w_fc w \/
                 pass = true /\ set_lastExecuteTime n2 f = set_lastExecuteTime n2 (w_fc w)
                 /\ _taskQueue f = t :: rest).
    { destruct (checkFlow_cases n1 (w_fc w)) as [H|[H|H]];
        rewrite H in Hgate; injection Hgate as <- <-; auto. }
    destruct Hf as [[-> ->]|(-> & Hlast & Hq')]; cbn [negb].
    + rewrite set_fc_same.
      apply try_closed; [by rewrite Hq|by rewrite Hgate].
    + cbn [w_fc set_fc]. rewrite Hlast. cbn [_taskQueue set_lastExecuteTime].
      rewrite Hq. unfold run_task.
      destruct (c_result (t_caller t)) as [e|a|v] eqn:Hres.
      * eapply (try_thrown n1 n2 n3 w t rest e); [done|by rewrite Hgate|].
        unfold thrown_by. by rewrite Hres.
      * eapply (try_promise n1 n2 n3 w t rest a); [done|by rewrite Hgate|done].
      * eapply (try_thrown n1 n2 n3 w t rest); [done|by rewrite Hgate|].
        unfold thrown_by. by rewrite Hres.
Qed.

Lemma executeTask_result n1 n2 n3 w :
  tick_result n1 n2 n3 w (_executeTask n1 n2 n3 w).
Proof.
  unfold _executeTask, try_catch_executeTask.
  destruct (try_executeTask_result n1 n2 n3 w) as [Hq|Hq Hg|t rest a Hq Hg Hr|t rest e Hq Hg He].
  - rewrite Hq. cbn. by apply tick_idle.
  - destruct (_taskQueue (w_fc w)) eqn:Hq'; [done|]. cbn.
    apply tick_closed; [by rewrite Hq'|done].
  - by eapply tick_promise.
  - by eapply tick_thrown.
Qed.

(** ** What [call] and the calls made by a running callable leave alone *)

Lemma reenter_cons c a l w :
  reenter (Submission c a :: l) w = reenter l (snd (call c a w)).
Proof. reflexivity. Qed.

Ltac reenter_induction l :=
  induction l as [|[c a] l IH]; intros w;
  [ done
  | rewrite reenter_cons, IH; unfold call; cbn;
    by destruct (length (_taskQueue (w_fc w)) <=? 0)%nat ].

Lemma reenter_heap l : forall w, w_heap (reenter l w) = w_heap w.
Proof. reenter_induction l. Qed.
Lemma reenter_settled l : forall w, w_settled (reenter l w) = w_settled w.
Proof. reenter_induction l. Qed.
Lemma reenter_waiting l : forall w, w_waiting (reenter l w) = w_waiting w.
Proof. reenter_induction l. Qed.
Lemma reenter_microtasks l : forall w, w_microtasks (reenter l w) = w_microtasks w.
Proof. reenter_induction l. Qed.
Lemma reenter_count l : forall w, _count (w_fc (reenter l w)) = _count (w_fc w).
Proof. reenter_induction l. Qed.
Lemma reenter_total l : forall w, _total (w_fc (reenter l w)) = _total (w_fc w).
Proof. reenter_induction l. Qed.
Lemma reenter_totalTime l : forall w, _totalTime (w_fc (reenter l w)) = _totalTime (w_fc w).
Proof. reenter_induction l. Qed.
Lemma reenter_lastExecuteTime l :
  forall w, _lastExecuteTime (w_fc (reenter l w)) = _lastExecuteTime (w_fc w).
Proof. reenter_induction l. Qed.
Lemma reenter_maxFlow l : forall w, _maxFlow (w_fc (reenter l w)) = _maxFlow (w_fc w).
Proof. reenter_induction l. Qed.
Lemma reenter_minInterval l :
  forall w, _minInterval (w_fc (reenter l w)) = _minInterval (w_fc w).
Proof. reenter_induction l. Qed.

Lemma reenter_trace l :
  forall w, w_trace (reenter l w) = w_trace w ++ (OSubmit <$> seq (w_next w) (length l)).
Proof.
  induction l as [|[c a] l IH]; intros w; [cbn; by rewrite app_nil_r|].
  rewrite reenter_cons, IH. unfold call. cbn.
  destruct (length (_taskQueue (w_fc w)) <=? 0)%nat; cbn; by rewrite <- app_assoc.
Qed.

Lemma reenter_queue l :
  forall w, exists new,
    _taskQueue (w_fc (reenter l w)) = _taskQueue (w_fc w) ++ new /\
    length new = length l.
Proof.
  induction l as [|[c a] l IH]; intros w.
  - exists []. cbn. by rewrite app_nil_r.
  - rewrite reenter_cons. destruct (IH (snd (call c a w))) as (new & Hq & Hl).
    exists (_createTask c a (w_next w) :: new). split; [|cbn; lia].
    rewrite Hq. unfold call. cbn.
    destruct (length (_taskQueue (w_fc w)) <=? 0)%nat; cbn; by rewrite <- app_assoc.
Qed.

(** Submissions only: the other projections of the trace do not move. *)
Lemma submits_quiet (l : list nat) :
  tr_dispatched (OSubmit <$> l) = [] /\ tr_dispatch_times (OSubmit <$> l) = [] /\
  tr_returned (OSubmit <$> l) = [] /\ tr_finished (OSubmit <$> l) = [] /\
  tr_errors (OSubmit <$> l) = [] /\ (forall p, tr_settlements p (OSubmit <$> l) = []) /\
  tr_submitted (OSubmit <$> l) = l.
Proof.
  induction l as [|x l (H1 & H2 & H3 & H4 & H5 & H6 & H7)]; [done|].
  repeat split; cbn; try done. f_equal. exact H7.
Qed.

Lemma tr_dispatched_submits l : tr_dispatched (OSubmit <$> l) = [].
Proof. apply submits_quiet. Qed.
Lemma tr_dispatch_times_submits l : tr_dispatch_times (OSubmit <$> l) = [].
Proof. apply submits_quiet. Qed.
Lemma tr_returned_submits l : tr_returned (OSubmit <$> l) = [].
Proof. apply submits_quiet. Qed.
Lemma tr_finished_submits l : tr_finished (OSubmit <$> l) = [].
Proof. apply submits_quiet. Qed.
Lemma tr_errors_submits l : tr_errors (OSubmit <$> l) = [].
Proof. apply submits_quiet. Qed.
Lemma tr_settlements_submits p l : tr_settlements p (OSubmit <$> l) = [].
Proof. apply submits_quiet. Qed.
Lemma tr_submitted_submits l : tr_submitted (OSubmit <$> l) = l.
Proof. apply submits_quiet. Qed.

#[local] Hint Rewrite tr_dispatched_submits tr_dispatch_times_submits
  tr_returned_submits tr_finished_submits tr_errors_submits
  tr_settlements_submits tr_submitted_submits : trace.

Lemma reenter_dispatched l w : dispatched (reenter l w) = dispatched w.
Proof.
  unfold dispatched. rewrite reenter_trace, tr_dispatched_app.
  destruct (submits_quiet (seq (w_next w) (length l))) as (-> & _). apply app_nil_r.
Qed.
Lemma reenter_returned l w : returned (reenter l w) = returned w.
Proof.
  unfold returned. rewrite reenter_trace, tr_returned_app.
  destruct (submits_quiet (seq (w_next w) (length l))) as (_ & _ & -> & _). apply app_nil_r.
Qed.
Lemma reenter_errors l w : errors (reenter l w) = errors w.
Proof.
  unfold errors. rewrite reenter_trace, tr_errors_app.
  destruct (submits_quiet (seq (w_next w) (length l))) as (_ & _ & _ & _ & -> & _).
  apply app_nil_r.
Qed.
Lemma reenter_settlements l w p : settlements p (reenter l w) = settlements p w.
Proof.
  unfold settlements. rewrite reenter_trace, tr_settlements_app.
  destruct (submits_quiet (seq (w_next w) (length l))) as (_ & _ & _ & _ & _ & H & _).
  rewrite H. apply app_nil_r.
Qed.

(** ** Every reachable state is well formed *)

Lemma wf_call c a w : wf w -> wf (snd (call c a w)).
Proof.
  unfold wf, call. intros H. cbn.
  destruct (length (_taskQueue (w_fc w)) <=? 0)%nat; cbn; by apply wf_parts_submit.
Qed.

Lemma wf_reenter l : forall w, wf w -> wf (reenter l w).
Proof.
  induction l as [|[c a] l IH]; intros w H; [done|].
  rewrite reenter_cons. by apply IH, wf_call.
Qed.

Lemma wf_reschedule w : wf w -> wf (reschedule w).
Proof. unfold reschedule. intros H. by destruct (0 <? _)%nat. Qed.

Lemma wf_log l m w : wf w -> wf (emit (OLog l m) w).
Proof. apply wf_parts_log. Qed.

Lemma wf_take_head n t rest w :
  wf w -> _taskQueue (w_fc w) = t :: rest ->
  wf (take_head n t rest w) /\
  t_promise t ∈ dispatched (take_head n t rest w) /\
  t_promise t ∉ (returned (take_head n t rest w)).*1.
Proof.
  unfold wf. intros H Hq. rewrite Hq in H. split; [|split].
  - cbn. by apply wf_parts_dispatch.
  - unfold dispatched. cbn. rewrite tr_dispatched_app. apply elem_of_app. right.
    cbn. left.
  - unfold returned. cbn. rewrite tr_returned_app, app_nil_r. intros Hr.
    apply (wf_parts_pending_fresh _ _ _ _ _ _ _ (t_promise t) H); [cbn; left|].
    by apply (wf_returned_dispatched _ _ _ _ _ _ _ H).
Qed.

Lemma wf_attach t n a w :
  wf w -> t_promise t ∈ dispatched w -> t_promise t ∉ (returned w).*1 ->
  wf (attach t n a w).
Proof.
  unfold wf. intros H Hd Hn.
  pose proof (wf_parts_register _ _ _ _ _ _ _
                {| r_task := t; r_begin := n; r_await := a |} H Hd Hn) as Hreg.
  unfold attach, register. cbn in *.
  destruct (w_settled w !! a); cbn; exact Hreg.
Qed.

Lemma wf_executeTask n1 n2 n3 w : wf w -> wf (_executeTask n1 n2 n3 w).
Proof.
  intros H. destruct (executeTask_result n1 n2 n3 w) as [Hq|Hq Hg|t rest a Hq Hg Hr|t rest e Hq Hg He].
  - done.
  - exact H.
  - destruct (wf_take_head n2 t rest w H Hq) as (Hw & Hd & Hn).
    apply wf_reschedule, wf_log, wf_attach.
    + by apply wf_reenter.
    + by rewrite reenter_dispatched.
    + by rewrite reenter_returned.
  - destruct (wf_take_head n2 t rest w H Hq) as (Hw & _).
    by apply wf_reschedule, wf_log, wf_reenter.
Qed.

Lemma wf_settle a o w : wf w -> w_settled w !! a = None -> wf (settle a o w).
Proof. unfold wf. intros H Ha. cbn. by apply wf_parts_settle. Qed.

Lemma wf_finally_callback now r rest w :
  wf w -> w_microtasks w = JFinally r :: rest ->
  wf (fst (finally_callback now r (set_microtasks rest w))).
Proof.
  unfold wf. intros H Hm. rewrite Hm in H. apply wf_parts_finally in H.
  unfold finally_callback. cbn.
  destruct (strip_tokens (w_heap w) (t_args (r_task r))) as [h [e|]]; cbn.
  - exact H.
  - by apply wf_parts_log.
Qed.

Lemma wf_run_job now j rest w :
  wf w -> w_microtasks w = j :: rest -> wf (run_job now j (set_microtasks rest w)).
Proof.
  intros H Hm. destruct j as [r o|r o|r].
  - unfold wf in *. rewrite Hm in H. apply wf_parts_then in H.
    destruct o; exact H.
  - unfold wf in *. rewrite Hm in H. apply wf_parts_catch in H.
    destruct o; exact H.
  - pose proof (wf_finally_callback now r rest w H Hm) as Hf.
    unfold run_job. destruct (finally_callback _ _ _) as [w' [e|]]; cbn in Hf.
    + by apply wf_parts_unhandled.
    + done.
Qed.

Lemma wf_step ev w w' : wf w -> step ev w = Some w' -> wf w'.
Proof.
  intros H Hs. destruct ev as [c a|n1 n2 n3|a o|now]; cbn in Hs.
  - injection Hs as <-. by apply wf_call.
  - destruct (w_timers w) as [|k]; [done|]. destruct (w_microtasks w) eqn:Hm; [|done].
    injection Hs as <-. apply wf_executeTask. exact H.
  - destruct (w_settled w !! a) eqn:Ha; [done|]. injection Hs as <-. by apply wf_settle.
  - destruct (w_microtasks w) as [|j rest] eqn:Hm; [done|]. injection Hs as <-.
    by apply wf_run_job.
Qed.

(** Induction along a run. *)
Lemma run_invariant (P : world -> Prop) :
  (forall ev w w', P w -> step ev w = Some w' -> P w') ->
  forall evs w w', P w -> run evs w = Some w' -> P w'.
Proof.
  intros Hstep. induction evs as [|ev evs IH]; intros w w' Hw Hr; cbn in Hr.
  - by injection Hr as <-.
  - destruct (step ev w) as [w1|] eqn:Hs; [|done]. eauto.
Qed.

Lemma wf_init maxFlow name h : wf (init_world maxFlow name h).
Proof. apply wf_parts_init. Qed.

Lemma wf_run evs w w' : wf w -> run evs w = Some w' -> wf w'.
Proof. apply (run_invariant wf). intros ev ? ?. apply wf_step. Qed.

(** ** The rate and the interval never change *)

Ltac unwrap :=
  unfold reschedule, log_execute, attach, register;
  repeat match goal with
         | |- context [if (0 <? ?n)%nat then _ else _] => destruct (0 <? n)%nat
         | |- context [match w_settled ?w !! ?a with _ => _ end] =>
             destruct (w_settled w !! a)
         end;
  cbn.

Lemma executeTask_maxFlow n1 n2 n3 w :
  _maxFlow (w_fc (_executeTask n1 n2 n3 w)) = _maxFlow (w_fc w) /\
  _minInterval (w_fc (_executeTask n1 n2 n3 w)) = _minInterval (w_fc w).
Proof.
  destruct (executeTask_result n1 n2 n3 w)
    as [Hq|Hq Hg|t rest a Hq Hg Hr|t rest e Hq Hg He]; try done.
  - unwrap; by rewrite ?reenter_settled, ?reenter_maxFlow, ?reenter_minInterval.
  - unwrap; by rewrite ?reenter_maxFlow, ?reenter_minInterval.
Qed.

Lemma run_job_maxFlow now j w :
  _maxFlow (w_fc (run_job now j w)) = _maxFlow (w_fc w) /\
  _minInterval (w_fc (run_job now j w)) = _minInterval (w_fc w).
Proof.
  destruct j as [r [v|e]|r [v|e]|r]; try done.
  unfold run_job, finally_callback. cbn.
  by destruct (strip_tokens _ _) as [h [e|]].
Qed.

Lemma step_maxFlow ev w w' :
  step ev w = Some w' ->
  _maxFlow (w_fc w') = _maxFlow (w_fc w) /\
  _minInterval (w_fc w') = _minInterval (w_fc w).
Proof.
  intros Hs. destruct ev as [c a|n1 n2 n3|a o|now]; cbn in Hs.
  - injection Hs as <-. unfold call. cbn.
    by destruct (length (_taskQueue (w_fc w)) <=? 0)%nat.
  - destruct (w_timers w) as [|k]; [done|]. destruct (w_microtasks w); [|done].
    injection Hs as <-. apply (executeTask_maxFlow n1 n2 n3 (set_timers k w)).
  - destruct (w_settled w !! a); [done|]. by injection Hs as <-.
  - destruct (w_microtasks w) as [|j rest]; [done|]. injection Hs as <-.
    apply (run_job_maxFlow now j (set_microtasks rest w)).
Qed.

Lemma run_maxFlow evs maxFlow name h w :
  run evs (init_world maxFlow name h) = Some w ->
  _maxFlow (w_fc w) = maxFlow /\
  _minInterval (w_fc w) = js_div (60 * 1000) maxFlow.
Proof.
  apply (run_invariant (fun w => _maxFlow (w_fc w) = maxFlow /\
                                 _minInterval (w_fc w) = js_div (60 * 1000) maxFlow));
    [|done].
  intros ev w0 w1 [H1 H2] Hs. apply step_maxFlow in Hs as [-> ->]. done.
Qed.

(** ** Comparisons of rationals *)

Lemma Qlt_bool_true x y : Qlt_bool x y = true <-> (x < y)%Q.
Proof.
  unfold Qlt_bool. rewrite negb_true_iff, <- not_true_iff_false, Qle_bool_iff.
  split; [apply Qnot_le_lt|apply Qlt_not_le].
Qed.

Lemma Qlt_bool_false x y : Qlt_bool x y = false <-> (y <= x)%Q.
Proof.
  unfold Qlt_bool. rewrite negb_false_iff. apply Qle_bool_iff.
Qed.

(** ** The gate *)

Lemma checkFlow_unlimited now f :
  (_maxFlow f <= 0)%Q -> _checkFlow now f = (true, f).
Proof.
  intros H. unfold _checkFlow. apply Qlt_bool_false in H. by rewrite H.
Qed.

(** The trace of a run of [_executeTask] that dispatches. *)
Lemma promise_path_trace t rest n2 n3 a w :
  exists m,
    w_trace (reschedule (log_execute (attach t n3 a
               (reenter (c_reentry (t_caller t)) (take_head n2 t rest w))))) =
    w_trace w ++ ODispatch (t_promise t) n2 ::
      (OSubmit <$> seq (w_next w) (length (c_reentry (t_caller t)))) ++
      [OReturned (t_promise t) a; OLog Debug m].
Proof.
  eexists. unwrap; rewrite reenter_trace; cbn; rewrite <- ?app_assoc; cbn;
    rewrite <- ?app_assoc; reflexivity.
Qed.

Lemma thrown_path_trace t rest n2 e w :
  w_trace (reschedule (emit (OLog Error (MsgError e))
             (reenter (c_reentry (t_caller t)) (take_head n2 t rest w)))) =
  w_trace w ++ ODispatch (t_promise t) n2 ::
    (OSubmit <$> seq (w_next w) (length (c_reentry (t_caller t)))) ++
    [OLog Error (MsgError e)].
Proof.
  unwrap; rewrite reenter_trace; cbn; rewrite <- ?app_assoc; cbn;
    rewrite <- ?app_assoc; reflexivity.
Qed.

Ltac trace_proj := repeat (autorewrite with trace; cbn).

(** A run of [_executeTask] with a task queued and the gate open dispatches
    the head of the queue. *)
Lemma executeTask_dispatches n1 n2 n3 w t rest :
  _taskQueue (w_fc w) = t :: rest ->
  fst (_checkFlow n1 (w_fc w)) = true ->
  dispatched (_executeTask n1 n2 n3 w) = dispatched w ++ [t_promise t] /\
  dispatch_times (_executeTask n1 n2 n3 w) = dispatch_times w ++ [n2].
Proof.
  intros Hq Hg. unfold dispatched, dispatch_times.
  destruct (executeTask_result n1 n2 n3 w)
    as [Hq'|Hq' Hg'|t' rest' a Hq' Hg' Hr|t' rest' e Hq' Hg' He]; try congruence.
  - rewrite Hq in Hq'. injection Hq' as <- <-.
    destruct (promise_path_trace t rest n2 n3 a w) as [m ->]. by trace_proj.
  - rewrite Hq in Hq'. injection Hq' as <- <-.
    rewrite thrown_path_trace. by trace_proj.
Qed.

(** C7. A queue constructed with [maxFlow <= 0] (zero or negative) never
    limits: in every state it reaches, the gate check answers [true] whatever
    the clock says and changes nothing, and a run of the driving loop with a
    task queued dispatches the head of the queue whatever the clock says. *)
Theorem gate_always_open_without_limit maxFlow name h evs w :
  (maxFlow <= 0)%Q ->
  run evs (init_world maxFlow name h) = Some w ->
  (forall now, _checkFlow now (w_fc w) = (true, w_fc w)) /\
  (forall n1 n2 n3 t rest, _taskQueue (w_fc w) = t :: rest ->
     dispatched (_executeTask n1 n2 n3 w) = dispatched w ++ [t_promise t]).
Proof.
  intros Hm Hr. apply run_maxFlow in Hr as [Hmax _].
  assert (Hopen : forall now, _checkFlow now (w_fc w) = (true, w_fc w)).
  { intros now. apply checkFlow_unlimited. by rewrite Hmax. }
  split; [done|]. intros n1 n2 n3 t rest Hq.
  apply (executeTask_dispatches n1 n2 n3 w t rest); [done|]. by rewrite Hopen.
Qed.

Lemma gate_always_open_without_limit_witness :
  exists w, run thrower_then_task (init_world (-5) "api" ∅) = Some w /\
            _checkFlow 0 (w_fc w) = (true, w_fc w) /\
            dispatched (_executeTask 0 0 0 w) = dispatched w ++ [0%nat].
Proof.
  pose proof (gate_always_open_without_limit (-5) "api" ∅ thrower_then_task _
                ltac:(unfold Qle; simpl; lia) ltac:(vm_compute; reflexivity))
    as [H1 H2].
  eexists. split; [vm_compute; reflexivity|]. split; [apply H1|].
  apply (H2 0 0 0 (_createTask (throws (Thrown (VStr "boom"))) [] 0)
            [_createTask (returns_promise 1) [] 1]).
  vm_compute. reflexivity.
Defined.

(** ** What a reaction job changes *)

Lemma run_job_trace now j w :
  exists more,
    w_trace (run_job now j w) = w_trace w ++ more /\
    tr_submitted more = [] /\ tr_dispatched more = [] /\
    tr_dispatch_times more = [] /\ tr_returned more = [] /\ tr_errors more = [] /\
    (forall p, p <> job_promise j -> tr_settlements p more = []) /\
    tr_finished more = match j with JFinally r => [r_promise r] | _ => [] end.
Proof.
  destruct j as [r [v|e]|r [v|e]|r]; cbn.
  - eexists [_]. split; [done|]. repeat split; try done.
    intros p Hp. cbn. rewrite decide_False; [done|]. by intros <-.
  - exists []. by rewrite app_nil_r.
  - exists []. by rewrite app_nil_r.
  - eexists [_]. split; [done|]. repeat split; try done.
    intros p Hp. cbn. rewrite decide_False; [done|]. by intros <-.
  - unfold finally_callback. cbn.
    destruct (strip_tokens _ _) as [h [e|]]; cbn;
      eexists [_; _]; (split; [by rewrite <- app_assoc|]); by repeat split.
Qed.

Lemma run_job_frame now j w :
  w_settled (run_job now j w) = w_settled w /\
  w_waiting (run_job now j w) = w_waiting w /\
  w_timers (run_job now j w) = w_timers w /\
  w_next (run_job now j w) = w_next w /\
  _taskQueue (w_fc (run_job now j w)) = _taskQueue (w_fc w) /\
  _lastExecuteTime (w_fc (run_job now j w)) = _lastExecuteTime (w_fc w) /\
  w_microtasks (run_job now j w) = w_microtasks w ++ successor j.
Proof.
  destruct j as [r [v|e]|r [v|e]|r]; cbn; try done.
  unfold finally_callback. cbn.
  destruct (strip_tokens _ _) as [h [e|]]; cbn; by rewrite app_nil_r.
Qed.

Lemma run_job_returned now j w : returned (run_job now j w) = returned w.
Proof.
  unfold returned. destruct (run_job_trace now j w) as (more & -> & _ & _ & _ & H & _).
  by rewrite tr_returned_app, H, app_nil_r.
Qed.

Lemma chain_length_successor j :
  S (chain_length (successor j)) = job_weight j.
Proof. by destruct j as [r [v|e]|r [v|e]|r]. Qed.

Lemma chain_length_app l1 l2 :
  chain_length (l1 ++ l2) = (chain_length l1 + chain_length l2)%nat.
Proof. apply sum_list_with_app. Qed.

(** The microtask queue drains: every job runs, in as many steps as the
    chains have links left. *)
Lemma run_drain now w :
  exists w', run (drain now w) w = Some w' /\
             w_microtasks w' = [] /\
             w_settled w' = w_settled w /\
             returned w' = returned w.
Proof.
  unfold drain. remember (chain_length (w_microtasks w)) as n eqn:Hn.
  revert w Hn. induction n as [|n IH]; intros w Hn.
  - exists w. repeat split; try done.
    destruct (w_microtasks w) as [|j rest]; [done|].
    unfold chain_length in Hn. cbn in Hn. destruct j; cbn in Hn; lia.
  - destruct (w_microtasks w) as [|j rest] eqn:Hm; [done|].
    cbn [replicate run step]. rewrite Hm.
    pose proof (run_job_frame now j (set_microtasks rest w)) as (Hs & _ & _ & _ & _ & _ & Hmicro).
    cbn in Hs, Hmicro.
    destruct (IH (run_job now j (set_microtasks rest w))) as (w' & Hr & He & Hs' & Hret).
    { rewrite Hmicro, chain_length_app.
      pose proof (chain_length_successor j) as Hj.
      unfold chain_length in Hn at 1. cbn in Hn. fold (chain_length rest) in Hn. lia. }
    exists w'. repeat split; try done.
    + by rewrite Hs', Hs.
    + by rewrite Hret, run_job_returned.
Qed.

(** ** Dispatch order *)

(** C3. In every state reached from a new queue, whatever the rate, the
    submissions, the timer ticks, and the moments at which the callables'
    promises settle: the promises in submission order are the dispatched ones
    in dispatch order followed by the ones still queued in queue order.
    So tasks are dispatched in the order they were submitted; no promise is
    numbered twice. *)
Theorem dispatch_order_is_submission_order maxFlow name h evs w :
  run evs (init_world maxFlow name h) = Some w ->
  submitted w = dispatched w ++ pending w /\
  dispatched w `prefix_of` submitted w /\
  NoDup (submitted w).
Proof.
  intros Hr. assert (Hwf : wf w) by (eapply wf_run; [apply wf_init|exact Hr]).
  destruct Hwf. unfold submitted, dispatched, pending. repeat split.
  - done.
  - rewrite wf_fifo0. by apply prefix_app_r.
  - rewrite wf_submitted0. apply NoDup_seq.
Qed.

Lemma dispatch_order_is_submission_order_witness :
  exists w, run three_tasks_spaced (init_world 60 "api" ∅) = Some w /\
            submitted w = dispatched w ++ pending w /\
            dispatched w = [0; 1; 2]%nat.
Proof.
  eexists. split; [vm_compute; reflexivity|]. split.
  - apply (dispatch_order_is_submission_order 60 "api" ∅ three_tasks_spaced).
    vm_compute. reflexivity.
  - vm_compute. reflexivity.
Defined.

(** ** The in-flight counter *)

Lemma thrown_by_promise c a : c_result c = SReturnPromise a -> thrown_by c = None.
Proof. unfold thrown_by. by intros ->. Qed.

(** A dispatch adds one to [_count] when the callable returns a promise and
    nothing when its invocation throws. *)
Lemma executeTask_count n1 n2 n3 w t rest :
  _taskQueue (w_fc w) = t :: rest ->
  fst (_checkFlow n1 (w_fc w)) = true ->
  _count (w_fc (_executeTask n1 n2 n3 w)) =
  _count (w_fc w) + (match thrown_by (t_caller t) with Some _ => 0 | None => 1 end).
Proof.
  intros Hq Hg.
  destruct (executeTask_result n1 n2 n3 w)
    as [Hq'|Hq' Hg'|t' rest' a Hq' Hg' Hr|t' rest' e Hq' Hg' He]; try congruence.
  - rewrite Hq in Hq'. injection Hq' as <- <-.
    rewrite (thrown_by_promise _ _ Hr).
    unwrap; by rewrite reenter_count.
  - rewrite Hq in Hq'. injection Hq' as <- <-. rewrite He.
    unwrap; rewrite reenter_count; cbn; lia.
Qed.

(** Of the reaction jobs, only the callback given to [.finally] touches
    [_count]: it takes one off. *)
Lemma run_job_count now j w :
  _count (w_fc (run_job now j w)) =
  _count (w_fc w) - (match j with JFinally _ => 1 | _ => 0 end).
Proof.
  destruct j as [r [v|e]|r [v|e]|r]; cbn; try lia.
  unfold finally_callback. cbn. by destruct (strip_tokens _ _) as [h [e|]].
Qed.

Lemma call_count c a w : _count (w_fc (snd (call c a w))) = _count (w_fc w).
Proof. unfold call. cbn. by destruct (length (_taskQueue (w_fc w)) <=? 0)%nat. Qed.

(** C4, as the code has it. In every state reached from a new queue:
    [_count] is not negative; it is the number of dispatches whose callable
    returned a promise minus the number of settlement callbacks that have run,
    no task being counted twice on either side and every settled task having
    been counted at its dispatch; so it is 0 once every task that was counted
    has settled.  One step at a time: a dispatch adds 1 when the callable
    returns a promise and 0 when its invocation throws, the callback given to
    [.finally] subtracts 1, and submissions, other reaction jobs and the
    settling of a callable's promise leave it alone. *)
Theorem inflight_counter_accounting maxFlow name h evs w :
  run evs (init_world maxFlow name h) = Some w ->
  0 <= _count (w_fc w) /\
  _count (w_fc w) = Z.of_nat (length (returned w)) - Z.of_nat (length (finished w)) /\
  NoDup (returned w).*1 /\ NoDup (finished w) /\
  (forall p, p ∈ finished w -> p ∈ (returned w).*1) /\
  (forall p, p ∈ (returned w).*1 -> p ∈ dispatched w) /\
  ((forall p, p ∈ (returned w).*1 -> p ∈ finished w) -> _count (w_fc w) = 0) /\
  (forall n1 n2 n3 t rest,
     _taskQueue (w_fc w) = t :: rest -> fst (_checkFlow n1 (w_fc w)) = true ->
     _count (w_fc (_executeTask n1 n2 n3 w)) =
     _count (w_fc w) + (match thrown_by (t_caller t) with Some _ => 0 | None => 1 end)) /\
  (forall now j,
     _count (w_fc (run_job now j w)) =
     _count (w_fc w) - (match j with JFinally _ => 1 | _ => 0 end)) /\
  (forall c a, _count (w_fc (snd (call c a w))) = _count (w_fc w)) /\
  (forall a o, _count (w_fc (settle a o w)) = _count (w_fc w)).
Proof.
  intros Hr. assert (Hwf : wf w) by (eapply wf_run; [apply wf_init|exact Hr]).
  pose proof (wf_parts_nodup _ _ _ _ _ _ _ Hwf) as Hnd.
  destruct Hwf. fold (returned w) (finished w) (dispatched w) in *.
  pose proof (Permutation_length wf_returned0) as Hlen.
  rewrite !length_app, !length_fmap in Hlen.
  apply NoDup_app in Hnd as (Hfin & Hdisj & Hin). fold (finished w) in *.
  repeat split.
  - lia.
  - rewrite wf_count0. lia.
  - done.
  - done.
  - intros p Hp. rewrite wf_returned0. apply elem_of_app. by left.
  - done.
  - intros Hall. rewrite wf_count0.
    assert (Hnil : (r_promise <$> w_waiting w) ++ (job_promise <$> w_microtasks w) = []).
    { apply elem_of_nil_inv. intros p Hp.
      apply (Hdisj p); [|done]. apply Hall. rewrite wf_returned0.
      apply elem_of_app. by right. }
    apply (f_equal length) in Hnil. rewrite length_app, !length_fmap in Hnil.
    cbn in Hnil. lia.
  - intros n1 n2 n3 t rest Hq Hg. by apply (executeTask_count n1 n2 n3 w t rest).
  - intros now j. apply run_job_count.
  - intros c a. apply call_count.
Qed.

Lemma inflight_counter_accounting_witness :
  exists w, run one_task_settles (init_world 60 "api" heap_with_token) = Some w /\
            0 <= _count (w_fc w) /\
            _count (w_fc w) =
            Z.of_nat (length (returned w)) - Z.of_nat (length (finished w)).
Proof.
  pose proof (inflight_counter_accounting 60 "api" heap_with_token one_task_settles _
                ltac:(vm_compute; reflexivity)) as (H1 & H2 & _).
  eexists. split; [vm_compute; reflexivity|]. split; [exact H1|exact H2].
Defined.

(** C4 as stated fails where the callable throws: the task is dispatched
    (taken from the queue and invoked) and [_count] stays where it was. *)
Lemma dispatch_of_throwing_task_is_not_counted :
  exists w w',
    run thrower_then_task (init_world 0 "api" ∅) = Some w /\
    step (ETimer 1000 1000 1000) w = Some w' /\
    dispatched w' = dispatched w ++ [0%nat] /\
    _count (w_fc w') = _count (w_fc w).
Proof.
  do 2 eexists.
  split; [vm_compute; reflexivity|].
  split; [vm_compute; reflexivity|].
  split; vm_compute; reflexivity.
Qed.

(** ** The caller's promise *)



(** ** The driving loop is scheduled while tasks are queued *)

Lemma run_invariant_guarded (G : event -> Prop) (P : world -> Prop) :
  (forall ev w w', G ev -> P w -> step ev w = Some w' -> P w') ->
  forall evs w w', Forall G evs -> P w -> run evs w = Some w' -> P w'.
Proof.
  intros Hstep. induction evs as [|ev evs IH]; intros w w' Hg Hw Hr; cbn in Hr.
  - by injection Hr as <-.
  - apply Forall_cons in Hg as [Hev Hg].
    destruct (step ev w) as [w1|] eqn:Hs; [|done]. eauto.
Qed.

Lemma call_timers c a w :
  w_timers (snd (call c a w)) =
  (w_timers w + match _taskQueue (w_fc w) with [] => 1 | _ => 0 end)%nat /\
  _taskQueue (w_fc (snd (call c a w))) =
  _taskQueue (w_fc w) ++ [_createTask c a (w_next w)].
Proof.
  unfold call. cbn.
  destruct (_taskQueue (w_fc w)) eqn:Hq; cbn; rewrite ?Hq; split; (done || lia).
Qed.

Lemma reschedule_timers w :
  w_timers (reschedule w) =
  (w_timers w + match _taskQueue (w_fc w) with [] => 0 | _ => 1 end)%nat /\
  w_fc (reschedule w) = w_fc w.
Proof.
  unfold reschedule.
  destruct (_taskQueue (w_fc w)) eqn:Hq; cbn; rewrite ?Hq; split; (done || lia).
Qed.

Lemma executeTask_reschedules n1 n2 n3 w :
  w_timers (_executeTask n1 n2 n3 w) =
  (w_timers (try_catch_executeTask n1 n2 n3 w) +
   match _taskQueue (w_fc (try_catch_executeTask n1 n2 n3 w)) with
   | [] => 0
   | _ => 1
   end)%nat /\
  w_fc (_executeTask n1 n2 n3 w) = w_fc (try_catch_executeTask n1 n2 n3 w).
Proof. apply (reschedule_timers (try_catch_executeTask n1 n2 n3 w)). Qed.

Lemma executeTask_scheduled n1 n2 n3 w :
  _taskQueue (w_fc (_executeTask n1 n2 n3 w)) <> [] ->
  (0 < w_timers (_executeTask n1 n2 n3 w))%nat.
Proof.
  destruct (executeTask_reschedules n1 n2 n3 w) as [-> ->].
  destruct (_taskQueue _); [done|lia].
Qed.

Lemma scheduled_step ev w w' :
  (_taskQueue (w_fc w) <> [] -> (0 < w_timers w)%nat) ->
  step ev w = Some w' ->
  _taskQueue (w_fc w') <> [] -> (0 < w_timers w')%nat.
Proof.
  intros H Hs. destruct ev as [c a|n1 n2 n3|a o|now]; cbv beta iota delta [step] in Hs.
  - apply (inj Some) in Hs; subst w'. destruct (call_timers c a w) as [-> ->]. intros _.
    destruct (_taskQueue (w_fc w)); [lia|]. assert (0 < w_timers w)%nat by auto. lia.
  - destruct (w_timers w) as [|k]; [done|]. destruct (w_microtasks w); [|done].
    apply (inj Some) in Hs; subst w'. apply executeTask_scheduled.
  - destruct (w_settled w !! a); [done|]. by apply (inj Some) in Hs; subst w'.
  - destruct (w_microtasks w) as [|j rest]; [done|]. apply (inj Some) in Hs; subst w'.
    destruct (run_job_frame now j (set_microtasks rest w)) as (_ & _ & -> & _ & -> & _).
    exact H.
Qed.

Lemma single_loop_executeTask n1 n2 n3 w :
  Forall (fun t => c_reentry (t_caller t) = []) (_taskQueue (w_fc w)) ->
  w_timers w = 0%nat ->
  single_loop (_executeTask n1 n2 n3 w).
Proof.
  intros Hall Ht. unfold single_loop.
  destruct (executeTask_result n1 n2 n3 w)
    as [Hq|Hq Hg|t rest a Hq Hg Hr|t rest e Hq Hg He].
  - by rewrite Hq.
  - split; [done|]. cbn. rewrite Ht. by destruct (_taskQueue (w_fc w)).
  - rewrite Hq in Hall. apply Forall_cons in Hall as [Ht0 Hrest]. rewrite Ht0.
    destruct (reschedule_timers (log_execute (attach t n3 a
                (reenter [] (take_head n2 t rest w))))) as [-> ->].
    unfold attach, register. cbn.
    destruct (w_settled w !! a); cbn; rewrite Ht; by destruct rest.
  - rewrite Hq in Hall. apply Forall_cons in Hall as [Ht0 Hrest]. rewrite Ht0.
    destruct (reschedule_timers (emit (OLog Error (MsgError e))
                (reenter [] (take_head n2 t rest w)))) as [-> ->].
    cbn. rewrite Ht. by destruct rest.
Qed.

Lemma single_loop_step ev w w' :
  match ev with ECall c _ => c_reentry c = [] | _ => True end ->
  single_loop w -> step ev w = Some w' -> single_loop w'.
Proof.
  intros Hev [Hall Ht] Hs. destruct ev as [c a|n1 n2 n3|a o|now]; cbv beta iota delta [step] in Hs.
  - apply (inj Some) in Hs; subst w'. unfold single_loop.
    destruct (call_timers c a w) as [-> ->]. split.
    + apply Forall_app. split; [done|]. by apply Forall_singleton.
    + rewrite Ht. by destruct (_taskQueue (w_fc w)).
  - destruct (w_timers w) as [|k] eqn:Hk; [done|]. destruct (w_microtasks w); [|done].
    apply (inj Some) in Hs; subst w'. apply single_loop_executeTask; [done|]. cbn.
    destruct (_taskQueue (w_fc w)); lia.
  - destruct (w_settled w !! a); [done|]. by apply (inj Some) in Hs; subst w'.
  - destruct (w_microtasks w) as [|j rest]; [done|]. apply (inj Some) in Hs; subst w'.
    unfold single_loop.
    destruct (run_job_frame now j (set_microtasks rest w)) as (_ & _ & -> & _ & -> & _).
    by split.
Qed.

(** C8, as the code has it. In every state reached from a new queue a run of
    the driving loop is scheduled whenever a task is queued.  [call]
    schedules a run exactly when it finds the queue empty (so exactly when it
    makes the queue go from empty to non-empty), and every run of
    [_executeTask] ends by scheduling the next one exactly when the queue is
    not empty then.  When no callable submits to the queue while it is being
    invoked, exactly one run is scheduled while a task is queued and none
    while the queue is empty. *)
Theorem loop_scheduled_while_pending maxFlow name h evs w :
  run evs (init_world maxFlow name h) = Some w ->
  (_taskQueue (w_fc w) <> [] -> (0 < w_timers w)%nat) /\
  (no_reentry evs ->
   w_timers w = match _taskQueue (w_fc w) with [] => 0%nat | _ => 1%nat end) /\
  (forall c a,
     w_timers (snd (call c a w)) =
     (w_timers w + match _taskQueue (w_fc w) with [] => 1 | _ => 0 end)%nat /\
     _taskQueue (w_fc (snd (call c a w))) =
     _taskQueue (w_fc w) ++ [_createTask c a (w_next w)]) /\
  (forall n1 n2 n3,
     w_timers (_executeTask n1 n2 n3 w) =
     (w_timers (try_catch_executeTask n1 n2 n3 w) +
      match _taskQueue (w_fc (_executeTask n1 n2 n3 w)) with
      | [] => 0
      | _ => 1
      end)%nat).
Proof.
  intros Hr. split; [|split; [|split]].
  - revert Hr.
    apply (run_invariant
             (fun w => _taskQueue (w_fc w) <> [] -> (0 < w_timers w)%nat)); [|done].
    intros ev w0 w1. apply scheduled_step.
  - intros Hne.
    assert (Hs : single_loop w); [|by destruct Hs].
    revert Hr.
    apply (run_invariant_guarded
             (fun ev => match ev with ECall c _ => c_reentry c = [] | _ => True end)
             single_loop); [|done|]; last first.
    + split; [constructor|done].
    + intros ev w0 w1. apply single_loop_step.
  - intros c a. apply call_timers.
  - intros n1 n2 n3.
    destruct (executeTask_reschedules n1 n2 n3 w) as [-> ->]. done.
Qed.

Lemma loop_scheduled_while_pending_witness :
  exists w, run three_tasks_spaced (init_world 60 "api" ∅) = Some w /\
            w_timers w = match _taskQueue (w_fc w) with [] => 0%nat | _ => 1%nat end.
Proof.
  pose proof (loop_scheduled_while_pending 60 "api" ∅ three_tasks_spaced _
                ltac:(vm_compute; reflexivity)) as (_ & H & _).
  eexists. split; [vm_compute; reflexivity|].
  apply H. repeat constructor.
Defined.

(** C8 as stated fails when a callable submits while it is the last task
    queued: [call] finds the queue empty and schedules a run, and the run in
    progress schedules another; after the second task is dispatched the
    queue is empty and a run is still scheduled. *)
Lemma run_scheduled_with_empty_queue :
  exists w, run resubmitting_task (init_world 0 "api" ∅) = Some w /\
            _taskQueue (w_fc w) = [] /\ w_timers w = 1%nat /\
            dispatched w = [0; 1]%nat.
Proof.
  eexists. split; [vm_compute; reflexivity|].
  split; [|split]; vm_compute; reflexivity.
Qed.

(** ** The minimal interval between dispatches *)

Lemma spaced_snoc gap l x :
  spaced gap l ->
  (forall t, last l = Some t -> (gap <= inject_Z (x - t))%Q) ->
  spaced gap (l ++ [x]).
Proof.
  intros Hl Hx i t t' Hi Hsi.
  destruct (decide (S i < length l)%nat) as [Hlt|Hge].
  - rewrite lookup_app_l in Hi by lia. rewrite lookup_app_l in Hsi by lia. eauto.
  - assert (Hlen : S i = length l).
    { apply lookup_lt_Some in Hsi. rewrite length_app in Hsi. cbn in Hsi. lia. }
    rewrite lookup_app_l in Hi by lia.
    rewrite lookup_app_r in Hsi by lia.
    replace (S i - length l)%nat with 0%nat in Hsi by lia. cbn in Hsi.
    injection Hsi as <-. apply Hx.
    rewrite last_lookup. by replace (pred (length l)) with i by lia.
Qed.

Lemma js_div_positive M : (0 < M)%Q -> js_div (60 * 1000) M = Finite (60000 / M).
Proof.
  intros HM. unfold js_div.
  destruct (Qeq_bool M 0) eqn:He; [|done].
  apply Qeq_bool_iff in He. rewrite He in HM. by apply Qlt_irrefl in HM.
Qed.

(** With a positive rate the gate answers [false] exactly when less than
    the interval has passed since [_lastExecuteTime]. *)
Lemma checkFlow_limited M now f :
  (0 < M)%Q -> _maxFlow f = M -> _minInterval f = Finite (60000 / M) ->
  (fst (_checkFlow now f) = false <->
   (inject_Z (now - _lastExecuteTime f) < 60000 / M)%Q).
Proof.
  intros HM Hmax Hmin. unfold _checkFlow. rewrite Hmax, Hmin.
  apply Qlt_bool_true in HM. rewrite HM. cbn [js_lt].
  destruct (Qlt_bool (inject_Z (now - _lastExecuteTime f)) (60000 / M)) eqn:Hlt; cbn.
  - apply Qlt_bool_true in Hlt. by split.
  - apply Qlt_bool_false in Hlt. split; [done|].
    intros Hc. exfalso. by apply Qlt_not_le in Hc.
Qed.

(** When the interval is the one the constructor computes from the rate,
    the gate opens once the clock has advanced enough: from some clock value
    on, every gate check passes. *)
Lemma gate_opens M f :
  _maxFlow f = M -> _minInterval f = js_div (60 * 1000) M ->
  exists now0, forall now, now0 <= now -> fst (_checkFlow now f) = true.
Proof.
  intros Hmax Hmin.
  destruct (Qlt_le_dec 0 M) as [Hpos|Hneg].
  - rewrite js_div_positive in Hmin by done.
    exists (_lastExecuteTime f + Qceiling (60000 / M)).
    intros now Hnow.
    destruct (fst (_checkFlow now f)) eqn:Hg; [done|].
    apply (checkFlow_limited M now f Hpos Hmax Hmin) in Hg.
    exfalso. apply (Qlt_not_le _ _ Hg).
    eapply Qle_trans; [apply Qle_ceiling|]. rewrite <- Zle_Qle. lia.
  - exists 0. intros now _. rewrite checkFlow_unlimited; [done|]. by rewrite Hmax.
Qed.

(** X2. In every state reached from a new queue the gate opens once the
    clock has advanced enough: from some clock value on, every gate check
    passes. *)
Lemma gate_opens_eventually maxFlow name h evs w :
  run evs (init_world maxFlow name h) = Some w ->
  exists now0, forall now, now0 <= now -> fst (_checkFlow now (w_fc w)) = true.
Proof.
  intros Hr. destruct (run_maxFlow _ _ _ _ _ Hr) as [Hmax Hmin].
  by apply (gate_opens maxFlow).
Qed.

Lemma gate_opens_eventually_witness :
  exists w now0,
    run three_tasks_spaced (init_world 60 "api" ∅) = Some w /\
    forall now, now0 <= now -> fst (_checkFlow now (w_fc w)) = true.
Proof.
  destruct (gate_opens_eventually 60 "api" ∅ three_tasks_spaced _
              ltac:(vm_compute; reflexivity)) as [now0 H].
  eexists. exists now0. split; [vm_compute; reflexivity|exact H].
Defined.

Lemma executeTask_idle n1 n2 n3 w :
  _taskQueue (w_fc w) = [] \/ fst (_checkFlow n1 (w_fc w)) = false ->
  w_trace (_executeTask n1 n2 n3 w) = w_trace w /\
  w_fc (_executeTask n1 n2 n3 w) = w_fc w.
Proof.
  intros H.
  destruct (executeTask_result n1 n2 n3 w)
    as [Hq'|Hq' Hg'|t' rest' a Hq' Hg' Hr|t' rest' e Hq' Hg' He]; try done;
    destruct H; congruence.
Qed.

Lemma executeTask_lastExecuteTime n1 n2 n3 w t rest :
  _taskQueue (w_fc w) = t :: rest ->
  fst (_checkFlow n1 (w_fc w)) = true ->
  _lastExecuteTime (w_fc (_executeTask n1 n2 n3 w)) = n2.
Proof.
  intros Hq Hg.
  destruct (executeTask_result n1 n2 n3 w)
    as [Hq'|Hq' Hg'|t' rest' a Hq' Hg' Hr|t' rest' e Hq' Hg' He]; try congruence.
  - unwrap; by rewrite reenter_lastExecuteTime.
  - unwrap; by rewrite reenter_lastExecuteTime.
Qed.

Lemma paced_executeTask M n1 n2 n3 w :
  (0 < M)%Q -> n1 <= n2 -> paced M w -> paced M (_executeTask n1 n2 n3 w).
Proof.
  intros HM Hn (Hmax & Hmin & Hsp & Hlast).
  destruct (executeTask_maxFlow n1 n2 n3 w) as [Hmax' Hmin'].
  destruct (_taskQueue (w_fc w)) as [|t rest] eqn:Hq.
  { destruct (executeTask_idle n1 n2 n3 w) as [Htr Hfc]; [by left|].
    unfold paced, dispatch_times. by rewrite Htr, Hfc. }
  destruct (fst (_checkFlow n1 (w_fc w))) eqn:Hg.
  - destruct (executeTask_dispatches n1 n2 n3 w t rest Hq Hg) as [_ Hdt].
    pose proof (executeTask_lastExecuteTime n1 n2 n3 w t rest Hq Hg) as Hl.
    unfold paced. rewrite Hmax', Hmin', Hdt, Hl. repeat split; try done.
    + apply spaced_snoc; [done|]. intros t0 Ht0. apply Hlast in Ht0.
      assert (Hopen : ~ (inject_Z (n1 - _lastExecuteTime (w_fc w)) < 60000 / M)%Q).
      { intros Hc. apply (checkFlow_limited M n1 (w_fc w) HM Hmax Hmin) in Hc.
        congruence. }
      apply Qnot_lt_le in Hopen. rewrite Ht0 in Hopen.
      eapply Qle_trans; [exact Hopen|]. rewrite <- Zle_Qle. lia.
    + intros t0. rewrite last_snoc. congruence.
  - destruct (executeTask_idle n1 n2 n3 w) as [Htr Hfc]; [by right|].
    unfold paced, dispatch_times. by rewrite Htr, Hfc.
Qed.

Lemma call_dispatch_times c a w :
  dispatch_times (snd (call c a w)) = dispatch_times w /\
  _lastExecuteTime (w_fc (snd (call c a w))) = _lastExecuteTime (w_fc w).
Proof.
  unfold dispatch_times, call. cbn.
  destruct (length (_taskQueue (w_fc w)) <=? 0)%nat; cbn; by trace_proj.
Qed.

Lemma run_job_dispatch_times now j w :
  dispatch_times (run_job now j w) = dispatch_times w.
Proof.
  unfold dispatch_times.
  destruct (run_job_trace now j w) as (more & -> & _ & _ & H & _).
  by rewrite tr_dispatch_times_app, H, app_nil_r.
Qed.

Lemma paced_step M ev w w' :
  (0 < M)%Q ->
  match ev with ETimer n1 n2 _ => n1 <= n2 | _ => True end ->
  paced M w -> step ev w = Some w' -> paced M w'.
Proof.
  intros HM Hev Hp Hs.
  destruct ev as [c a|n1 n2 n3|a o|now]; cbv beta iota delta [step] in Hs.
  - apply (inj Some) in Hs; subst w'. destruct Hp as (Hmax & Hmin & Hsp & Hlast).
    destruct (step_maxFlow (ECall c a) w _ eq_refl) as [Hmax' Hmin'].
    destruct (call_dispatch_times c a w) as [Hdt Hl].
    unfold paced. cbn [step] in Hmax', Hmin'. by rewrite Hmax', Hmin', Hdt, Hl.
  - destruct (w_timers w) as [|k]; [done|]. destruct (w_microtasks w); [|done].
    apply (inj Some) in Hs; subst w'. by apply paced_executeTask.
  - destruct (w_settled w !! a); [done|]. by apply (inj Some) in Hs; subst w'.
  - destruct (w_microtasks w) as [|j rest]; [done|].
    apply (inj Some) in Hs; subst w'. destruct Hp as (Hmax & Hmin & Hsp & Hlast).
    destruct (run_job_maxFlow now j (set_microtasks rest w)) as [Hmax' Hmin'].
    destruct (run_job_frame now j (set_microtasks rest w)) as (_ & _ & _ & _ & _ & Hl & _).
    unfold paced. by rewrite Hmax', Hmin', run_job_dispatch_times, Hl.
Qed.

Lemma paced_init M name h : (0 < M)%Q -> paced M (init_world M name h).
Proof.
  intros HM. repeat split.
  - cbn. by apply js_div_positive.
  - intros i t t' Hi. done.
  - done.
Qed.

(** C1. Take a queue constructed with a rate [M > 0] and any state it
    reaches.  The gate check answers [false] whenever the clock reads less
    than [60000 / M] ms after [_lastExecuteTime], and that run of the driving
    loop dispatches nothing; [_lastExecuteTime] is the time of the last
    dispatch.  So, the clock not going backwards between the gate check and
    the dispatch of one run, any two consecutive dispatch times are at least
    [60000 / M] ms apart. *)
Theorem dispatches_at_least_min_interval_apart M name h evs w :
  (0 < M)%Q ->
  run evs (init_world M name h) = Some w ->
  (forall now n2 n3,
     (inject_Z (now - _lastExecuteTime (w_fc w)) < 60000 / M)%Q ->
     fst (_checkFlow now (w_fc w)) = false /\
     dispatched (_executeTask now n2 n3 w) = dispatched w) /\
  (clock_steady evs ->
   (forall t, last (dispatch_times w) = Some t -> _lastExecuteTime (w_fc w) = t) /\
   (forall i t t',
      dispatch_times w !! i = Some t -> dispatch_times w !! S i = Some t' ->
      (60000 / M <= inject_Z (t' - t))%Q)).
Proof.
  intros HM Hr. split.
  - intros now n2 n3 Hlt.
    destruct (run_maxFlow _ _ _ _ _ Hr) as [Hmax Hmin].
    rewrite js_div_positive in Hmin by done.
    assert (Hg : fst (_checkFlow now (w_fc w)) = false)
      by by apply (checkFlow_limited M now (w_fc w) HM Hmax Hmin).
    split; [done|].
    destruct (executeTask_idle now n2 n3 w) as [Htr _]; [by right|].
    unfold dispatched. by rewrite Htr.
  - intros Hclock.
    assert (Hp : paced M w).
    { revert Hr.
      apply (run_invariant_guarded
               (fun ev => match ev with ETimer n1 n2 _ => n1 <= n2 | _ => True end)
               (paced M)); [|done|by apply paced_init].
      intros ev w0 w1. by apply paced_step. }
    destruct Hp as (_ & _ & Hsp & Hlast). by split.
Qed.

Lemma dispatches_at_least_min_interval_apart_witness :
  exists w, run three_tasks_spaced (init_world 60 "api" ∅) = Some w /\
            dispatch_times w = [1000; 2001; 3002] /\
            (60000 / 60 <= inject_Z (2001 - 1000))%Q.
Proof.
  pose proof (dispatches_at_least_min_interval_apart 60 "api" ∅ three_tasks_spaced _
                ltac:(reflexivity) ltac:(vm_compute; reflexivity)) as [_ H].
  destruct H as [_ H]; [unfold clock_steady, three_tasks_spaced; repeat constructor; lia|].
  eexists. split; [vm_compute; reflexivity|]. split; [vm_compute; reflexivity|].
  apply (H 0%nat); vm_compute; reflexivity.
Defined.

(** ** Exceptions thrown inside the driving loop *)

Lemma thrown_by_throw c e : c_result c = SThrow e -> thrown_by c = Some e.
Proof. unfold thrown_by. by intros ->. Qed.

(** The [try] block ends by an exception exactly when the head task is
    dispatched and its invocation throws. *)
Lemma try_executeTask_thrown n1 n2 n3 w w1 e :
  try_executeTask n1 n2 n3 w = (w1, Some e) ->
  exists t rest,
    _taskQueue (w_fc w) = t :: rest /\
    fst (_checkFlow n1 (w_fc w)) = true /\
    thrown_by (t_caller t) = Some e /\
    w1 = reenter (c_reentry (t_caller t)) (take_head n2 t rest w).
Proof.
  intros Htry. pose proof (try_executeTask_result n1 n2 n3 w) as H.
  rewrite Htry in H.
  inversion H as [| | |t rest e' Hq Hg He]; subst.
  exists t, rest. by repeat split.
Qed.

Lemma try_executeTask_throws n1 n2 n3 w t rest e :
  _taskQueue (w_fc w) = t :: rest ->
  fst (_checkFlow n1 (w_fc w)) = true ->
  thrown_by (t_caller t) = Some e ->
  try_executeTask n1 n2 n3 w =
  (reenter (c_reentry (t_caller t)) (take_head n2 t rest w), Some e).
Proof.
  intros Hq Hg He. pose proof (try_executeTask_result n1 n2 n3 w) as H.
  inversion H as [Hq' Heq|Hq' Hg' Heq|t0 rest0 a Hq' Hg' Hr' Heq|t0 rest0 e0 Hq' Hg' He' Heq];
    try congruence;
    rewrite Hq in Hq'; injection Hq' as <- <-;
    first [congruence | by rewrite (thrown_by_promise _ _ Hr') in He].
Qed.

Lemma settlements_take_head p n t rest w :
  settlements p (take_head n t rest w) = settlements p w.
Proof.
  unfold settlements.
  change (w_trace (take_head n t rest w)) with (w_trace w ++ [ODispatch (t_promise t) n]).
  by rewrite tr_settlements_app, app_nil_r.
Qed.

Lemma errors_take_head n t rest w : errors (take_head n t rest w) = errors w.
Proof.
  unfold errors.
  change (w_trace (take_head n t rest w)) with (w_trace w ++ [ODispatch (t_promise t) n]).
  by rewrite tr_errors_app, app_nil_r.
Qed.

Lemma returned_take_head n t rest w : returned (take_head n t rest w) = returned w.
Proof.
  unfold returned.
  change (w_trace (take_head n t rest w)) with (w_trace w ++ [ODispatch (t_promise t) n]).
  by rewrite tr_returned_app, app_nil_r.
Qed.

(** What a run of [_executeTask] does when the invocation of the head task
    throws [e]. *)
Lemma thrown_run n1 n2 n3 w t rest e :
  _taskQueue (w_fc w) = t :: rest ->
  fst (_checkFlow n1 (w_fc w)) = true ->
  thrown_by (t_caller t) = Some e ->
  w_trace (_executeTask n1 n2 n3 w) =
    w_trace (reenter (c_reentry (t_caller t)) (take_head n2 t rest w)) ++
    [OLog Error (MsgError e)] /\
  errors (_executeTask n1 n2 n3 w) = errors w ++ [e] /\
  (forall p, settlements p (_executeTask n1 n2 n3 w) = settlements p w) /\
  returned (_executeTask n1 n2 n3 w) = returned w /\
  w_waiting (_executeTask n1 n2 n3 w) = w_waiting w /\
  w_microtasks (_executeTask n1 n2 n3 w) = w_microtasks w /\
  _total (w_fc (_executeTask n1 n2 n3 w)) = _total (w_fc w) /\
  _totalTime (w_fc (_executeTask n1 n2 n3 w)) = _totalTime (w_fc w) /\
  (exists new, _taskQueue (w_fc (_executeTask n1 n2 n3 w)) = rest ++ new).
Proof.
  intros Hq Hg He.
  assert (Hex : _executeTask n1 n2 n3 w =
                reschedule (emit (OLog Error (MsgError e))
                  (reenter (c_reentry (t_caller t)) (take_head n2 t rest w)))).
  { unfold _executeTask, try_catch_executeTask.
    by rewrite (try_executeTask_throws n1 n2 n3 w t rest e Hq Hg He). }
  assert (Htr : w_trace (_executeTask n1 n2 n3 w) =
                w_trace (reenter (c_reentry (t_caller t)) (take_head n2 t rest w)) ++
                [OLog Error (MsgError e)]).
  { rewrite Hex. by unwrap. }
  split; [exact Htr|].
  split. { unfold errors at 1. rewrite Htr, tr_errors_app.
           fold (errors (reenter (c_reentry (t_caller t)) (take_head n2 t rest w))).
           by rewrite reenter_errors, errors_take_head. }
  split. { intros p. unfold settlements at 1. rewrite Htr, tr_settlements_app, app_nil_r.
           fold (settlements p (reenter (c_reentry (t_caller t)) (take_head n2 t rest w))).
           by rewrite reenter_settlements, settlements_take_head. }
  split. { unfold returned at 1. rewrite Htr, tr_returned_app, app_nil_r.
           fold (returned (reenter (c_reentry (t_caller t)) (take_head n2 t rest w))).
           by rewrite reenter_returned, returned_take_head. }
  split. { rewrite Hex. unwrap; by rewrite reenter_waiting. }
  split. { rewrite Hex. unwrap; by rewrite reenter_microtasks. }
  split. { rewrite Hex. unwrap; by rewrite reenter_total. }
  split. { rewrite Hex. unwrap; by rewrite reenter_totalTime. }
  destruct (reenter_queue (c_reentry (t_caller t)) (take_head n2 t rest w))
    as (new & Hnew & _).
  exists new. rewrite Hex. unwrap; exact Hnew.
Qed.

(** After a run of the driving loop, the next run whose gate check passes
    takes place and dispatches the head of the queue. *)
Lemma next_run_dispatches w t rest m1 m2 m3 :
  _taskQueue (w_fc w) = t :: rest ->
  (0 < w_timers w)%nat -> w_microtasks w = [] ->
  fst (_checkFlow m1 (w_fc w)) = true ->
  exists w', step (ETimer m1 m2 m3) w = Some w' /\
             dispatched w' = dispatched w ++ [t_promise t].
Proof.
  intros Hq Ht Hm Hg. cbv beta iota delta [step]. rewrite Hm.
  destruct (w_timers w) as [|k]; [lia|].
  eexists. split; [reflexivity|].
  by destruct (executeTask_dispatches m1 m2 m3 (set_timers k w) t rest Hq Hg).
Qed.

(** C5. Whenever the [try] block of [_executeTask] ends by an exception
    [e] (thrown while the head task is invoked): the exception is caught and
    logged at error level, as the last thing the run writes to the log; no
    caller's [resolve] or [reject] is called and no reaction is registered;
    the tasks queued behind the failing one are still queued in their
    order; a further run is scheduled if the queue is not empty; the next
    run whose gate check passes dispatches the head of the remaining queue;
    and, the interval being the one the constructor computes from the rate
    (as it is in every state of a queue), the gate check does pass from some
    clock value on. *)
Theorem loop_survives_synchronous_exception n1 n2 n3 w w1 e :
  try_executeTask n1 n2 n3 w = (w1, Some e) ->
  w_trace (_executeTask n1 n2 n3 w) = w_trace w1 ++ [OLog Error (MsgError e)] /\
  errors (_executeTask n1 n2 n3 w) = errors w ++ [e] /\
  (forall p, settlements p (_executeTask n1 n2 n3 w) = settlements p w) /\
  w_waiting (_executeTask n1 n2 n3 w) = w_waiting w /\
  w_microtasks (_executeTask n1 n2 n3 w) = w_microtasks w /\
  (exists t rest new,
     _taskQueue (w_fc w) = t :: rest /\
     _taskQueue (w_fc (_executeTask n1 n2 n3 w)) = rest ++ new) /\
  (_taskQueue (w_fc (_executeTask n1 n2 n3 w)) <> [] ->
   (0 < w_timers (_executeTask n1 n2 n3 w))%nat) /\
  (forall t' rest' m1 m2 m3,
     _taskQueue (w_fc (_executeTask n1 n2 n3 w)) = t' :: rest' ->
     w_microtasks w = [] ->
     fst (_checkFlow m1 (w_fc (_executeTask n1 n2 n3 w))) = true ->
     exists w'', step (ETimer m1 m2 m3) (_executeTask n1 n2 n3 w) = Some w'' /\
                 dispatched w'' = dispatched (_executeTask n1 n2 n3 w) ++ [t_promise t']) /\
  (_minInterval (w_fc w) = js_div (60 * 1000) (_maxFlow (w_fc w)) ->
   exists now0, forall m1, now0 <= m1 ->
     fst (_checkFlow m1 (w_fc (_executeTask n1 n2 n3 w))) = true).
Proof.
  intros Htry.
  destruct (try_executeTask_thrown _ _ _ _ _ _ Htry) as (t & rest & Hq & Hg & He & ->).
  destruct (thrown_run n1 n2 n3 w t rest e Hq Hg He)
    as (Htr & Herr & Hset & _ & Hwait & Hmicro & _ & _ & new & Hnew).
  split; [exact Htr|]. split; [exact Herr|]. split; [exact Hset|].
  split; [exact Hwait|]. split; [exact Hmicro|].
  split; [by exists t, rest, new|].
  split; [apply executeTask_scheduled|].
  split.
  - intros t' rest' m1 m2 m3 Hq' Hm Hg'.
    apply next_run_dispatches with rest'; try done.
    + apply executeTask_scheduled. by rewrite Hq'.
    + by rewrite Hmicro.
  - intros Hmin. destruct (executeTask_maxFlow n1 n2 n3 w) as [Hmax' Hmin'].
    apply (gate_opens (_maxFlow (w_fc w))); [done|]. by rewrite Hmin'.
Qed.

Lemma loop_survives_synchronous_exception_witness :
  exists w w1,
    run thrower_then_task (init_world 0 "api" ∅) = Some w /\
    try_executeTask 1000 1000 1000 w = (w1, Some (Thrown (VStr "boom"))) /\
    errors (_executeTask 1000 1000 1000 w) = [Thrown (VStr "boom")] /\
    (0 < w_timers (_executeTask 1000 1000 1000 w))%nat.
Proof.
  do 2 eexists. split; [vm_compute; reflexivity|].
  split; [vm_compute; reflexivity|].
  match goal with
  | |- context [_executeTask _ _ _ ?w] =>
      pose proof (loop_survives_synchronous_exception 1000 1000 1000 w _
                    (Thrown (VStr "boom")) ltac:(vm_compute; reflexivity))
        as (_ & H2 & _ & _ & _ & _ & H7 & _)
  end.
  split; [exact H2|]. apply H7. vm_compute. discriminate.
Defined.

(** ** A callable that throws *)

(** Every step extends the trace, and records a returned promise only for
    the task at the head of the queue. *)
Lemma step_trace ev w w' :
  step ev w = Some w' ->
  exists more,
    w_trace w' = w_trace w ++ more /\
    (tr_returned more = [] \/
     exists t rest a, _taskQueue (w_fc w) = t :: rest /\
                      tr_returned more = [(t_promise t, a)]).
Proof.
  intros Hs. destruct ev as [c a|n1 n2 n3|a o|now]; cbv beta iota delta [step] in Hs.
  - apply (inj Some) in Hs; subst w'. exists [OSubmit (w_next w)].
    split; [|by left]. unfold call. cbn.
    by destruct (length (_taskQueue (w_fc w)) <=? 0)%nat.
  - destruct (w_timers w) as [|k]; [done|]. destruct (w_microtasks w); [|done].
    apply (inj Some) in Hs; subst w'.
    destruct (executeTask_result n1 n2 n3 (set_timers k w))
      as [Hq|Hq Hg|t rest a Hq Hg Hr|t rest e Hq Hg He].
    + exists []. split; [by rewrite app_nil_r|by left].
    + exists []. split; [by rewrite app_nil_r|by left].
    + destruct (promise_path_trace t rest n2 n3 a (set_timers k w)) as [m ->].
      eexists. split; [reflexivity|]. right. exists t, rest, a.
      split; [done|]. by trace_proj.
    + rewrite thrown_path_trace. eexists. split; [reflexivity|]. left. by trace_proj.
  - destruct (w_settled w !! a); [done|]. apply (inj Some) in Hs; subst w'.
    exists []. split; [by rewrite app_nil_r|by left].
  - destruct (w_microtasks w) as [|j rest]; [done|].
    apply (inj Some) in Hs; subst w'.
    destruct (run_job_trace now j (set_microtasks rest w))
      as (more & Htr & _ & _ & _ & Hret & _).
    exists more. split; [exact Htr|by left].
Qed.

Lemma abandoned_step p ev w w' :
  abandoned p w -> step ev w = Some w' -> abandoned p w'.
Proof.
  intros (Hwf & Hd & Hr) Hs. split; [by eapply wf_step|].
  destruct (step_trace ev w w' Hs) as (more & Htr & Hret).
  unfold dispatched, returned. rewrite Htr, tr_dispatched_app, tr_returned_app.
  split; [apply elem_of_app; by left|].
  destruct Hret as [->|(t & rest & a & Hq & ->)]; [by rewrite app_nil_r|].
  rewrite fmap_app. intros [Hin|Hin]%elem_of_app; [done|].
  cbn in Hin. apply list_elem_of_singleton in Hin. subst p.
  apply (wf_parts_pending_fresh _ _ _ _ _ _ _ (t_promise t) Hwf); [|done].
  rewrite Hq. cbn. left.
Qed.

Lemma abandoned_never_settles p w :
  abandoned p w ->
  settlements p w = [] /\ (p ∉ finished w) /\ (p ∉ inflight w).
Proof.
  intros (Hwf & Hd & Hr). pose proof Hwf as [].
  fold (returned w) (finished w) in *. repeat split.
  - by apply wf_unreturned0.
  - intros Hf. apply Hr. rewrite wf_returned0. apply elem_of_app. by left.
  - intros Hf. apply Hr. rewrite wf_returned0. apply elem_of_app. by right.
Qed.

(** C10. In a state reached from a new queue, let the task at the head of
    the queue have a callable that throws [e] when invoked, and let a run of
    the driving loop dispatch it.  Then the task counts as dispatched;
    [_count], [_total] and [_totalTime] are as before; [e] is caught and
    logged at error level; the tasks behind it are still queued in their
    order, a further run being scheduled if there is any, the next run
    whose gate check passes dispatches the first of them, and the gate check
    does pass from some clock value on; and in every state
    reached afterwards the promise [call] returned for the task has been
    neither resolved nor rejected, its settlement callback has not run, and
    it is not in flight. *)
Theorem synchronous_throw_leaves_future_pending
    maxFlow name h evs w t rest e n1 n2 n3 w' :
  run evs (init_world maxFlow name h) = Some w ->
  _taskQueue (w_fc w) = t :: rest ->
  c_result (t_caller t) = SThrow e ->
  fst (_checkFlow n1 (w_fc w)) = true ->
  step (ETimer n1 n2 n3) w = Some w' ->
  dispatched w' = dispatched w ++ [t_promise t] /\
  _count (w_fc w') = _count (w_fc w) /\
  _total (w_fc w') = _total (w_fc w) /\
  _totalTime (w_fc w') = _totalTime (w_fc w) /\
  errors w' = errors w ++ [e] /\
  (exists new, _taskQueue (w_fc w') = rest ++ new) /\
  (_taskQueue (w_fc w') <> [] -> (0 < w_timers w')%nat) /\
  (forall t' rest' m1 m2 m3,
     _taskQueue (w_fc w') = t' :: rest' ->
     fst (_checkFlow m1 (w_fc w')) = true ->
     exists w'', step (ETimer m1 m2 m3) w' = Some w'' /\
                 dispatched w'' = dispatched w' ++ [t_promise t']) /\
  (exists now0, forall m1, now0 <= m1 -> fst (_checkFlow m1 (w_fc w')) = true) /\
  (forall evs' w'',
     run evs' w' = Some w'' ->
     settlements (t_promise t) w'' = [] /\
     (t_promise t ∉ finished w'') /\
     (t_promise t ∉ inflight w'')).
Proof.
  intros Hr Hq Hres Hg Hs.
  assert (Hwf : wf w) by (eapply wf_run; [apply wf_init|exact Hr]).
  assert (Hwf' : wf w') by (eapply wf_step; eauto).
  cbv beta iota delta [step] in Hs.
  destruct (w_timers w) as [|k] eqn:Hk; [done|].
  destruct (w_microtasks w) eqn:Hm; [|done].
  apply (inj Some) in Hs.
  pose proof (thrown_by_throw _ _ Hres) as He.
  destruct (thrown_run n1 n2 n3 (set_timers k w) t rest e Hq Hg He)
    as (_ & Herr & _ & Hret & _ & Hmicro & Htot & Htime & new & Hnew).
  pose proof (executeTask_scheduled n1 n2 n3 (set_timers k w)) as Htim.
  pose proof (executeTask_count n1 n2 n3 (set_timers k w) t rest Hq Hg) as Hcount.
  destruct (executeTask_dispatches n1 n2 n3 (set_timers k w) t rest Hq Hg) as [Hd _].
  rewrite He in Hcount. rewrite Hs in *.
  split; [exact Hd|].
  split; [cbn in Hcount; lia|].
  split; [exact Htot|]. split; [exact Htime|]. split; [exact Herr|].
  split; [by exists new|]. split; [exact Htim|].
  split.
  { intros t' rest' m1 m2 m3 Hq' Hg'.
    apply next_run_dispatches with rest'; try done.
    - apply Htim. by rewrite Hq'.
    - by rewrite Hmicro. }
  split.
  { destruct (run_maxFlow _ _ _ _ _ Hr) as [Hmax Hmin].
    destruct (executeTask_maxFlow n1 n2 n3 (set_timers k w)) as [Hmax' Hmin'].
    rewrite Hs in Hmax', Hmin'.
    apply (gate_opens maxFlow); [by rewrite Hmax'|by rewrite Hmin'].  }
  intros evs' w'' Hr'.
  apply abandoned_never_settles.
  revert Hr'. apply (run_invariant (abandoned (t_promise t))).
  { intros ev w0 w1. apply abandoned_step. }
  split; [done|]. split.
  - rewrite Hd. apply elem_of_app. right. left.
  - rewrite Hret. intros Hin.
    apply (wf_parts_pending_fresh _ _ _ _ _ _ _ (t_promise t) Hwf).
    + rewrite Hq. cbn. left.
    + by apply (wf_returned_dispatched _ _ _ _ _ _ _ Hwf).
Qed.

Lemma synchronous_throw_leaves_future_pending_witness :
  exists w w',
    run thrower_then_task (init_world 0 "api" ∅) = Some w /\
    step (ETimer 1000 1000 1000) w = Some w' /\
    _count (w_fc w') = _count (w_fc w) /\
    errors w' = errors w ++ [Thrown (VStr "boom")] /\
    settlements 0 w' = [].
Proof.
  do 2 eexists. split; [vm_compute; reflexivity|].
  split; [vm_compute; reflexivity|].
  match goal with
  | |- context [errors ?w' = errors ?w ++ _] =>
      pose proof (synchronous_throw_leaves_future_pending
                    0 "api" ∅ thrower_then_task w _ _ (Thrown (VStr "boom"))
                    1000 1000 1000 w'
                    ltac:(vm_compute; reflexivity) ltac:(vm_compute; reflexivity)
                    ltac:(vm_compute; reflexivity) ltac:(vm_compute; reflexivity)
                    ltac:(vm_compute; reflexivity))
        as (_ & H2 & _ & _ & H5 & _ & _ & _ & _ & H9)
  end.
  split; [exact H2|]. split; [exact H5|].
  apply (H9 [] _ eq_refl).
Defined.

(** ** The caller's argument objects *)

Lemma token_stripped_refl o : token_stripped o o.
Proof. split; auto. Qed.

Lemma token_stripped_trans o1 o2 o3 :
  token_stripped o1 o2 -> token_stripped o2 o3 -> token_stripped o1 o3.
Proof.
  intros [H1 [E1|E1]] [H2 [E2|E2]]; split; try congruence.
  - left. congruence.
  - right. congruence.
  - right. congruence.
  - right. rewrite E2, E1. apply delete_delete_eq.
Qed.

Lemma heap_token_stripped_refl h : heap_token_stripped h h.
Proof. intros l. destruct (h !! l); [apply token_stripped_refl|done]. Qed.

Lemma heap_token_stripped_trans h1 h2 h3 :
  heap_token_stripped h1 h2 -> heap_token_stripped h2 h3 -> heap_token_stripped h1 h3.
Proof.
  intros H12 H23 l. specialize (H12 l). specialize (H23 l).
  destruct (h1 !! l), (h2 !! l), (h3 !! l); try done.
  by eapply token_stripped_trans.
Qed.

Lemma strip_token_stripped h arg :
  heap_token_stripped h (fst (strip_token h arg)) /\
  (forall l, arg <> VObj l -> fst (strip_token h arg) !! l = h !! l).
Proof.
  unfold strip_token.
  destruct (truthy arg); [|split; [apply heap_token_stripped_refl|done]].
  destruct arg as [| | | | |l0]; try (split; [apply heap_token_stripped_refl|done]).
  destruct (h !! l0) as [o|] eqn:Ho; [|split; [apply heap_token_stripped_refl|done]].
  destruct (o_hasOwnProperty o) eqn:Hown; [|split; [apply heap_token_stripped_refl|done]].
  destruct (o_props o !! "token") as [p|]; [|split; [apply heap_token_stripped_refl|done]].
  destruct (p_configurable p); [|split; [apply heap_token_stripped_refl|done]].
  cbn. split.
  - intros l. destruct (decide (l = l0)) as [->|Hne].
    + rewrite Ho, lookup_insert_eq. split; cbn; auto.
    + rewrite lookup_insert_ne by done.
      destruct (h !! l); [apply token_stripped_refl|done].
  - intros l Hl. apply lookup_insert_ne. congruence.
Qed.

Lemma strip_tokens_stripped args :
  forall h,
    heap_token_stripped h (fst (strip_tokens h args)) /\
    (forall l, VObj l ∉ args -> fst (strip_tokens h args) !! l = h !! l).
Proof.
  induction args as [|arg args IH]; intros h; cbn.
  - split; [apply heap_token_stripped_refl|done].
  - destruct (strip_token_stripped h arg) as [H1 H1'].
    destruct (strip_token h arg) as [h1 [e|]]; cbn in *.
    + split; [done|]. intros l Hl. apply H1'. intros ->. apply Hl. left.
    + destruct (IH h1) as [H2 H2']. split.
      * by eapply heap_token_stripped_trans.
      * intros l Hl. rewrite H2'.
        -- apply H1'. intros ->. apply Hl. left.
        -- intros Hin. apply Hl. by right.
Qed.

Lemma run_job_heap now j w :
  match j with
  | JFinally r => w_heap (run_job now j w) = fst (strip_tokens (w_heap w) (t_args (r_task r)))
  | _ => w_heap (run_job now j w) = w_heap w
  end.
Proof.
  destruct j as [r [v|e]|r [v|e]|r]; try done.
  unfold run_job, finally_callback. cbn.
  by destruct (strip_tokens _ _) as [h [e|]].
Qed.

Lemma executeTask_heap n1 n2 n3 w : w_heap (_executeTask n1 n2 n3 w) = w_heap w.
Proof.
  destruct (executeTask_result n1 n2 n3 w)
    as [Hq|Hq Hg|t rest a Hq Hg Hr|t rest e Hq Hg He]; try done.
  - unwrap; by rewrite ?reenter_settled, ?reenter_heap.
  - unwrap; by rewrite ?reenter_heap.
Qed.

(** Only the settlement callback touches the heap, and only the objects
    passed as arguments of the task that settles. *)
Lemma step_heap ev w w' :
  step ev w = Some w' ->
  w_heap w' = w_heap w \/
  exists now r rest,
    ev = EMicrotask now /\ w_microtasks w = JFinally r :: rest /\
    heap_token_stripped (w_heap w) (w_heap w') /\
    (forall l, VObj l ∉ t_args (r_task r) -> w_heap w' !! l = w_heap w !! l).
Proof.
  intros Hs. destruct ev as [c a|n1 n2 n3|a o|now]; cbv beta iota delta [step] in Hs.
  - apply (inj Some) in Hs; subst w'. left. unfold call. cbn.
    by destruct (length (_taskQueue (w_fc w)) <=? 0)%nat.
  - destruct (w_timers w) as [|k]; [done|]. destruct (w_microtasks w); [|done].
    apply (inj Some) in Hs; subst w'. left.
    apply (executeTask_heap n1 n2 n3 (set_timers k w)).
  - destruct (w_settled w !! a); [done|]. apply (inj Some) in Hs; subst w'. by left.
  - destruct (w_microtasks w) as [|j rest] eqn:Hm; [done|].
    apply (inj Some) in Hs; subst w'.
    pose proof (run_job_heap now j (set_microtasks rest w)) as Hh.
    destruct j as [r o|r o|r]; try by left.
    right. exists now, r, rest. rewrite Hh. cbn.
    destruct (strip_tokens_stripped (t_args (r_task r)) (w_heap w)) as [H1 H2].
    by repeat split.
Qed.

(** Along any run, every caller-owned object stays at its address with
    the same prototype lookup and the same own properties, except that its
    own property [token] may have been deleted.  The heap is touched by the
    settlement callback only, and then only in the objects passed as
    arguments of the task that settles. *)
Lemma heap_only_loses_tokens evs w w' :
  run evs w = Some w' ->
  heap_token_stripped (w_heap w) (w_heap w') /\
  (forall ev w1 w2,
     step ev w1 = Some w2 ->
     w_heap w2 = w_heap w1 \/
     exists now r rest,
       ev = EMicrotask now /\ w_microtasks w1 = JFinally r :: rest /\
       heap_token_stripped (w_heap w1) (w_heap w2) /\
       (forall l, VObj l ∉ t_args (r_task r) -> w_heap w2 !! l = w_heap w1 !! l)).
Proof.
  intros Hr. split; [|apply step_heap].
  revert Hr.
  apply (run_invariant (fun w1 => heap_token_stripped (w_heap w) (w_heap w1)));
    [|apply heap_token_stripped_refl].
  intros ev w1 w2 H1 Hs.
  destruct (step_heap ev w1 w2 Hs) as [->|(now & r & rest & _ & _ & H2 & _)]; [done|].
  by eapply heap_token_stripped_trans.
Qed.

(** C6 as stated fails: the object passed as argument has lost its
    [token] property once the task has settled. *)
Lemma settlement_deletes_token_of_argument :
  exists w o o0 p,
    run one_task_settles (init_world 60 "api" heap_with_token) = Some w /\
    heap_with_token !! 0%nat = Some o0 /\ o_props o0 !! "token" = Some p /\
    w_heap w !! 0%nat = Some o /\ o_props o !! "token" = None /\
    o_props o !! "id" = o_props o0 !! "id".
Proof.
  do 4 eexists. split; [vm_compute; reflexivity|].
  split; [vm_compute; reflexivity|]. split; [vm_compute; reflexivity|].
  split; [vm_compute; reflexivity|]. split; vm_compute; reflexivity.
Qed.

(** ** Settlement bookkeeping *)

(** X1. When the pass over the arguments raises nothing, the settlement
    callback updates the three counters: one less in flight, one more
    completed, and the time since the task began added to the total. *)
Lemma settlement_updates_counters now r w h :
  strip_tokens (w_heap w) (t_args (r_task r)) = (h, None) ->
  _count (w_fc (run_job now (JFinally r) w)) = _count (w_fc w) - 1 /\
  _total (w_fc (run_job now (JFinally r) w)) = _total (w_fc w) + 1 /\
  _totalTime (w_fc (run_job now (JFinally r) w)) =
  _totalTime (w_fc w) + (now - r_begin r) /\
  w_heap (run_job now (JFinally r) w) = h.
Proof.
  intros Hs. unfold run_job, finally_callback. cbn. by rewrite Hs.
Qed.

Lemma settlement_updates_counters_witness :
  exists w,
    run [ECall (returns_promise 0) [VObj 0%nat]; ETimer 1000 1000 1000;
         ESettle 0 (Resolved (VNum 7)); EMicrotask 1004; EMicrotask 1004]
        (init_world 60 "api" heap_with_token) = Some w /\
    _total (w_fc (run_job 1004
      (JFinally (mkRunning (_createTask (returns_promise 0) [VObj 0%nat] 0) 1000 0)) w)) =
    _total (w_fc w) + 1.
Proof.
  eexists. split; [vm_compute; reflexivity|].
  refine (proj1 (proj2 (settlement_updates_counters 1004 _ _ _ _))).
  vm_compute. reflexivity.
Defined.

(** X3. When the pass over the arguments raises an exception, [_count]
    has been decremented, [_total] and [_totalTime] are as they were, and
    the rejection of the promise of [.finally] is handled by nobody. *)
Lemma settlement_interrupted now r w h e :
  strip_tokens (w_heap w) (t_args (r_task r)) = (h, Some e) ->
  _count (w_fc (run_job now (JFinally r) w)) = _count (w_fc w) - 1 /\
  _total (w_fc (run_job now (JFinally r) w)) = _total (w_fc w) /\
  _totalTime (w_fc (run_job now (JFinally r) w)) = _totalTime (w_fc w) /\
  w_trace (run_job now (JFinally r) w) =
  w_trace w ++ [OFinally (r_promise r); OUnhandled e].
Proof.
  intros Hs. unfold run_job, finally_callback. cbn. rewrite Hs. cbn.
  by rewrite <- app_assoc.
Qed.

Lemma settlement_interrupted_witness :
  exists w,
    run [ECall (returns_promise 0) [VObj 0%nat]; ETimer 1000 1000 1000;
         ESettle 0 (Resolved (VNum 7)); EMicrotask 1004; EMicrotask 1004]
        (init_world 60 "api" heap_null_prototype) = Some w /\
    _total (w_fc (run_job 1004
      (JFinally (mkRunning (_createTask (returns_promise 0) [VObj 0%nat] 0) 1000 0)) w)) =
    _total (w_fc w).
Proof.
  eexists. split; [vm_compute; reflexivity|].
  refine (proj1 (proj2 (settlement_interrupted 1004 _ _ _ _ _))).
  vm_compute. reflexivity.
Defined.

(** C9 fails on the code when an argument has no [hasOwnProperty]
    (an object made by [Object.create(null)]): the task is dispatched at
    1000, its promise resolves with 7, the caller's promise is resolved with
    7, and the settlement callback, run at 1004, decrements [_count] and then
    throws; [_total] and [_totalTime] stay 0 and the rejection is unhandled. *)
Theorem settlement_throws_before_counters :
  exists w,
    run one_task_settles (init_world 60 "api" heap_null_prototype) = Some w /\
    dispatched w = [0%nat] /\
    settlements 0 w = [Resolved (VNum 7)] /\
    finished w = [0%nat] /\
    _count (w_fc w) = 0 /\ _total (w_fc w) = 0 /\ _totalTime (w_fc w) = 0 /\
    last (w_trace w) =
    Some (OUnhandled (TypeError "arg.hasOwnProperty is not a function")).
Proof.
  eexists. split; [vm_compute; reflexivity|].
  repeat (split; [vm_compute; reflexivity|]). vm_compute. reflexivity.
Qed.

(** The same with a frozen argument that has a [token]: in strict mode
    [delete] throws. *)
Lemma settlement_throws_on_frozen_token :
  exists w,
    run one_task_settles (init_world 60 "api" heap_frozen_token) = Some w /\
    settlements 0 w = [Resolved (VNum 7)] /\
    finished w = [0%nat] /\
    _count (w_fc w) = 0 /\ _total (w_fc w) = 0 /\ _totalTime (w_fc w) = 0 /\
    last (w_trace w) =
    Some (OUnhandled (TypeError "Cannot delete property 'token'")).
Proof.
  eexists. split; [vm_compute; reflexivity|].
  repeat (split; [vm_compute; reflexivity|]). vm_compute. reflexivity.
Qed.

(** ** Every queued task is dispatched *)

Lemma run_app evs1 evs2 w :
  run (evs1 ++ evs2) w = match run evs1 w with Some w1 => run evs2 w1 | None => None end.
Proof.
  revert w. induction evs1 as [|ev evs1 IH]; intros w; cbn; [done|].
  destruct (step ev w); [apply IH|done].
Qed.

Lemma run_job_dispatched now j w : dispatched (run_job now j w) = dispatched w.
Proof.
  unfold dispatched.
  destruct (run_job_trace now j w) as (more & -> & _ & H & _).
  by rewrite tr_dispatched_app, H, app_nil_r.
Qed.

(** Running reaction jobs changes neither the queue, nor the scheduled runs,
    nor the rate, nor what has been dispatched. *)
Lemma microtasks_frame evs w w' :
  Forall (fun ev => match ev with EMicrotask _ => True | _ => False end) evs ->
  run evs w = Some w' ->
  _taskQueue (w_fc w') = _taskQueue (w_fc w) /\
  w_timers w' = w_timers w /\
  _maxFlow (w_fc w') = _maxFlow (w_fc w) /\
  _minInterval (w_fc w') = _minInterval (w_fc w) /\
  dispatched w' = dispatched w.
Proof.
  intros Hall Hr.
  refine (run_invariant_guarded
            (fun ev => match ev with EMicrotask _ => True | _ => False end)
            (fun w1 => _taskQueue (w_fc w1) = _taskQueue (w_fc w) /\
                       w_timers w1 = w_timers w /\
                       _maxFlow (w_fc w1) = _maxFlow (w_fc w) /\
                       _minInterval (w_fc w1) = _minInterval (w_fc w) /\
                       dispatched w1 = dispatched w)
            _ evs w w' Hall _ Hr); [|done].
  intros ev w1 w2 Hev (H1 & H2 & H3 & H4 & H5) Hs.
  destruct ev as [| | |now]; try done. cbv beta iota delta [step] in Hs.
  destruct (w_microtasks w1) as [|j rest]; [done|].
  apply (inj Some) in Hs; subst w2.
  destruct (run_job_frame now j (set_microtasks rest w1)) as (_ & _ & -> & _ & -> & _).
  destruct (run_job_maxFlow now j (set_microtasks rest w1)) as [-> ->].
  rewrite run_job_dispatched. done.
Qed.

Lemma executeTask_queue n1 n2 n3 w t rest :
  _taskQueue (w_fc w) = t :: rest ->
  fst (_checkFlow n1 (w_fc w)) = true ->
  exists new, _taskQueue (w_fc (_executeTask n1 n2 n3 w)) = rest ++ new.
Proof.
  intros Hq Hg.
  destruct (executeTask_result n1 n2 n3 w)
    as [Hq'|Hq' Hg'|t' rest' a Hq' Hg' Hr|t' rest' e Hq' Hg' He]; try congruence;
    rewrite Hq in Hq'; injection Hq' as <- <-;
    destruct (reenter_queue (c_reentry (t_caller t)) (take_head n2 t rest w))
      as (new & Hnew & _);
    exists new.
  - unwrap; rewrite ?reenter_settled; cbn; exact Hnew.
  - unwrap; exact Hnew.
Qed.

Lemma live_executeTask n1 n2 n3 k w :
  live w -> live (_executeTask n1 n2 n3 (set_timers k w)).
Proof.
  intros [_ Hmin]. split; [apply executeTask_scheduled|].
  destruct (executeTask_maxFlow n1 n2 n3 (set_timers k w)) as [-> ->]. exact Hmin.
Qed.

(** From a live state the tasks at the front of the queue are dispatched
    one after the other: the reaction jobs run, then the timer fires at a
    time when the gate is open. *)
Lemma drive q1 :
  forall w q2,
    live w -> _taskQueue (w_fc w) = q1 ++ q2 ->
    exists evs w',
      run evs w = Some w' /\ live w' /\
      dispatched w' = dispatched w ++ (t_promise <$> q1) /\
      exists new, _taskQueue (w_fc w') = q2 ++ new.
Proof.
  induction q1 as [|t q1 IH]; intros w q2 Hlive Hq.
  - exists [], w. repeat split; try apply Hlive.
    + cbn. by rewrite app_nil_r.
    + exists []. by rewrite app_nil_r.
  - destruct (run_drain 0 w) as (w1 & Hd & Hm & _ & _).
    destruct (microtasks_frame (drain 0 w) w w1) as (Hq1 & Ht1 & Hmax1 & Hmin1 & Hd1);
      [apply Forall_replicate; done|done|].
    destruct Hlive as [Htim Hmin].
    destruct (gate_opens (_maxFlow (w_fc w1)) (w_fc w1)) as [now0 Hopen];
      [done|by rewrite Hmin1, Hmax1|].
    rewrite Hq in Hq1. cbn in Hq1.
    destruct (next_run_dispatches w1 t (q1 ++ q2) now0 now0 now0) as (w2 & Hs & Hd2);
      [done| |done|apply Hopen; lia|].
    { rewrite Ht1. apply Htim. by rewrite Hq. }
    pose proof Hs as Hs'. cbv beta iota delta [step] in Hs'. rewrite Hm in Hs'.
    destruct (w_timers w1) as [|k] eqn:Hk; [done|].
    apply (inj Some) in Hs'.
    destruct (executeTask_queue now0 now0 now0 (set_timers k w1) t (q1 ++ q2))
      as (new & Hnew); [done|apply Hopen; lia|].
    rewrite Hs' in Hnew. rewrite <- app_assoc in Hnew.
    destruct (IH w2 (q2 ++ new)) as (evs & w' & Hr & Hlive' & Hd' & new' & Hq').
    { rewrite <- Hs'. apply live_executeTask. split; [|by rewrite Hmin1, Hmax1].
      intros _. rewrite Hk. lia. }
    { exact Hnew. }
    exists (drain 0 w ++ ETimer now0 now0 now0 :: evs), w'.
    split; [|split; [done|split]].
    + rewrite run_app, Hd. cbn [run]. by rewrite Hs.
    + rewrite Hd', Hd2, Hd1. cbn. by rewrite <- app_assoc.
    + exists (new ++ new'). by rewrite Hq', <- app_assoc.
Qed.

(** ** The settlement callback and the caller's objects, exactly *)

Lemma without_token_idemp o : without_token (without_token o) = without_token o.
Proof. unfold without_token. cbn. by rewrite delete_delete_eq. Qed.

Lemma without_token_id o :
  o_props o !! "token" = None -> without_token o = o.
Proof.
  intros H. destruct o as [props flag]. unfold without_token. cbn in *.
  f_equal. by apply delete_id.
Qed.

Lemma strippable_without_token o : strippable o -> strippable (without_token o).
Proof.
  intros [Hf _]. split; [done|]. intros p. cbn. by rewrite lookup_delete_eq.
Qed.

(** One argument: what the heap becomes when no exception is raised, and
    when one is raised. *)
Lemma strip_token_cases h arg :
  (snd (strip_token h arg) = None /\
   (forall l o, arg = VObj l -> h !! l = Some o -> strippable o) /\
   (forall l, arg = VObj l ->
      fst (strip_token h arg) !! l = without_token <$> h !! l) /\
   (forall l, arg <> VObj l -> fst (strip_token h arg) !! l = h !! l)) \/
  (exists e l o, snd (strip_token h arg) = Some e /\ fst (strip_token h arg) = h /\
                 arg = VObj l /\ h !! l = Some o /\ ~ strippable o).
Proof.
  unfold strip_token.
  assert (Hprim : (forall l, arg <> VObj l) ->
            (@None exn = None /\
             (forall l o, arg = VObj l -> h !! l = Some o -> strippable o) /\
             (forall l, arg = VObj l -> h !! l = without_token <$> h !! l) /\
             (forall l, arg <> VObj l -> h !! l = h !! l))).
  { intros Hne. split; [done|]. split; [|split]; try done.
    - intros l o ->. by destruct (Hne l).
    - intros l ->. by destruct (Hne l). }
  destruct arg as [| |b|n|s|l]; cbn;
    try (left; by apply Hprim);
    try (destruct b; left; by apply Hprim);
    try (destruct (negb _); left; by apply Hprim).
  clear Hprim.
  destruct (h !! l) as [o|] eqn:Hl.
  2:{ left. cbn. split; [done|]. split; [|split].
      - intros ? ? [= <-]. congruence.
      - intros ? [= <-]. by rewrite Hl.
      - done. }
  destruct (o_hasOwnProperty o) eqn:Hf.
  2:{ right. eexists _, l, o. cbn. split; [done|]. split; [done|]. split; [done|]. split; [done|].
      intros [H _]. congruence. }
  destruct (o_props o !! "token") as [p|] eqn:Hp.
  2:{ left. cbn. split; [done|]. split; [|split].
      - intros ? ? [= <-]. rewrite Hl. intros [= <-]. split; [done|]. congruence.
      - intros ? [= <-]. rewrite Hl. cbn. by rewrite without_token_id.
      - done. }
  destruct (p_configurable p) eqn:Hc.
  - left. cbn. split; [done|]. split; [|split].
    + intros ? ? [= <-]. rewrite Hl. intros [= <-]. split; [done|].
      intros q. rewrite Hp. by intros [= <-].
    + intros ? [= <-]. rewrite lookup_insert_eq, Hl. cbn. unfold without_token.
      by rewrite Hf.
    + intros l' Hne. rewrite lookup_insert_ne; [done|congruence].
  - right. eexists _, l, o. cbn. split; [done|]. split; [done|]. split; [done|]. split; [done|].
    intros [_ H]. specialize (H p Hp). congruence.
Qed.

(** The pass over all arguments, when it raises no exception. *)
Lemma strip_tokens_success args :
  forall h h',
    strip_tokens h args = (h', None) ->
    args_strippable h args /\
    (forall l, VObj l ∈ args -> h' !! l = without_token <$> h !! l) /\
    (forall l, VObj l ∉ args -> h' !! l = h !! l) /\
    (forall l, h' !! l = h !! l \/ h' !! l = without_token <$> h !! l).
Proof.
  induction args as [|arg rest IH]; intros h h' Hs; cbn in Hs.
  - injection Hs as <-. split; [|split; [|split]]; auto.
    + intros l o Hin. by apply elem_of_nil in Hin.
    + intros l Hin. by apply elem_of_nil in Hin.
  - destruct (strip_token_cases h arg)
      as [(Hnone & Hok & Hat & Hother)|(e & l0 & o0 & Hsome & _)].
    2:{ destruct (strip_token h arg) as [h1 [e1|]]; cbn in Hsome; congruence. }
    destruct (strip_token h arg) as [h1 o1]; cbn in *. subst o1.
    destruct (IH h1 h' Hs) as (IHok & IHin & IHout & IHany).
    assert (Hsame : forall l, arg = VObj l \/ arg <> VObj l).
    { intros l. destruct arg as [| |b|n|s|l']; try (right; congruence).
      destruct (decide (l' = l)) as [->|]; [by left|right; congruence]. }
    split; [|split; [|split]].
    + intros l o Hin Hl. destruct (Hsame l) as [->|Hne]; [by eapply Hok|].
      apply elem_of_cons in Hin as [Heq|Hin]; [congruence|].
      apply (IHok l o Hin). by rewrite Hother.
    + intros l Hin. destruct (Hsame l) as [->|Hne].
      * destruct (IHany l) as [->| ->]; rewrite Hat by done; [done|].
        destruct (h !! l); cbn; [|done]. by rewrite without_token_idemp.
      * apply elem_of_cons in Hin as [Heq|Hin]; [congruence|].
        rewrite IHin by done. by rewrite Hother.
    + intros l Hout. apply not_elem_of_cons in Hout as [Hne Hout].
      rewrite IHout by done. apply Hother. congruence.
    + intros l. destruct (Hsame l) as [->|Hne].
      * right. destruct (IHany l) as [->| ->]; rewrite Hat by done; [done|].
        destruct (h !! l); cbn; [|done]. by rewrite without_token_idemp.
      * destruct (IHany l) as [->| ->]; rewrite Hother by done; auto.
Qed.

(** It raises no exception when every object among the arguments is
    [strippable]. *)
Lemma strip_tokens_strippable args :
  forall h, args_strippable h args -> snd (strip_tokens h args) = None.
Proof.
  induction args as [|arg rest IH]; intros h Hok; cbn; [done|].
  destruct (strip_token_cases h arg)
    as [(Hnone & _ & Hat & Hother)|(e & l & o & _ & _ & -> & Hl & Hno)].
  2:{ destruct Hno. apply (Hok l o); [left|done]. }
  destruct (strip_token h arg) as [h1 o1]; cbn in *. subst o1.
  apply IH. intros l o Hin Hl.
  assert (Hsame : arg = VObj l \/ arg <> VObj l).
  { destruct arg as [| |b|n|s|l']; try (right; congruence).
    destruct (decide (l' = l)) as [->|]; [by left|right; congruence]. }
  destruct Hsame as [->|Hne].
  - rewrite Hat in Hl by done. destruct (h !! l) as [o'|] eqn:Hl'; [|done].
    injection Hl as <-. apply strippable_without_token.
    apply (Hok l o'); [left|done].
  - rewrite Hother in Hl by done. apply (Hok l o); [by right|done].
Qed.

Lemma finally_callback_strip now r w :
  w_heap (fst (finally_callback now r w)) =
    fst (strip_tokens (w_heap w) (t_args (r_task r))) /\
  snd (finally_callback now r w) = snd (strip_tokens (w_heap w) (t_args (r_task r))).
Proof.
  unfold finally_callback. cbn.
  by destruct (strip_tokens (w_heap w) (t_args (r_task r))) as [h [e|]].
Qed.

(** X5. The callback given to [.finally] completes without an exception
    exactly when every object among the task's arguments that is on the heap
    inherits [hasOwnProperty] and has no [token] property that is not
    configurable; in every other case it throws (after [_count--]). *)
Theorem settlement_callback_completes_iff now r w :
  snd (finally_callback now r w) = None <->
  args_strippable (w_heap w) (t_args (r_task r)).
Proof.
  destruct (finally_callback_strip now r w) as [_ ->]. split.
  - intros Hs.
    destruct (strip_tokens (w_heap w) (t_args (r_task r))) as [h' o] eqn:Hst.
    cbn in Hs. subst o. by apply strip_tokens_success in Hst as [? _].
  - apply strip_tokens_strippable.
Qed.

(** X6. When the callback given to [.finally] completes, every object
    among the task's arguments has lost its own [token] property and nothing
    else, and every other object of the heap is what it was. *)
Theorem settlement_strips_every_argument now r w w' :
  finally_callback now r w = (w', None) ->
  (forall l, VObj l ∈ t_args (r_task r) ->
     w_heap w' !! l = without_token <$> w_heap w !! l) /\
  (forall l, VObj l ∉ t_args (r_task r) -> w_heap w' !! l = w_heap w !! l) /\
  (forall l o', VObj l ∈ t_args (r_task r) -> w_heap w' !! l = Some o' ->
     o_props o' !! "token" = None).
Proof.
  intros Hf. destruct (finally_callback_strip now r w) as [Hh Hn].
  rewrite Hf in Hh, Hn. cbn in Hh, Hn.
  destruct (strip_tokens (w_heap w) (t_args (r_task r))) as [h' o] eqn:Hst.
  cbn in Hh, Hn. subst o h'.
  apply strip_tokens_success in Hst as (_ & Hin & Hout & _).
  split; [exact Hin|]. split; [exact Hout|].
  intros l o' Hl Ho'. rewrite Hin in Ho' by done.
  destruct (w_heap w !! l) as [o|]; [|done]. injection Ho' as <-.
  cbn. by rewrite lookup_delete_eq.
Qed.

Lemma settlement_strips_every_argument_witness :
  exists w',
    finally_callback 1004
      (mkRunning (_createTask (returns_promise 0) [VObj 0%nat; VNum 3] 0) 1000 0)
      (init_world 60 "api" heap_with_token) = (w', None) /\
    w_heap w' !! 0%nat = without_token <$> heap_with_token !! 0%nat.
Proof.
  pose (r := mkRunning (_createTask (returns_promise 0) [VObj 0%nat; VNum 3] 0) 1000 0).
  pose (w := init_world 60 "api" heap_with_token).
  assert (H : finally_callback 1004 r w = (fst (finally_callback 1004 r w), None))
    by (vm_compute; reflexivity).
  exists (fst (finally_callback 1004 r w)). split; [exact H|].
  apply (proj1 (settlement_strips_every_argument 1004 r w _ H)). left.
Defined.

(** ** One run of the driving loop in full, and the books of the queue *)

Lemma tr_unhandled_app t1 t2 : tr_unhandled (t1 ++ t2) = tr_unhandled t1 ++ tr_unhandled t2.
Proof. apply omap_app. Qed.

Lemma tr_unhandled_submits l : tr_unhandled (OSubmit <$> l) = [].
Proof. induction l; [done|]. cbn. done. Qed.

Lemma tasks_of_promises l : forall p, t_promise <$> tasks_of l p = seq p (length l).
Proof.
  induction l as [|[c a] l IH]; intros p; cbn; [done|]. by rewrite IH.
Qed.

Lemma tasks_of_length l p : length (tasks_of l p) = length l.
Proof. by rewrite <- (length_fmap t_promise), tasks_of_promises, length_seq. Qed.

(** What a sequence of calls does to the queue, the promise numbers and the
    scheduled runs. *)
Lemma reenter_queue_exact l :
  forall w,
    _taskQueue (w_fc (reenter l w)) = _taskQueue (w_fc w) ++ tasks_of l (w_next w) /\
    w_next (reenter l w) = (w_next w + length l)%nat /\
    w_timers (reenter l w) =
    (w_timers w + match _taskQueue (w_fc w), l with [], _ :: _ => 1 | _, _ => 0 end)%nat.
Proof.
  induction l as [|[c a] l IH]; intros w.
  - cbn. rewrite app_nil_r. split; [done|]. split; [lia|].
    destruct (_taskQueue (w_fc w)); lia.
  - rewrite reenter_cons. destruct (IH (snd (call c a w))) as (Hq & Hn & Ht).
    destruct (call_timers c a w) as [Hct Hcq].
    rewrite Hq, Hn, Ht, Hct, Hcq. clear Hq Hn Ht Hct Hcq IH.
    assert (Hnext : w_next (snd (call c a w)) = S (w_next w)).
    { unfold call. cbn. by destruct (length (_taskQueue (w_fc w)) <=? 0)%nat. }
    rewrite Hnext. cbn [tasks_of length]. rewrite <- app_assoc. cbn [app].
    split; [done|]. split; [lia|].
    destruct (_taskQueue (w_fc w)); cbn; destruct l; lia.
Qed.

Lemma run_submit_all l : forall w, run (submit_all l) w = Some (reenter l w).
Proof.
  induction l as [|[c a] l IH]; intros w; [done|].
  cbn. rewrite IH. done.
Qed.

(** One run of [_executeTask], in full: nothing happens (and the run is
    scheduled again if the gate was closed), or the head of the queue is
    dispatched. *)
Lemma executeTask_effect n1 n2 n3 w :
  (_taskQueue (w_fc w) = [] /\ _executeTask n1 n2 n3 w = w) \/
  (_taskQueue (w_fc w) <> [] /\ fst (_checkFlow n1 (w_fc w)) = false /\
   _executeTask n1 n2 n3 w = setTimeout w) \/
  (exists t rest tail,
     _taskQueue (w_fc w) = t :: rest /\ fst (_checkFlow n1 (w_fc w)) = true /\
     w_trace (_executeTask n1 n2 n3 w) =
       w_trace w ++ ODispatch (t_promise t) n2 ::
         (OSubmit <$> seq (w_next w) (length (c_reentry (t_caller t)))) ++ tail /\
     _taskQueue (w_fc (_executeTask n1 n2 n3 w)) =
       rest ++ tasks_of (c_reentry (t_caller t)) (w_next w) /\
     _total (w_fc (_executeTask n1 n2 n3 w)) = _total (w_fc w) /\
     _totalTime (w_fc (_executeTask n1 n2 n3 w)) = _totalTime (w_fc w) /\
     _lastExecuteTime (w_fc (_executeTask n1 n2 n3 w)) = n2 /\
     ((exists a m, c_result (t_caller t) = SReturnPromise a /\
                   tail = [OReturned (t_promise t) a; OLog Debug m]) \/
      (exists e, thrown_by (t_caller t) = Some e /\
                 tail = [OLog Error (MsgError e)]))).
Proof.
  destruct (executeTask_result n1 n2 n3 w)
    as [Hq|Hq Hg|t rest a Hq Hg Hr|t rest e Hq Hg He].
  - by left.
  - right. by left.
  - right. right.
    destruct (promise_path_trace t rest n2 n3 a w) as [m Htr].
    exists t, rest, [OReturned (t_promise t) a; OLog Debug m].
    split; [done|]. split; [done|]. split; [exact Htr|].
    destruct (reenter_queue_exact (c_reentry (t_caller t)) (take_head n2 t rest w))
      as (Hrq & _).
    split; [|split; [|split; [|split]]].
    + unwrap; rewrite ?reenter_settled; cbn; exact Hrq.
    + unwrap; by rewrite ?reenter_total.
    + unwrap; by rewrite ?reenter_totalTime.
    + unwrap; by rewrite ?reenter_lastExecuteTime.
    + left. by exists a, m.
  - right. right.
    exists t, rest, [OLog Error (MsgError e)].
    split; [done|]. split; [done|]. split; [apply thrown_path_trace|].
    destruct (reenter_queue_exact (c_reentry (t_caller t)) (take_head n2 t rest w))
      as (Hrq & _).
    split; [|split; [|split; [|split]]].
    + unwrap; exact Hrq.
    + unwrap; by rewrite ?reenter_total.
    + unwrap; by rewrite ?reenter_totalTime.
    + unwrap; by rewrite ?reenter_lastExecuteTime.
    + right. by exists e.
Qed.

Lemma call_trace c a w :
  w_trace (snd (call c a w)) = w_trace w ++ [OSubmit (w_next w)] /\
  _total (w_fc (snd (call c a w))) = _total (w_fc w) /\
  _totalTime (w_fc (snd (call c a w))) = _totalTime (w_fc w).
Proof.
  unfold call. cbn. by destruct (length (_taskQueue (w_fc w)) <=? 0)%nat.
Qed.

Lemma run_job_ledger now j w :
  exists more,
    w_trace (run_job now j w) = w_trace w ++ more /\
    tr_dispatched more = [] /\ tr_returned more = [] /\ tr_errors more = [] /\
    Z.of_nat (length (tr_finished more)) =
    _total (w_fc (run_job now j w)) - _total (w_fc w) +
    Z.of_nat (length (tr_unhandled more)) /\
    _total (w_fc w) <= _total (w_fc (run_job now j w)).
Proof.
  destruct j as [r [v|e]|r [v|e]|r]; cbn.
  - exists [OResolve (r_promise r) v]. cbn. repeat split; lia.
  - exists []. cbn. rewrite app_nil_r. repeat split; lia.
  - exists []. cbn. rewrite app_nil_r. repeat split; lia.
  - exists [OReject (r_promise r) e]. cbn. repeat split; lia.
  - unfold finally_callback. cbn.
    destruct (strip_tokens (w_heap w) (t_args (r_task r))) as [h [e|]]; cbn.
    + exists [OFinally (r_promise r); OUnhandled e]. cbn.
      rewrite <- app_assoc. cbn. repeat split; lia.
    + eexists [OFinally (r_promise r); OLog Debug _]. cbn.
      rewrite <- app_assoc. cbn. repeat split; lia.
Qed.

Lemma ledger_step ev w w' : ledger w -> step ev w = Some w' -> ledger w'.
Proof.
  unfold ledger, dispatched, returned, errors, finished, unhandled.
  intros (Hd & Hf & Ht) Hs. destruct ev as [c a|n1 n2 n3|a o|now];
    cbv beta iota delta [step] in Hs.
  - apply (inj Some) in Hs. subst w'.
    destruct (call_trace c a w) as (-> & -> & _).
    rewrite tr_dispatched_app, tr_returned_app, tr_errors_app, tr_finished_app,
      tr_unhandled_app. cbn. rewrite !app_nil_r. done.
  - destruct (w_timers w) as [|k]; [done|].
    destruct (w_microtasks w) eqn:Hm; [|done].
    apply (inj Some) in Hs. subst w'.
    destruct (executeTask_effect n1 n2 n3 (set_timers k w))
      as [[_ ->]|[(_ & _ & ->)|(t & rest & tail & _ & _ & -> & _ & -> & _ & _ & Htail)]];
      [done|done|].
    cbn [w_trace set_timers w_fc].
    rewrite tr_dispatched_app, tr_returned_app, tr_errors_app, tr_finished_app,
      tr_unhandled_app.
    change (?x :: ?l ++ ?t) with ([x] ++ l ++ t).
    rewrite !tr_dispatched_app, !tr_returned_app, !tr_errors_app, !tr_finished_app,
      !tr_unhandled_app.
    rewrite tr_dispatched_submits, tr_returned_submits, tr_errors_submits,
      tr_finished_submits, tr_unhandled_submits.
    destruct Htail as [(a & m & _ & ->)|(e & _ & ->)]; cbn;
      rewrite ?app_nil_r, !length_app; cbn; (split; [|split]); lia.
  - destruct (w_settled w !! a); [done|]. apply (inj Some) in Hs. subst w'. done.
  - destruct (w_microtasks w) as [|j rest]; [done|].
    apply (inj Some) in Hs. subst w'.
    destruct (run_job_ledger now j (set_microtasks rest w))
      as (more & -> & Hmd & Hmr & Hme & Hmf & Hmt).
    cbn [w_trace set_microtasks w_fc] in *.
    rewrite tr_dispatched_app, tr_returned_app, tr_errors_app, tr_finished_app,
      tr_unhandled_app, Hmd, Hmr, Hme, !app_nil_r, !length_app.
    split; [done|]. split; lia.
Qed.

Lemma ledger_init maxFlow name h : ledger (init_world maxFlow name h).
Proof. by repeat split. Qed.

(** X7. One run of [_executeTask] dispatches at most one task, whatever
    the rate (also with no limit at all): either it dispatches nothing and
    leaves the queue as it is (the queue is empty or the gate is closed), or
    it takes the head of the queue, records the time read for
    [_lastExecuteTime] as its dispatch time, and leaves the rest of the queue
    in order, followed by the tasks the invoked callable submitted, which get
    the next promise numbers. *)
Theorem run_dispatches_at_most_one n1 n2 n3 w :
  (dispatched (_executeTask n1 n2 n3 w) = dispatched w /\
   _taskQueue (w_fc (_executeTask n1 n2 n3 w)) = _taskQueue (w_fc w) /\
   (_taskQueue (w_fc w) = [] \/ fst (_checkFlow n1 (w_fc w)) = false)) \/
  (exists t rest,
     _taskQueue (w_fc w) = t :: rest /\ fst (_checkFlow n1 (w_fc w)) = true /\
     dispatched (_executeTask n1 n2 n3 w) = dispatched w ++ [t_promise t] /\
     dispatch_times (_executeTask n1 n2 n3 w) = dispatch_times w ++ [n2] /\
     _taskQueue (w_fc (_executeTask n1 n2 n3 w)) =
       rest ++ tasks_of (c_reentry (t_caller t)) (w_next w) /\
     submitted (_executeTask n1 n2 n3 w) =
       submitted w ++ seq (w_next w) (length (c_reentry (t_caller t)))).
Proof.
  destruct (executeTask_effect n1 n2 n3 w)
    as [[Hq ->]|[(Hq & Hg & ->)|(t & rest & tail & Hq & Hg & Htr & Hq' & _ & _ & _ & Htail)]].
  - left. auto.
  - left. auto.
  - right. exists t, rest. split; [done|]. split; [done|].
    unfold dispatched, dispatch_times, submitted. rewrite Htr.
    change (?x :: ?l ++ ?t) with ([x] ++ l ++ t).
    rewrite !tr_dispatched_app, !tr_dispatch_times_app, !tr_submitted_app,
      tr_dispatched_submits, tr_dispatch_times_submits, tr_submitted_submits.
    split; [|split; [|split; [exact Hq'|]]];
      destruct Htail as [(a & m & _ & ->)|(e & _ & ->)]; cbn;
      by rewrite ?app_nil_r.
Qed.

Lemma set_timers_back k w : w_timers w = S k -> setTimeout (set_timers k w) = w.
Proof. intros H. destruct w. cbn in *. by subst. Qed.

(** X8. A timer callback that does not dispatch leaves no mark: with a
    task queued and the gate closed the whole state after the callback,
    scheduled runs included, is the state before it (the loop polls again at
    the next tick); with nothing queued it only uses up the timer. *)
Theorem run_without_dispatch_changes_nothing n1 n2 n3 w w' :
  step (ETimer n1 n2 n3) w = Some w' ->
  (_taskQueue (w_fc w) <> [] -> fst (_checkFlow n1 (w_fc w)) = false -> w' = w) /\
  (_taskQueue (w_fc w) = [] -> w' = set_timers (Nat.pred (w_timers w)) w).
Proof.
  intros Hs. cbv beta iota delta [step] in Hs.
  destruct (w_timers w) as [|k] eqn:Hk; [done|].
  destruct (w_microtasks w) eqn:Hm; [|done].
  apply (inj Some) in Hs. subst w'.
  destruct (executeTask_effect n1 n2 n3 (set_timers k w))
    as [[Hq ->]|[(Hq & Hg & ->)|(t & rest & tail & Hq & Hg & _)]];
    cbn [w_fc set_timers] in *.
  - split; [congruence|done].
  - split; [|congruence]. intros _ _. by apply set_timers_back.
  - split; congruence.
Qed.

Lemma run_without_dispatch_changes_nothing_witness :
  exists w w',
    run [ECall (returns_promise 0) []; ECall (returns_promise 1) [];
         ETimer 1000 1000 1000] (init_world 60 "api" ∅) = Some w /\
    step (ETimer 1500 1500 1500) w = Some w' /\ w' = w.
Proof.
  do 2 eexists. split; [vm_compute; reflexivity|].
  split; [vm_compute; reflexivity|].
  refine (proj1 (run_without_dispatch_changes_nothing 1500 1500 1500 _ _ _) _ _);
    [vm_compute; reflexivity|vm_compute; congruence|vm_compute; reflexivity].
Defined.

Lemma last_dispatch_step ev w w' :
  _lastExecuteTime (w_fc w) = default 0 (last (dispatch_times w)) ->
  step ev w = Some w' ->
  _lastExecuteTime (w_fc w') = default 0 (last (dispatch_times w')).
Proof.
  intros H Hs. destruct ev as [c a|n1 n2 n3|a o|now];
    cbv beta iota delta [step] in Hs.
  - apply (inj Some) in Hs. subst w'.
    destruct (call_dispatch_times c a w) as [-> ->]. done.
  - destruct (w_timers w) as [|k]; [done|].
    destruct (w_microtasks w) eqn:Hm; [|done].
    apply (inj Some) in Hs. subst w'.
    destruct (executeTask_effect n1 n2 n3 (set_timers k w))
      as [[_ ->]|[(_ & _ & ->)|(t & rest & tail & Hq & Hg & _)]]; [done|done|].
    destruct (executeTask_dispatches n1 n2 n3 _ t rest Hq Hg) as [_ ->].
    rewrite (executeTask_lastExecuteTime n1 n2 n3 _ t rest Hq Hg).
    by rewrite last_snoc.
  - destruct (w_settled w !! a); [done|]. apply (inj Some) in Hs. by subst w'.
  - destruct (w_microtasks w) as [|j rest]; [done|].
    apply (inj Some) in Hs. subst w'.
    rewrite run_job_dispatch_times.
    destruct (run_job_frame now j (set_microtasks rest w)) as (_ & _ & _ & _ & _ & -> & _).
    done.
Qed.

(** X9. In every state reached from a new queue, whatever the rate and
    whatever the clock, [_lastExecuteTime] is 0 as long as nothing was
    dispatched and the time recorded at the latest dispatch afterwards: a gate
    check that fails, a submission and a settlement never change it. *)
Theorem lastExecuteTime_is_last_dispatch_time maxFlow name h evs w :
  run evs (init_world maxFlow name h) = Some w ->
  _lastExecuteTime (w_fc w) = default 0 (last (dispatch_times w)).
Proof.
  apply (run_invariant
    (fun w => _lastExecuteTime (w_fc w) = default 0 (last (dispatch_times w)))).
  - intros ev w0 w1. apply last_dispatch_step.
  - done.
Qed.

Lemma lastExecuteTime_is_last_dispatch_time_witness :
  exists w, run three_tasks_spaced (init_world 60 "api" ∅) = Some w /\
            _lastExecuteTime (w_fc w) = default 0 (last (dispatch_times w)) /\
            dispatch_times w = [1000; 2001; 3002].
Proof.
  eexists. split; [vm_compute; reflexivity|].
  split; [|vm_compute; reflexivity].
  apply (lastExecuteTime_is_last_dispatch_time 60 "api" ∅ three_tasks_spaced).
  vm_compute. reflexivity.
Defined.

(** X10. The books balance in every state reached from a new queue: each
    dispatch either chained the settlement on the promise the callable
    returned or was logged once at error level; each settlement callback that
    started either counted its task in [_total] or threw; so every submitted
    task is exactly one of queued, failed at dispatch, in flight ([_count]),
    completed ([_total]), or lost by a throwing settlement callback. *)
Theorem every_task_is_accounted_for maxFlow name h evs w :
  run evs (init_world maxFlow name h) = Some w ->
  length (dispatched w) = (length (returned w) + length (errors w))%nat /\
  Z.of_nat (length (finished w)) =
    _total (w_fc w) + Z.of_nat (length (unhandled w)) /\
  0 <= _total (w_fc w) <= Z.of_nat (length (finished w)) /\
  Z.of_nat (length (submitted w)) =
    Z.of_nat (length (pending w)) + Z.of_nat (length (errors w)) +
    _count (w_fc w) + _total (w_fc w) + Z.of_nat (length (unhandled w)).
Proof.
  intros Hr.
  assert (Hl : ledger w).
  { revert Hr. apply (run_invariant ledger); [|apply ledger_init].
    intros ev w0 w1. apply ledger_step. }
  assert (Hwf : wf w) by (eapply wf_run; [apply wf_init|exact Hr]).
  destruct Hl as (Hd & Hf & Ht).
  pose proof (wf_returned _ _ _ _ _ _ _ Hwf) as Hperm.
  pose proof (wf_fifo _ _ _ _ _ _ _ Hwf) as Hfifo.
  pose proof (wf_count _ _ _ _ _ _ _ Hwf) as Hcount.
  fold (returned w) (finished w) (dispatched w) (submitted w) (pending w) in *.
  assert (Hret : length (returned w) =
                 (length (finished w) + (length (w_waiting w) + length (w_microtasks w)))%nat).
  { rewrite <- (length_fmap fst (returned w)), Hperm.
    by rewrite !length_app, !length_fmap. }
  assert (Hsub : length (submitted w) = (length (dispatched w) + length (pending w))%nat).
  { rewrite Hfifo. by rewrite length_app. }
  split; [exact Hd|]. split; [exact Hf|]. split; lia.
Qed.

Lemma every_task_is_accounted_for_witness :
  exists w, run one_task_settles (init_world 60 "api" heap_null_prototype) = Some w /\
            Z.of_nat (length (finished w)) =
            _total (w_fc w) + Z.of_nat (length (unhandled w)) /\
            length (unhandled w) = 1%nat.
Proof.
  eexists. split; [vm_compute; reflexivity|].
  split; [|vm_compute; reflexivity].
  apply (every_task_is_accounted_for 60 "api" heap_null_prototype one_task_settles).
  vm_compute. reflexivity.
Defined.

(** X11. Calls made one after the other, with nothing else in between,
    queue their tasks behind the tasks already queued, in the order of the
    calls and with consecutive promise numbers; together they schedule one
    run of the driving loop when the queue was empty and none otherwise; and
    they invoke no callable, touch no argument object and leave [_count] and
    [_lastExecuteTime] alone. *)
Theorem back_to_back_submissions l w :
  exists w',
    run (submit_all l) w = Some w' /\
    _taskQueue (w_fc w') = _taskQueue (w_fc w) ++ tasks_of l (w_next w) /\
    pending w' = pending w ++ seq (w_next w) (length l) /\
    submitted w' = submitted w ++ seq (w_next w) (length l) /\
    w_timers w' =
      (w_timers w + match _taskQueue (w_fc w), l with [], _ :: _ => 1 | _, _ => 0 end)%nat /\
    dispatched w' = dispatched w /\
    w_heap w' = w_heap w /\
    _count (w_fc w') = _count (w_fc w) /\
    _lastExecuteTime (w_fc w') = _lastExecuteTime (w_fc w).
Proof.
  exists (reenter l w). split; [apply run_submit_all|].
  destruct (reenter_queue_exact l w) as (Hq & _ & Ht).
  split; [exact Hq|]. split.
  { unfold pending. by rewrite Hq, fmap_app, tasks_of_promises. }
  split.
  { unfold submitted. by rewrite reenter_trace, tr_submitted_app, tr_submitted_submits. }
  split; [exact Ht|]. split; [apply reenter_dispatched|].
  split; [apply reenter_heap|]. split; [apply reenter_count|].
  apply reenter_lastExecuteTime.
Qed.

(** ** Callables that return no promise; tasks that are running *)

(** X12. A callable that returns something that is no promise (a function
    that is not [async], say) fails at dispatch: in a state reached from a
    new queue, the run that dispatches its task logs a [TypeError] at error
    level, leaves [_count] and [_total] as they were and keeps the tasks
    behind it queued; in every state reached afterwards the promise that
    [call] returned for it has been neither resolved nor rejected and its
    settlement callback has not run. *)
Theorem non_promise_result_fails_at_dispatch
    maxFlow name h evs w t rest v n1 n2 n3 w' :
  run evs (init_world maxFlow name h) = Some w ->
  _taskQueue (w_fc w) = t :: rest ->
  c_result (t_caller t) = SReturnOther v ->
  fst (_checkFlow n1 (w_fc w)) = true ->
  step (ETimer n1 n2 n3) w = Some w' ->
  dispatched w' = dispatched w ++ [t_promise t] /\
  (exists msg, errors w' = errors w ++ [TypeError msg]) /\
  _count (w_fc w') = _count (w_fc w) /\
  _total (w_fc w') = _total (w_fc w) /\
  (exists new, _taskQueue (w_fc w') = rest ++ new) /\
  (forall evs' w'',
     run evs' w' = Some w'' ->
     settlements (t_promise t) w'' = [] /\
     (t_promise t ∉ finished w'') /\
     (t_promise t ∉ inflight w'')).
Proof.
  intros Hr Hq Hres Hg Hs.
  assert (Hwf : wf w) by (eapply wf_run; [apply wf_init|exact Hr]).
  assert (Hwf' : wf w') by (eapply wf_step; eauto).
  cbv beta iota delta [step] in Hs.
  destruct (w_timers w) as [|k] eqn:Hk; [done|].
  destruct (w_microtasks w) eqn:Hm; [|done].
  apply (inj Some) in Hs.
  assert (He : thrown_by (t_caller t) =
               Some (TypeError "caller(...).then is not a function")).
  { unfold thrown_by. by rewrite Hres. }
  destruct (thrown_run n1 n2 n3 (set_timers k w) t rest _ Hq Hg He)
    as (_ & Herr & _ & Hret & _ & _ & Htot & _ & new & Hnew).
  pose proof (executeTask_count n1 n2 n3 (set_timers k w) t rest Hq Hg) as Hcount.
  destruct (executeTask_dispatches n1 n2 n3 (set_timers k w) t rest Hq Hg) as [Hd _].
  rewrite He in Hcount. rewrite Hs in *.
  split; [exact Hd|].
  split; [by eexists|].
  split; [cbn in Hcount; lia|].
  split; [exact Htot|]. split; [by exists new|].
  intros evs' w'' Hr'.
  apply abandoned_never_settles.
  revert Hr'. apply (run_invariant (abandoned (t_promise t))).
  { intros ev w0 w1. apply abandoned_step. }
  split; [done|]. split.
  - rewrite Hd. apply elem_of_app. right. left.
  - rewrite Hret. intros Hin.
    apply (wf_parts_pending_fresh _ _ _ _ _ _ _ (t_promise t) Hwf).
    + rewrite Hq. cbn. left.
    + by apply (wf_returned_dispatched _ _ _ _ _ _ _ Hwf).
Qed.

Lemma non_promise_result_fails_at_dispatch_witness :
  exists w w',
    run [ECall (returns_value (VNum 7)) []; ECall (returns_promise 1) []]
        (init_world 0 "api" ∅) = Some w /\
    step (ETimer 1000 1000 1000) w = Some w' /\
    dispatched w' = dispatched w ++ [0%nat] /\
    _count (w_fc w') = 0.
Proof.
  do 2 eexists. split; [vm_compute; reflexivity|].
  split; [vm_compute; reflexivity|].
  split; [|vm_compute; reflexivity].
  refine (proj1 (non_promise_result_fails_at_dispatch 0 "api" ∅
            [ECall (returns_value (VNum 7)) []; ECall (returns_promise 1) []]
            _ (_createTask (returns_value (VNum 7)) [] 0)
            [_createTask (returns_promise 1) [] 1] (VNum 7) 1000 1000 1000 _
            _ _ _ _ _));
    vm_compute; reflexivity.
Defined.

Lemma waiting_returned w r :
  wf w -> r ∈ w_waiting w ->
  (r_promise r, r_await r) ∈ returned w /\ w_settled w !! r_await r = None.
Proof.
  intros Hwf Hin.
  pose proof (wf_waiting _ _ _ _ _ _ _ Hwf) as Hw.
  rewrite Forall_forall in Hw. destruct (Hw r Hin) as (? & ? & _). done.
Qed.

Lemma quiescent_finished w p a :
  wf w -> w_microtasks w = [] -> (p, a) ∈ returned w ->
  (p ∈ finished w <-> is_Some (w_settled w !! a)) /\
  (p ∈ r_promise <$> w_waiting w <-> w_settled w !! a = None).
Proof.
  intros Hwf Hm Hin.
  pose proof (wf_returned _ _ _ _ _ _ _ Hwf) as Hperm.
  pose proof (wf_returned_nodup _ _ _ _ _ _ _ Hwf) as Hnd.
  rewrite Hm in Hperm. cbn in Hperm. rewrite app_nil_r in Hperm.
  fold (returned w) (finished w) in *.
  assert (Hp : p ∈ finished w \/ p ∈ r_promise <$> w_waiting w).
  { apply elem_of_app. rewrite <- Hperm. apply list_elem_of_fmap.
    by exists (p, a). }
  assert (Hfin : p ∈ finished w -> is_Some (w_settled w !! a)).
  { intros Hf. destruct (wf_finished _ _ _ _ _ _ _ Hwf p a Hin Hf) as (o & -> & _).
    by eexists. }
  assert (Hwait : p ∈ r_promise <$> w_waiting w -> w_settled w !! a = None).
  { intros Hw. apply list_elem_of_fmap in Hw as (r & -> & Hr).
    destruct (waiting_returned w r Hwf Hr) as [Hret Hnone].
    by rewrite (returned_functional _ _ _ _ Hnd Hin Hret). }
  split; split; auto.
  - intros [o Ho]. destruct Hp as [|Hw]; [done|]. apply Hwait in Hw. congruence.
  - intros Hn. destruct Hp as [Hf|]; [|done]. apply Hfin in Hf as [o Ho]. congruence.
Qed.

(** X13. At the points where a timer callback can run (no promise
    reaction is waiting in the microtask queue), in every state reached from
    a new queue: a dispatched task has finished (its settlement callback has
    started) exactly when the promise its callable returned has settled, and
    [_count] is exactly the number of dispatched tasks whose promise has not
    settled yet. *)
Theorem count_is_number_of_unsettled maxFlow name h evs w :
  run evs (init_world maxFlow name h) = Some w ->
  w_microtasks w = [] ->
  (forall p a, (p, a) ∈ returned w ->
     (p ∈ finished w <-> is_Some (w_settled w !! a))) /\
  _count (w_fc w) = Z.of_nat (length (unsettled w)).
Proof.
  intros Hr Hm.
  assert (Hwf : wf w) by (eapply wf_run; [apply wf_init|exact Hr]).
  split; [intros p a Hin; by apply quiescent_finished|].
  pose proof (wf_returned _ _ _ _ _ _ _ Hwf) as Hperm.
  pose proof (wf_returned_nodup _ _ _ _ _ _ _ Hwf) as Hnd.
  pose proof (wf_count _ _ _ _ _ _ _ Hwf) as Hcount.
  rewrite Hm in Hperm, Hcount. cbn in Hperm, Hcount. rewrite app_nil_r in Hperm.
  fold (returned w) (finished w) in *.
  assert (Hnw : NoDup (r_promise <$> w_waiting w)).
  { rewrite Hperm in Hnd. by apply NoDup_app in Hnd as (_ & _ & ?). }
  assert (Hsame : (unsettled w).*1 ≡ₚ r_promise <$> w_waiting w).
  { apply NoDup_Permutation; [|done|].
    - eapply sublist_NoDup; [exact Hnd|]. apply fmap_sublist, sublist_filter.
    - intros p. split.
      + intros ([p' a] & -> & [Hnone Hin]%list_elem_of_filter)%list_elem_of_fmap.
        cbn in *. by apply (quiescent_finished w p' a Hwf Hm Hin).
      + intros (r & -> & Hin)%list_elem_of_fmap.
        destruct (waiting_returned w r Hwf Hin) as [Hret Hnone].
        apply list_elem_of_fmap. exists (r_promise r, r_await r). split; [done|].
        apply list_elem_of_filter. by split. }
  rewrite Hcount, Nat.add_0_r. f_equal.
  by rewrite <- (length_fmap fst (unsettled w)), Hsame, length_fmap.
Qed.

Lemma count_is_number_of_unsettled_witness :
  exists w,
    run second_task_settles_first (init_world 60 "api" ∅) = Some w /\
    _count (w_fc w) = Z.of_nat (length (unsettled w)) /\
    unsettled w = [(0, 0)%nat].
Proof.
  eexists. split; [vm_compute; reflexivity|].
  split; [|vm_compute; reflexivity].
  refine (proj2 (count_is_number_of_unsettled 60 "api" ∅
                   second_task_settles_first _ _ _));
    vm_compute; reflexivity.
Defined.

(** ** The rate over longer stretches *)

(** Entries [k] places apart are at least [k] gaps apart. *)
Lemma spaced_span gap l :
  spaced gap l ->
  forall k i t t',
    l !! i = Some t -> l !! (i + k)%nat = Some t' ->
    (inject_Z (Z.of_nat k) * gap <= inject_Z (t' - t))%Q.
Proof.
  intros Hsp. induction k as [|k IH]; intros i t t' Hi Hk.
  - rewrite Nat.add_0_r in Hk. assert (t' = t) as -> by congruence.
    rewrite Z.sub_diag. change (Z.of_nat 0) with 0. change (inject_Z 0) with 0%Q. lra.
  - assert (Hlt : (i + k < length l)%nat).
    { apply lookup_lt_Some in Hk. lia. }
    destruct (lookup_lt_is_Some_2 l (i + k)%nat Hlt) as [tk Htk].
    pose proof (IH i t tk Hi Htk) as H1.
    replace (i + S k)%nat with (S (i + k)) in Hk by lia.
    pose proof (Hsp (i + k)%nat tk t' Htk Hk) as H2.
    replace (t' - t) with ((tk - t) + (t' - tk)) by lia.
    rewrite Nat2Z.inj_succ. unfold Z.succ. rewrite !inject_Z_plus.
    change (inject_Z 1) with 1%Q. lra.
Qed.

(** X14. With a rate [M > 0] and a clock that does not go backwards
    between the gate check and the dispatch of one run, dispatches [k] places
    apart in the order of dispatch are at least [k] times [60000 / M] ms
    apart; so when the rate is a whole number [n] per minute, any [n + 1]
    consecutive dispatches span at least a minute: no period shorter than a
    minute sees more than [n] dispatches. *)
Theorem no_more_than_the_rate_per_minute M name h evs w :
  (0 < M)%Q ->
  run evs (init_world M name h) = Some w ->
  clock_steady evs ->
  (forall i k t t',
     dispatch_times w !! i = Some t -> dispatch_times w !! (i + k)%nat = Some t' ->
     (inject_Z (Z.of_nat k) * (60000 / M) <= inject_Z (t' - t))%Q) /\
  (forall n i t t',
     (M == inject_Z (Z.of_nat n))%Q ->
     dispatch_times w !! i = Some t -> dispatch_times w !! (i + n)%nat = Some t' ->
     60000 <= t' - t).
Proof.
  intros HM Hr Hclock.
  assert (Hp : paced M w).
  { revert Hr.
    apply (run_invariant_guarded
             (fun ev => match ev with ETimer n1 n2 _ => n1 <= n2 | _ => True end)
             (paced M)); [|done|by apply paced_init].
    intros ev w0 w1. by apply paced_step. }
  destruct Hp as (_ & _ & Hsp & _).
  assert (Hspan := spaced_span _ _ Hsp).
  split; [intros i k; apply Hspan|].
  intros n i t t' Hn Hi Hk.
  pose proof (Hspan n i t t' Hi Hk) as H.
  assert (Hmul : (inject_Z (Z.of_nat n) * (60000 / M) == 60000)%Q).
  { rewrite <- Hn. field. intros H0. rewrite H0 in HM. by apply Qlt_irrefl in HM. }
  rewrite Hmul in H. change 60000%Q with (inject_Z 60000) in H.
  by rewrite Zle_Qle.
Qed.

Lemma no_more_than_the_rate_per_minute_witness :
  exists w, run three_tasks_two_per_minute (init_world 2 "api" ∅) = Some w /\
            dispatch_times w = [100000; 130000; 160005] /\
            60000 <= 160005 - 100000.
Proof.
  pose proof (no_more_than_the_rate_per_minute 2 "api" ∅ three_tasks_two_per_minute _
                ltac:(reflexivity) ltac:(vm_compute; reflexivity)) as H.
  destruct H as [_ H];
    [unfold clock_steady, three_tasks_two_per_minute; repeat constructor; lia|].
  eexists. split; [vm_compute; reflexivity|]. split; [vm_compute; reflexivity|].
  apply (H 2%nat 0%nat); vm_compute; reflexivity.
Defined.

(** ** Statistics under a clock that never goes backwards *)

Lemma timed_weaken lo lo' w : lo <= lo' -> timed lo w -> timed lo' w.
Proof.
  intros Hle (Hl & Hw & Hm & Ht). split; [lia|]. split; [|split; [|done]].
  - eapply Forall_impl; [exact Hw|]. cbn. intros. lia.
  - eapply Forall_impl; [exact Hm|]. cbn. intros. lia.
Qed.

Lemma call_frame c a w :
  w_waiting (snd (call c a w)) = w_waiting w /\
  w_microtasks (snd (call c a w)) = w_microtasks w.
Proof.
  unfold call. cbn. by destruct (length (_taskQueue (w_fc w)) <=? 0)%nat.
Qed.

(** The reactions after a run of [_executeTask]: those there were, and
    possibly one for the task it dispatched, which began at [n3]. *)
Lemma executeTask_reactions (P : running -> Prop) n1 n2 n3 w :
  (forall t a, P (mkRunning t n3 a)) ->
  Forall P (w_waiting w) ->
  Forall (fun j => P (job_running j)) (w_microtasks w) ->
  Forall P (w_waiting (_executeTask n1 n2 n3 w)) /\
  Forall (fun j => P (job_running j)) (w_microtasks (_executeTask n1 n2 n3 w)).
Proof.
  intros Hnew Hw Hm.
  destruct (executeTask_result n1 n2 n3 w)
    as [Hq|Hq Hg|t rest a Hq Hg Hr|t rest e Hq Hg He]; try done.
  - unwrap; rewrite ?reenter_waiting, ?reenter_microtasks; cbn;
      rewrite ?Forall_app, ?Forall_singleton; cbn; auto.
  - unwrap; rewrite ?reenter_waiting, ?reenter_microtasks; cbn; auto.
Qed.

Lemma run_job_totals now j w :
  (_total (w_fc (run_job now j w)) = _total (w_fc w) /\
   _totalTime (w_fc (run_job now j w)) = _totalTime (w_fc w)) \/
  (exists r, j = JFinally r /\
     _total (w_fc (run_job now j w)) = _total (w_fc w) + 1 /\
     _totalTime (w_fc (run_job now j w)) = _totalTime (w_fc w) + (now - r_begin r)).
Proof.
  destruct j as [r [v|e]|r [v|e]|r]; cbn; auto.
  unfold finally_callback. cbn.
  destruct (strip_tokens (w_heap w) (t_args (r_task r))) as [h [e|]]; cbn; eauto.
Qed.

Lemma successor_running j j' : j' ∈ successor j -> job_running j' = job_running j.
Proof.
  destruct j as [r [v|e]|r [v|e]|r]; cbn;
    intros H; try (apply list_elem_of_singleton in H; by subst);
    by apply elem_of_nil in H.
Qed.

Lemma timed_step lo ev w w' :
  timed lo w -> clock_monotone_from lo [ev] -> step ev w = Some w' ->
  timed (clock_after_event lo ev) w' /\
  lo <= clock_after_event lo ev /\
  _total (w_fc w) <= _total (w_fc w') /\
  _totalTime (w_fc w) <= _totalTime (w_fc w') /\
  _lastExecuteTime (w_fc w) <= _lastExecuteTime (w_fc w').
Proof.
  intros (Hl & Hw & Hm & Ht & Hn) [Hc _] Hs.
  destruct ev as [c a|n1 n2 n3|a o|now]; cbv beta iota delta [step] in Hs; cbn.
  - apply (inj Some) in Hs. subst w'.
    destruct (call_trace c a w) as (_ & -> & ->).
    destruct (call_dispatch_times c a w) as [_ ->].
    destruct (call_frame c a w) as [Hcw Hcm].
    unfold timed. rewrite Hcw, Hcm.
    destruct (call_trace c a w) as (_ & -> & ->).
    destruct (call_dispatch_times c a w) as [_ ->].
    repeat split; (done || lia).
  - destruct (w_timers w) as [|k]; [done|].
    destruct (w_microtasks w) eqn:Hmq; [|done].
    apply (inj Some) in Hs. subst w'.
    destruct Hc as (H1 & H2 & H3).
    destruct (executeTask_reactions (fun r => r_begin r <= n3) n1 n2 n3 (set_timers k w))
      as [Hw' Hm'].
    { intros. cbn. lia. }
    { eapply Forall_impl; [exact Hw|]. cbn. intros. lia. }
    { cbn. rewrite Hmq. constructor. }
    assert (Hw0 : Forall (fun r => r_begin r <= n3) (w_waiting w)).
    { eapply Forall_impl; [exact Hw|]. cbn. intros. lia. }
    assert (Hm0 : Forall (fun j => r_begin (job_running j) <= n3) (w_microtasks w)).
    { rewrite Hmq. constructor. }
    unfold timed.
    destruct (executeTask_effect n1 n2 n3 (set_timers k w))
      as [[_ ->]|[(_ & _ & ->)|(t & rest & tail & _ & _ & _ & _ & Htot & Htime & Hlast & _)]].
    + cbn in *. repeat split; (done || lia).
    + cbn in *. repeat split; (done || lia).
    + rewrite Htot, Htime, Hlast. cbn. repeat split; (done || lia).
  - destruct (w_settled w !! a); [done|]. apply (inj Some) in Hs. subst w'.
    unfold timed. cbn. repeat split; try (done || lia).
    + apply Forall_forall. intros r [_ Hin]%list_elem_of_filter.
      rewrite Forall_forall in Hw. by apply Hw.
    + apply Forall_app. split; [done|]. apply Forall_fmap.
      apply Forall_forall. intros r [_ Hin]%list_elem_of_filter.
      rewrite Forall_forall in Hw. by apply Hw.
  - destruct (w_microtasks w) as [|j rest] eqn:Hmq; [done|].
    apply (inj Some) in Hs. subst w'.
    apply Forall_cons in Hm as [Hj Hrest].
    destruct (run_job_frame now j (set_microtasks rest w))
      as (_ & Hfw & _ & _ & _ & Hfl & Hfm).
    unfold timed. rewrite Hfw, Hfl, Hfm. cbn [w_waiting w_microtasks w_fc set_microtasks].
    assert (Hmicro : Forall (fun j0 => r_begin (job_running j0) <= now)
                       (rest ++ successor j)).
    { apply Forall_app. split.
      - eapply Forall_impl; [exact Hrest|]. cbn. intros. lia.
      - apply Forall_forall. intros j' Hin.
        rewrite (successor_running j j' Hin). lia. }
    assert (Hwait : Forall (fun r => r_begin r <= now) (w_waiting w)).
    { eapply Forall_impl; [exact Hw|]. cbn. intros. lia. }
    destruct (run_job_totals now j (set_microtasks rest w))
      as [[-> ->]|(r & -> & -> & ->)]; cbn [w_fc set_microtasks] in *.
    + repeat split; (done || lia).
    + cbn in Hj. repeat split; (done || lia).
Qed.

Lemma clock_monotone_from_app evs1 :
  forall lo evs2,
    clock_monotone_from lo (evs1 ++ evs2) <->
    clock_monotone_from lo evs1 /\ clock_monotone_from (clock_after lo evs1) evs2.
Proof.
  induction evs1 as [|ev evs1 IH]; intros lo evs2; cbn; [tauto|].
  rewrite IH. unfold clock_after. tauto.
Qed.

Lemma timed_run evs :
  forall lo w w',
    timed lo w -> clock_monotone_from lo evs -> run evs w = Some w' ->
    timed (clock_after lo evs) w' /\
    _total (w_fc w) <= _total (w_fc w') /\
    _totalTime (w_fc w) <= _totalTime (w_fc w') /\
    _lastExecuteTime (w_fc w) <= _lastExecuteTime (w_fc w').
Proof.
  induction evs as [|ev evs IH]; intros lo w w' Ht Hc Hr; cbn in Hr.
  - apply (inj Some) in Hr. subst w'. split; [exact Ht|lia].
  - destruct (step ev w) as [w1|] eqn:Hs; [|done].
    destruct Hc as [Hev Hc].
    destruct (timed_step lo ev w w1 Ht (conj Hev I) Hs) as (Ht1 & _ & H1 & H2 & H3).
    destruct (IH _ w1 w' Ht1 Hc Hr) as (Ht' & H1' & H2' & H3').
    split; [exact Ht'|]. lia.
Qed.

Lemma timed_init maxFlow name h : timed 0 (init_world maxFlow name h).
Proof. unfold timed. cbn. repeat split; (constructor || lia). Qed.

Lemma averageTime_nonneg f :
  0 <= _totalTime f -> (0 <= averageTime f)%Q.
Proof.
  intros Ht. unfold averageTime.
  destruct (0 <? _total f) eqn:Hpos; [|apply Qle_refl].
  apply Z.ltb_lt in Hpos.
  apply Qle_shift_div_l; [reflexivity|]. rewrite Qmult_0_l.
  apply Qle_shift_div_l.
  - change 0%Q with (inject_Z 0). by rewrite <- Zlt_Qlt.
  - rewrite Qmult_0_l. change 0%Q with (inject_Z 0). by rewrite <- Zle_Qle.
Qed.

(** X15. With a clock that never goes backwards, [_total], [_totalTime]
    and [_lastExecuteTime] never decrease along a run of a new queue, and
    [_total], [_totalTime] and the average that the driving loop logs are
    never negative. *)
Theorem statistics_never_decrease maxFlow name h evs1 evs2 w1 w2 :
  run evs1 (init_world maxFlow name h) = Some w1 ->
  run evs2 w1 = Some w2 ->
  clock_monotone (evs1 ++ evs2) ->
  _total (w_fc w1) <= _total (w_fc w2) /\
  _totalTime (w_fc w1) <= _totalTime (w_fc w2) /\
  _lastExecuteTime (w_fc w1) <= _lastExecuteTime (w_fc w2) /\
  0 <= _total (w_fc w1) /\ 0 <= _totalTime (w_fc w1) /\
  (0 <= averageTime (w_fc w1))%Q.
Proof.
  intros Hr1 Hr2 Hc. apply clock_monotone_from_app in Hc as [Hc1 Hc2].
  destruct (timed_run evs1 0 _ w1 (timed_init maxFlow name h) Hc1 Hr1)
    as (Ht1 & _).
  destruct (timed_run evs2 _ w1 w2 Ht1 Hc2 Hr2) as (_ & H1 & H2 & H3).
  destruct Ht1 as (_ & _ & _ & Htime & Htot).
  repeat split; try done. by apply averageTime_nonneg.
Qed.

Lemma statistics_never_decrease_witness :
  exists w1 w2,
    run [ECall (returns_promise 0) [VObj 0%nat]; ETimer 1000 1000 1000;
         ESettle 0 (Resolved (VNum 7))]
        (init_world 60 "api" heap_with_token) = Some w1 /\
    run [EMicrotask 1004; EMicrotask 1004; EMicrotask 1004] w1 = Some w2 /\
    _totalTime (w_fc w1) <= _totalTime (w_fc w2) /\
    _totalTime (w_fc w2) = 4.
Proof.
  do 2 eexists. split; [vm_compute; reflexivity|].
  split; [vm_compute; reflexivity|]. split; [|vm_compute; reflexivity].
  refine (proj1 (proj2 (statistics_never_decrease 60 "api" heap_with_token
    [ECall (returns_promise 0) [VObj 0%nat]; ETimer 1000 1000 1000;
     ESettle 0 (Resolved (VNum 7))]
    [EMicrotask 1004; EMicrotask 1004; EMicrotask 1004] _ _ _ _ _)));
    [vm_compute; reflexivity|vm_compute; reflexivity|].
  unfold clock_monotone. cbn. lia.
Defined.

(** ** No limit on the tasks in flight *)

Lemma submit_and_dispatch_S n :
  submit_and_dispatch (S n) =
  submit_and_dispatch n ++ [ECall (returns_promise 0) []; ETimer 0 0 0].
Proof.
  unfold submit_and_dispatch.
  replace (S n) with (n + 1)%nat by lia.
  rewrite replicate_add, join_app. cbn. done.
Qed.

(** A dispatch whose callable returns a promise that has not settled:
    the chain is registered on the promise and nothing else moves. *)
Lemma executeTask_registers n1 n2 n3 w t rest a :
  _taskQueue (w_fc w) = t :: rest ->
  fst (_checkFlow n1 (w_fc w)) = true ->
  c_result (t_caller t) = SReturnPromise a ->
  w_settled w !! a = None ->
  w_waiting (_executeTask n1 n2 n3 w) = w_waiting w ++ [mkRunning t n3 a] /\
  w_microtasks (_executeTask n1 n2 n3 w) = w_microtasks w /\
  w_settled (_executeTask n1 n2 n3 w) = w_settled w /\
  finished (_executeTask n1 n2 n3 w) = finished w.
Proof.
  intros Hq Hg Hr Hs.
  destruct (executeTask_result n1 n2 n3 w)
    as [Hq'|Hq' Hg'|t' rest' a' Hq' Hg' Hr'|t' rest' e Hq' Hg' He]; try congruence.
  - rewrite Hq in Hq'. injection Hq' as <- <-.
    rewrite Hr in Hr'. injection Hr' as <-.
    unfold finished.
    destruct (promise_path_trace t rest n2 n3 a w) as [m ->].
    change (?x :: ?l ++ ?t) with ([x] ++ l ++ t).
    rewrite !tr_finished_app, tr_finished_submits. cbn. rewrite app_nil_r.
    unfold reschedule, log_execute, attach, register.
    destruct (0 <? _)%nat; cbn; rewrite reenter_settled; cbn; rewrite Hs; cbn;
      rewrite ?reenter_waiting, ?reenter_microtasks, ?reenter_settled; done.
  - rewrite Hq in Hq'. injection Hq' as <- <-.
    apply thrown_by_promise in Hr. congruence.
Qed.

(** The runs scheduled after a dispatch: one by the first submission the
    callable makes when nothing else is queued, one by the run itself when
    the queue is not empty at its end. *)
Lemma executeTask_timers n1 n2 n3 w t rest :
  _taskQueue (w_fc w) = t :: rest ->
  fst (_checkFlow n1 (w_fc w)) = true ->
  w_timers (_executeTask n1 n2 n3 w) =
  (w_timers w +
   match rest, c_reentry (t_caller t) with [], _ :: _ => 1 | _, _ => 0 end +
   match rest ++ tasks_of (c_reentry (t_caller t)) (w_next w) with
   | [] => 0
   | _ => 1
   end)%nat.
Proof.
  intros Hq Hg.
  destruct (executeTask_reschedules n1 n2 n3 w) as [-> Hfc].
  destruct (executeTask_effect n1 n2 n3 w)
    as [[Hq' _]|[(_ & Hg' & _)|(t' & rest' & tail & Hq' & _ & _ & Hq2 & _)]];
    [congruence|congruence|].
  rewrite Hq in Hq'. injection Hq' as <- <-.
  rewrite <- Hfc, Hq2. f_equal.
  destruct (reenter_queue_exact (c_reentry (t_caller t)) (take_head n2 t rest w))
    as (_ & _ & Ht).
  cbn [take_head emit set_fc w_fc w_timers set_taskQueue _taskQueue] in Ht.
  rewrite <- Ht. unfold try_catch_executeTask.
  destruct (try_executeTask_result n1 n2 n3 w)
    as [Hq'|Hq' Hg'|t' rest' a Hq' Hg' Hr|t' rest' e Hq' Hg' He]; try congruence;
    rewrite Hq in Hq'; injection Hq' as <- <-.
  - unfold log_execute, attach, register. cbn.
    by destruct (w_settled _ !! a).
  - done.
Qed.

(** One more task in flight, from a state with nothing queued or scheduled
    and promise 0 not settled, when the gate is open. *)
Lemma one_more_in_flight w :
  (_maxFlow (w_fc w) <= 0)%Q ->
  _taskQueue (w_fc w) = [] -> w_timers w = 0%nat -> w_microtasks w = [] ->
  w_settled w !! 0%nat = None ->
  exists w',
    run [ECall (returns_promise 0) []; ETimer 0 0 0] w = Some w' /\
    _maxFlow (w_fc w') = _maxFlow (w_fc w) /\
    _taskQueue (w_fc w') = [] /\ w_timers w' = 0%nat /\ w_microtasks w' = [] /\
    w_settled w' !! 0%nat = None /\
    _count (w_fc w') = _count (w_fc w) + 1 /\
    dispatched w' = dispatched w ++ [w_next w] /\
    finished w' = finished w.
Proof.
  intros Hmax Hq Ht Hm Hs.
  pose (w1 := snd (call (returns_promise 0) [] w)).
  destruct (call_timers (returns_promise 0) [] w) as [Ht1 Hq1].
  destruct (call_frame (returns_promise 0) [] w) as [_ Hm1].
  fold w1 in Ht1, Hq1, Hm1.
  rewrite Hq in Ht1, Hq1. rewrite Ht in Ht1. rewrite Hm in Hm1.
  change (0 + 1)%nat with 1%nat in Ht1. change ([] ++ ?l) with l in Hq1.
  assert (Hmax1 : _maxFlow (w_fc w1) = _maxFlow (w_fc w)).
  { apply (reenter_maxFlow [Submission (returns_promise 0) []] w). }
  assert (Hs1 : w_settled w1 = w_settled w).
  { apply (reenter_settled [Submission (returns_promise 0) []] w). }
  assert (Hc1 : _count (w_fc w1) = _count (w_fc w)) by apply call_count.
  assert (Hd1 : dispatched w1 = dispatched w).
  { apply (reenter_dispatched [Submission (returns_promise 0) []] w). }
  assert (Hf1 : finished w1 = finished w).
  { unfold finished, w1. destruct (call_trace (returns_promise 0) [] w) as [-> _].
    rewrite tr_finished_app. cbn. by rewrite app_nil_r. }
  pose (w2 := _executeTask 0 0 0 (set_timers 0 w1)).
  assert (Hstep : step (ETimer 0 0 0) w1 = Some w2).
  { unfold step. by rewrite Ht1, Hm1. }
  assert (Hrun : run [ECall (returns_promise 0) []; ETimer 0 0 0] w = Some w2).
  { change (run [ECall (returns_promise 0) []; ETimer 0 0 0] w)
      with (match step (ETimer 0 0 0) w1 with
            | Some w' => run [] w'
            | None => None
            end).
    by rewrite Hstep. }
  exists w2. split; [exact Hrun|].
  assert (Hq0 : _taskQueue (w_fc (set_timers 0 w1)) =
                _createTask (returns_promise 0) [] (w_next w) :: []) by exact Hq1.
  assert (Hg0 : fst (_checkFlow 0 (w_fc (set_timers 0 w1))) = true).
  { rewrite checkFlow_unlimited; [done|].
    change (_maxFlow (w_fc w1) <= 0)%Q. by rewrite Hmax1. }
  destruct (executeTask_registers 0 0 0 _ _ _ 0%nat Hq0 Hg0 eq_refl)
    as (_ & Hm2 & Hs2 & Hf2).
  { change (w_settled w1 !! 0%nat = None). by rewrite Hs1. }
  destruct (executeTask_maxFlow 0 0 0 (set_timers 0 w1)) as [Hmax2 _].
  pose proof (executeTask_count 0 0 0 _ _ _ Hq0 Hg0) as Hc2.
  destruct (executeTask_dispatches 0 0 0 _ _ _ Hq0 Hg0) as [Hd2 _].
  pose proof (executeTask_timers 0 0 0 _ _ _ Hq0 Hg0) as Ht2.
  destruct (executeTask_effect 0 0 0 (set_timers 0 w1))
    as [[Hq' _]|[(_ & Hg' & _)|(t & rest & tail & Hq' & _ & _ & Hq2 & _)]];
    [congruence|congruence|].
  rewrite Hq0 in Hq'. injection Hq' as <- <-.
  fold w2 in Hm2, Hs2, Hf2, Hmax2, Hc2, Hd2, Hq2, Ht2.
  change (_taskQueue (w_fc w2) = []) in Hq2.
  change (w_timers w2 = 0%nat) in Ht2.
  change (_count (w_fc w2) = _count (w_fc w1) + 1) in Hc2.
  change (w_microtasks w2 = w_microtasks w1) in Hm2.
  change (w_settled w2 = w_settled w1) in Hs2.
  change (_maxFlow (w_fc w2) = _maxFlow (w_fc w1)) in Hmax2.
  change (dispatched w2 = dispatched w1 ++ [w_next w]) in Hd2.
  change (finished w2 = finished w1) in Hf2.
  split; [by rewrite Hmax2|]. split; [exact Hq2|]. split; [exact Ht2|].
  split; [by rewrite Hm2|]. split; [by rewrite Hs2, Hs1|].
  split; [lia|]. split; [by rewrite Hd2, Hd1|].
  by rewrite Hf2, Hf1.
Qed.

(** X16. The queue limits how often tasks start, not how many run at
    once: without a rate limit, for every [n] there is a run of a new queue
    after which [n] tasks have been dispatched, none has finished and
    [_count] is [n]. *)
Theorem in_flight_is_not_bounded maxFlow name h n :
  (maxFlow <= 0)%Q ->
  exists w,
    run (submit_and_dispatch n) (init_world maxFlow name h) = Some w /\
    _count (w_fc w) = Z.of_nat n /\
    dispatched w = seq 0 n /\
    finished w = [].
Proof.
  intros Hmax.
  assert (H : exists w,
    run (submit_and_dispatch n) (init_world maxFlow name h) = Some w /\
    _maxFlow (w_fc w) = maxFlow /\
    _taskQueue (w_fc w) = [] /\ w_timers w = 0%nat /\ w_microtasks w = [] /\
    w_settled w !! 0%nat = None /\ w_next w = n /\
    _count (w_fc w) = Z.of_nat n /\ dispatched w = seq 0 n /\ finished w = []).
  { induction n as [|n IH].
    - exists (init_world maxFlow name h). by repeat split.
    - destruct IH as (w & Hr & Hm & Hq & Ht & Hmi & Hs & Hn & Hc & Hd & Hf).
      destruct (one_more_in_flight w) as (w' & Hr' & Hm' & Hq' & Ht' & Hmi' & Hs' & Hc' & Hd' & Hf');
        try done; [by rewrite Hm|].
      assert (Hrun : run (submit_and_dispatch (S n)) (init_world maxFlow name h) =
                     Some w').
      { by rewrite submit_and_dispatch_S, run_app, Hr. }
      exists w'. split; [exact Hrun|]. split; [congruence|]. do 4 (split; [done|]).
      split.
      { assert (Hwf : wf w') by (eapply wf_run; [apply wf_init|exact Hrun]).
        pose proof (wf_submitted _ _ _ _ _ _ _ Hwf) as Hsub.
        pose proof (wf_fifo _ _ _ _ _ _ _ Hwf) as Hfifo.
        fold (dispatched w') in Hfifo. rewrite Hq', Hd', Hd, Hn in Hfifo.
        cbn in Hfifo. rewrite app_nil_r, Hsub in Hfifo.
        apply (f_equal length) in Hfifo.
        rewrite length_seq, length_app, length_seq in Hfifo. cbn in Hfifo. lia. }
      split; [lia|]. split; [|congruence].
      rewrite Hd', Hd, Hn. by rewrite seq_S. }
  destruct H as (w & Hr & _ & _ & _ & _ & _ & _ & Hc & Hd & Hf).
  by exists w.
Qed.

Lemma in_flight_is_not_bounded_witness :
  exists w,
    run (submit_and_dispatch 3) (init_world 0 "api" ∅) = Some w /\
    _count (w_fc w) = 3.
Proof.
  destruct (in_flight_is_not_bounded 0 "api" ∅ 3 ltac:(done)) as (w & Hr & Hc & _).
  by exists w.
Defined.

(** ** The threshold of the gate; the caller is notified first *)

(** X17. With a rate [M > 0], in every state reached from a new queue the
    gate check passes exactly when the clock reads at least [60000 / M] ms
    after [_lastExecuteTime] (at exactly the interval it passes); when it
    passes it stores the clock value in [_lastExecuteTime], when it fails it
    changes nothing. *)
Theorem gate_passes_exactly_from_the_interval M name h evs w now :
  (0 < M)%Q ->
  run evs (init_world M name h) = Some w ->
  (fst (_checkFlow now (w_fc w)) = true <->
   (60000 / M <= inject_Z (now - _lastExecuteTime (w_fc w)))%Q) /\
  (fst (_checkFlow now (w_fc w)) = true ->
   snd (_checkFlow now (w_fc w)) = set_lastExecuteTime now (w_fc w)) /\
  (fst (_checkFlow now (w_fc w)) = false ->
   snd (_checkFlow now (w_fc w)) = w_fc w).
Proof.
  intros HM Hr.
  destruct (run_maxFlow _ _ _ _ _ Hr) as [Hmax Hmin].
  rewrite js_div_positive in Hmin by done.
  pose proof (checkFlow_limited M now (w_fc w) HM Hmax Hmin) as Hiff.
  split; [|split].
  - split.
    + intros Ht. apply Qnot_lt_le. intros Hlt. apply Hiff in Hlt. congruence.
    + intros Hle. destruct (fst (_checkFlow now (w_fc w))) eqn:Hg; [done|].
      destruct Hiff as [Hlt _]. specialize (Hlt eq_refl).
      by apply Qlt_not_le in Hlt.
  - unfold _checkFlow. rewrite Hmax.
    assert (Hpos : Qlt_bool 0 M = true) by by apply Qlt_bool_true.
    rewrite Hpos. by destruct (js_lt _ _).
  - unfold _checkFlow. destruct (Qlt_bool 0 (_maxFlow (w_fc w))); [|done].
    by destruct (js_lt _ _).
Qed.

Lemma gate_passes_exactly_from_the_interval_witness :
  exists w,
    run three_tasks_spaced (init_world 60 "api" ∅) = Some w /\
    _lastExecuteTime (w_fc w) = 3002 /\
    fst (_checkFlow 4002 (w_fc w)) = true /\
    fst (_checkFlow 4001 (w_fc w)) = false.
Proof.
  eexists. split; [vm_compute; reflexivity|]. split; [vm_compute; reflexivity|].
  split; [|vm_compute; reflexivity].
  apply (proj1 (gate_passes_exactly_from_the_interval 60 "api" ∅ three_tasks_spaced
                  _ 4002 ltac:(reflexivity) ltac:(vm_compute; reflexivity))).
  vm_compute. congruence.
Defined.

(** X18. The caller hears first: in every state reached from a new queue,
    when the settlement callback of a task has started (so [_count] has been
    decremented for it), the promise that [call] returned for the task has
    already been settled, once, with the outcome of the promise its callable
    returned. *)
Theorem caller_is_notified_before_the_books maxFlow name h evs w p :
  run evs (init_world maxFlow name h) = Some w ->
  p ∈ finished w ->
  exists a o,
    (p, a) ∈ returned w /\ w_settled w !! a = Some o /\ settlements p w = [o].
Proof.
  intros Hr Hf.
  assert (Hwf : wf w) by (eapply wf_run; [apply wf_init|exact Hr]).
  pose proof (wf_returned _ _ _ _ _ _ _ Hwf) as Hperm.
  fold (returned w) (finished w) in Hperm.
  assert (Hin : p ∈ (returned w).*1).
  { rewrite Hperm. apply elem_of_app. by left. }
  apply list_elem_of_fmap in Hin as ([p' a] & -> & Hin). cbn in Hf.
  destruct (wf_finished _ _ _ _ _ _ _ Hwf p' a Hin Hf) as (o & Hs & Hset).
  by exists a, o.
Qed.

Lemma caller_is_notified_before_the_books_witness :
  exists w a o,
    run one_task_settles (init_world 60 "api" heap_null_prototype) = Some w /\
    (0%nat, a) ∈ returned w /\ w_settled w !! a = Some o /\ settlements 0 w = [o].
Proof.
  destruct (caller_is_notified_before_the_books 60 "api" heap_null_prototype
              one_task_settles _ 0%nat ltac:(vm_compute; reflexivity))
    as (a & o & H).
  - vm_compute. left.
  - eexists _, a, o. split; [vm_compute; reflexivity|]. exact H.
Defined.

(** ** What the settlement callback does to the arguments, in full *)

(** The pass over the arguments, when it raises an exception: it stops at
    an object that is not [strippable], the arguments before it having been
    gone through without exception. *)
Lemma strip_tokens_failure args :
  forall h h' e,
    strip_tokens h args = (h', Some e) ->
    exists pre l o post,
      args = pre ++ VObj l :: post /\
      strip_tokens h pre = (h', None) /\
      h' !! l = Some o /\ ~ strippable o.
Proof.
  induction args as [|arg rest IH]; intros h h' e Hs; cbn in Hs; [done|].
  destruct (strip_token_cases h arg)
    as [(Hnone & _)|(e0 & l & o & Hsome & Hfst & -> & Hl & Hno)].
  - destruct (strip_token h arg) as [h1 o1] eqn:Hst; cbn in Hnone. subst o1.
    destruct (IH h1 h' e Hs) as (pre & l & o & post & -> & Hpre & Hl & Hno).
    exists (arg :: pre), l, o, post. split; [done|]. split; [|done].
    cbn. by rewrite Hst.
  - destruct (strip_token h (VObj l)) as [h1 o1] eqn:Hst; cbn in Hsome, Hfst.
    subst o1 h1. injection Hs as <- <-.
    exists [], l, o, rest. by repeat split.
Qed.

Lemma object_among_dec (l : nat) (args : list value) : VObj l ∈ args \/ VObj l ∉ args.
Proof.
  induction args as [|arg rest IH]; [right; apply not_elem_of_nil|].
  destruct IH as [IH|IH]; [left; by right|].
  assert (Hsame : arg = VObj l \/ arg <> VObj l).
  { destruct arg as [| |b|n|s|l']; try (right; congruence).
    destruct (decide (l' = l)) as [->|]; [by left|right; congruence]. }
  destruct Hsame as [->|Hne]; [left; left|].
  right. by apply not_elem_of_cons.
Qed.

(** The heap after the settlement callback of [r], step by step. *)
Lemma settlement_step_heap now r rest w1 w2 :
  w_microtasks w1 = JFinally r :: rest ->
  step (EMicrotask now) w1 = Some w2 ->
  w_heap w2 = fst (strip_tokens (w_heap w1) (t_args (r_task r))).
Proof.
  intros Hm Hs. cbv beta iota delta [step] in Hs. rewrite Hm in Hs.
  apply (inj Some) in Hs. subst w2.
  apply (run_job_heap now (JFinally r) (set_microtasks rest w1)).
Qed.

(** C6, as the code has it.  Along any run, every caller-owned object
    stays at its address with the same prototype lookup and the same own
    properties, except that its own property [token] may have been deleted.
    The heap is touched by the settlement callback only (not by [call], not
    by a run of the driving loop, not by the other reaction jobs), and then
    only in the objects passed as arguments of the task that settles.  The
    callback goes through the arguments in order and does delete: when every
    argument object inherits [hasOwnProperty] and has no [token] that cannot
    be deleted, each argument object is afterwards what it was without its
    [token]; otherwise the callback throws at the first argument object that
    is not so, the argument objects before it have lost their [token], and
    every other object, the one it throws at included, is what it was. *)
Theorem arguments_only_lose_token evs w w' :
  run evs w = Some w' ->
  heap_token_stripped (w_heap w) (w_heap w') /\
  (forall ev w1 w2,
     step ev w1 = Some w2 ->
     w_heap w2 = w_heap w1 \/
     exists now r rest,
       ev = EMicrotask now /\ w_microtasks w1 = JFinally r :: rest /\
       heap_token_stripped (w_heap w1) (w_heap w2) /\
       (forall l, VObj l ∉ t_args (r_task r) -> w_heap w2 !! l = w_heap w1 !! l)) /\
  (forall now r rest w1 w2,
     w_microtasks w1 = JFinally r :: rest ->
     step (EMicrotask now) w1 = Some w2 ->
     args_strippable (w_heap w1) (t_args (r_task r)) ->
     forall l, VObj l ∈ t_args (r_task r) ->
       w_heap w2 !! l = without_token <$> w_heap w1 !! l) /\
  (forall now r rest w1 w2,
     w_microtasks w1 = JFinally r :: rest ->
     step (EMicrotask now) w1 = Some w2 ->
     ~ args_strippable (w_heap w1) (t_args (r_task r)) ->
     exists pre l o post,
       t_args (r_task r) = pre ++ VObj l :: post /\
       w_heap w1 !! l = Some o /\ ~ strippable o /\
       args_strippable (w_heap w1) pre /\
       (forall l', VObj l' ∈ pre ->
          w_heap w2 !! l' = without_token <$> w_heap w1 !! l') /\
       (forall l', VObj l' ∉ pre -> w_heap w2 !! l' = w_heap w1 !! l')).
Proof.
  intros Hr. split; [|split; [|split]].
  - by apply (heap_only_loses_tokens evs w w').
  - by apply (heap_only_loses_tokens evs w w').
  - intros now r rest w1 w2 Hm Hs Hok l Hl.
    rewrite (settlement_step_heap now r rest w1 w2 Hm Hs).
    pose proof (strip_tokens_strippable _ _ Hok) as Hnone.
    destruct (strip_tokens (w_heap w1) (t_args (r_task r))) as [h' o] eqn:Hst.
    cbn in Hnone. subst o.
    apply strip_tokens_success in Hst as (_ & Hin & _). cbn. by apply Hin.
  - intros now r rest w1 w2 Hm Hs Hno.
    rewrite (settlement_step_heap now r rest w1 w2 Hm Hs).
    destruct (strip_tokens (w_heap w1) (t_args (r_task r))) as [h' [e|]] eqn:Hst.
    2:{ destruct Hno. by apply strip_tokens_success in Hst as [? _]. }
    apply strip_tokens_failure in Hst as (pre & l & o & post & Hargs & Hpre & Hl & Hbad).
    apply strip_tokens_success in Hpre as (Hok & Hin & Hout & _).
    cbn.
    exists pre, l, o, post. split; [done|].
    assert (Hnotin : VObj l ∉ pre).
    { destruct (object_among_dec l pre) as [Hin'|]; [|done].
      rewrite (Hin l Hin') in Hl.
      destruct (w_heap w1 !! l) as [o1|] eqn:Hl1; [|done].
      injection Hl as <-. destruct Hbad.
      apply strippable_without_token. by apply (Hok l o1). }
    split; [by rewrite <- (Hout l Hnotin)|].
    split; [exact Hbad|]. split; [exact Hok|]. split; [exact Hin|exact Hout].
Qed.

Lemma arguments_only_lose_token_witness :
  exists w1 w2,
    run [ECall (returns_promise 0) [VObj 0%nat]; ETimer 1000 1000 1000;
         ESettle 0 (Resolved (VNum 7)); EMicrotask 1004; EMicrotask 1004]
        (init_world 60 "api" heap_with_token) = Some w1 /\
    step (EMicrotask 1004) w1 = Some w2 /\
    w_heap w2 !! 0%nat = without_token <$> w_heap w1 !! 0%nat /\
    heap_token_stripped (w_heap w1) (w_heap w2).
Proof.
  pose (evs := [ECall (returns_promise 0) [VObj 0%nat]; ETimer 1000 1000 1000;
                ESettle 0 (Resolved (VNum 7)); EMicrotask 1004; EMicrotask 1004]).
  pose (w0 := init_world 60 "api" heap_with_token).
  pose (r := mkRunning (_createTask (returns_promise 0) [VObj 0%nat] 0) 1000 0).
  assert (H1 : exists w1, run evs w0 = Some w1 /\ w_microtasks w1 = [JFinally r] /\
                          w_heap w1 = heap_with_token).
  { eexists. split; [vm_compute; reflexivity|]. split; vm_compute; reflexivity. }
  destruct H1 as (w1 & Hr1 & Hm & Hh).
  assert (H2 : exists w2, step (EMicrotask 1004) w1 = Some w2).
  { cbv beta iota delta [step]. rewrite Hm. by eexists. }
  destruct H2 as (w2 & Hs).
  assert (Hr2 : run [EMicrotask 1004] w1 = Some w2) by (cbn [run]; by rewrite Hs).
  destruct (arguments_only_lose_token [EMicrotask 1004] w1 w2 Hr2)
    as (Hall & _ & Hdel & _).
  exists w1, w2. split; [exact Hr1|]. split; [exact Hs|]. split; [|exact Hall].
  apply (Hdel 1004 r [] w1 w2 Hm Hs); [|left].
  rewrite Hh. apply (strip_tokens_success [VObj 0%nat] heap_with_token
                       (fst (strip_tokens heap_with_token [VObj 0%nat]))).
  vm_compute. reflexivity.
Defined.

(** ** The caller's promise and the callable that was submitted *)











(** ** Every queued task is dispatched when no settlement callback throws *)

Lemma token_stripped_strippable o o' :
  token_stripped o o' -> strippable o -> strippable o'.
Proof.
  intros [Hf [Hp|Hp]] [Hflag Htok]; split; try congruence.
  - intros p. rewrite Hp. apply Htok.
  - intros p. rewrite Hp. by rewrite lookup_delete_eq.
Qed.

Lemma heap_strippable_stripped h h' :
  heap_token_stripped h h' -> heap_strippable h -> heap_strippable h'.
Proof.
  intros Hs Hh l o' Hl. specialize (Hs l). rewrite Hl in Hs.
  destruct (h !! l) as [o|] eqn:Ho; [|done].
  eapply token_stripped_strippable; [exact Hs|]. by apply (Hh l).
Qed.

Lemma heap_strippable_args h args : heap_strippable h -> args_strippable h args.
Proof. intros Hh l o _ Hl. by apply (Hh l). Qed.

(** A reaction job on a heap of strippable objects leaves no rejection
    unhandled. *)
Lemma run_job_calm now j w :
  heap_strippable (w_heap w) -> unhandled (run_job now j w) = unhandled w.
Proof.
  intros Hh. unfold unhandled.
  destruct j as [r [v|e]|r [v|e]|r]; cbn; rewrite ?tr_unhandled_app; cbn;
    rewrite ?app_nil_r; try done.
  unfold finally_callback. cbn.
  pose proof (strip_tokens_strippable (t_args (r_task r)) (w_heap w)
                (heap_strippable_args _ _ Hh)) as Hnone.
  destruct (strip_tokens (w_heap w) (t_args (r_task r))) as [h' o]. cbn in Hnone.
  subst o. cbn. rewrite <- app_assoc, tr_unhandled_app. cbn. by rewrite app_nil_r.
Qed.

Lemma calm_step ev w w' : calm w -> step ev w = Some w' -> calm w'.
Proof.
  intros [Hh Hu] Hs. split.
  - destruct (step_heap ev w w' Hs) as [->|(now & r & rest & _ & _ & Hst & _)];
      [done|]. by eapply heap_strippable_stripped.
  - destruct ev as [c a|n1 n2 n3|a o|now]; cbv beta iota delta [step] in Hs.
    + apply (inj Some) in Hs. subst w'. unfold unhandled in *.
      destruct (call_trace c a w) as (-> & _).
      rewrite tr_unhandled_app, Hu. done.
    + destruct (w_timers w) as [|k]; [done|].
      destruct (w_microtasks w) eqn:Hm; [|done].
      apply (inj Some) in Hs. subst w'. unfold unhandled in *.
      destruct (executeTask_effect n1 n2 n3 (set_timers k w))
        as [[_ ->]|[(_ & _ & ->)|(t & rest & tail & _ & _ & -> & _ & _ & _ & _ & Htail)]];
        [done|done|].
      cbn [w_trace set_timers].
      change (?x :: ?l ++ ?t) with ([x] ++ l ++ t).
      rewrite !tr_unhandled_app, tr_unhandled_submits, Hu.
      by destruct Htail as [(a & m & _ & ->)|(e & _ & ->)].
    + destruct (w_settled w !! a); [done|]. apply (inj Some) in Hs. by subst w'.
    + destruct (w_microtasks w) as [|j rest]; [done|].
      apply (inj Some) in Hs. subst w'.
      by rewrite run_job_calm.
Qed.

Lemma calm_run evs w w' : calm w -> run evs w = Some w' -> calm w'.
Proof. apply (run_invariant calm). intros ev ? ?. apply calm_step. Qed.

(** X4. Let every object the caller may pass inherit [hasOwnProperty] and
    have no [token] that cannot be deleted.  Then no settlement callback
    throws in any run of a new queue, so no rejection of the queue's own goes
    unhandled (which would end the process on a host that ends it on an
    unhandled rejection), and from every state reached the run can go on so
    that every task queued there is dispatched, in queue order: the reaction
    jobs run and the timer fires, each time once the gate is open.  (What
    the caller does with a rejection of the promise [call] returned is the
    caller's business.) *)
Theorem queued_tasks_are_dispatched maxFlow name h evs w :
  heap_strippable h ->
  run evs (init_world maxFlow name h) = Some w ->
  unhandled w = [] /\
  (forall evs' w', run evs' w = Some w' -> unhandled w' = []) /\
  exists evs' w', run evs' w = Some w' /\
                  dispatched w' = dispatched w ++ pending w.
Proof.
  intros Hh Hr.
  assert (Hcalm : calm w).
  { eapply calm_run; [|exact Hr]. by split. }
  split; [apply Hcalm|]. split.
  { intros evs' w' Hr'. by apply (calm_run evs' w w'). }
  assert (Hlive : live w).
  { split.
    - revert Hr.
      apply (run_invariant
               (fun w => _taskQueue (w_fc w) <> [] -> (0 < w_timers w)%nat)); [|done].
      intros ev w0 w1. apply scheduled_step.
    - destruct (run_maxFlow _ _ _ _ _ Hr) as [-> ->]. done. }
  destruct (drive (_taskQueue (w_fc w)) w [] Hlive) as (evs' & w' & Hr' & _ & Hd & _).
  { by rewrite app_nil_r. }
  by exists evs', w'.
Qed.

Lemma heap_with_token_strippable : heap_strippable heap_with_token.
Proof.
  intros l o Hl. unfold heap_with_token in Hl.
  apply lookup_singleton_Some in Hl as [<- <-].
  split; [done|]. intros p Hp. vm_compute in Hp. by injection Hp as <-.
Qed.

Lemma queued_tasks_are_dispatched_witness :
  exists w evs' w',
    run two_tasks_queued (init_world 60 "api" heap_with_token) = Some w /\
    run evs' w = Some w' /\
    dispatched w' = dispatched w ++ pending w /\
    pending w = [0; 1]%nat /\ unhandled w' = [].
Proof.
  destruct (queued_tasks_are_dispatched 60 "api" heap_with_token two_tasks_queued _
              heap_with_token_strippable ltac:(vm_compute; reflexivity))
    as (_ & Hno & evs' & w' & H1 & H2).
  eexists. exists evs', w'. split; [vm_compute; reflexivity|].
  split; [exact H1|]. split; [exact H2|]. split; [vm_compute; reflexivity|].
  by apply (Hno evs' w').
Defined.
